(** * Verification of [database/init_db.py]

    A shallow embedding of the SQLite initialisation script of the
    interactive trivia challenge: the path resolver, the schema manager, the
    seed reconciler, the environment publisher and the orchestrator.

    The script talks to three things outside itself, each modelled by a
    small explicit state:
    - the SQLite engine: typed tables with their [sqlite_sequence] counter,
      and the statements of the script as functions over them;
    - the Python [sqlite3] connection, which opens a transaction implicitly
      before INSERT/UPDATE/DELETE/REPLACE only, runs every other statement
      in whatever mode the connection is in, and discards an open
      transaction on [close];
    - the file system: the reference file, the environment file, the
      database files, and the answers of the operating system to the calls
      that can fail. *)

From Stdlib Require Import ZArith List String Ascii Bool Lia Permutation.
From Stdlib Require Import DecimalString.
Import ListNotations.

Local Open Scope string_scope.
Local Open Scope Z_scope.

(** ** Exceptions *)

Inductive exn : Type :=
| RuntimeError (msg : string)
| OperationalError (msg : string)
| IntegrityError (msg : string)
| TypeError (msg : string)
| OSError (msg : string).

(** [str(exc)] as the f-strings of [main] print it. *)
Definition exn_message (e : exn) : string :=
  match e with
  | RuntimeError m | OperationalError m | IntegrityError m
  | TypeError m | OSError m => m
  end.

(** ** The SQLite engine *)

Module Sql.

(** A table: its rows in rowid order, and the largest rowid it has ever
    held ([sqlite_sequence.seq], kept because every table of the script is
    declared INTEGER PRIMARY KEY AUTOINCREMENT). *)
Record table (R : Type) : Type := mk_table { rows : list R; seq : Z }.
Arguments mk_table {R} _ _.
Arguments rows {R} _.
Arguments seq {R} _.

Definition empty_table {R : Type} : table R := mk_table [] 0.

Record app_info_row : Type := mk_app_info {
  ai_id : Z;
  ai_key : string;
  ai_value : option string;
  ai_created_at : string }.

Record users_row : Type := mk_user {
  u_id : Z;
  u_username : string;
  u_email : string;
  u_created_at : string }.

Record question_row : Type := mk_question {
  q_id : Z;
  q_code : string;
  q_question_text : string;
  q_category : option string;
  q_difficulty : option string;
  q_explanation : option string;
  q_created_at : string;
  q_updated_at : string }.

Record choice_row : Type := mk_choice {
  c_id : Z;
  c_question_id : Z;
  c_choice_text : string;
  c_choice_order : Z;
  c_is_correct : Z;
  c_created_at : string }.

(** The schema objects the script knows.  A table is [None] until its
    CREATE TABLE has run; an index is a flag. *)
Record database : Type := mk_database {
  app_info : option (table app_info_row);
  users : option (table users_row);
  trivia_questions : option (table question_row);
  trivia_choices : option (table choice_row);
  idx_trivia_choices_question_id : bool;
  idx_trivia_questions_category : bool }.

(** A database file that does not exist yet, or has length zero. *)
Definition empty_database : database :=
  mk_database None None None None false false.

Definition set_app_info (t : table app_info_row) (d : database) : database :=
  mk_database (Some t) (users d) (trivia_questions d) (trivia_choices d)
    (idx_trivia_choices_question_id d) (idx_trivia_questions_category d).

Definition set_users (t : table users_row) (d : database) : database :=
  mk_database (app_info d) (Some t) (trivia_questions d) (trivia_choices d)
    (idx_trivia_choices_question_id d) (idx_trivia_questions_category d).

Definition set_trivia_questions (t : table question_row) (d : database)
  : database :=
  mk_database (app_info d) (users d) (Some t) (trivia_choices d)
    (idx_trivia_choices_question_id d) (idx_trivia_questions_category d).

Definition set_trivia_choices (t : table choice_row) (d : database)
  : database :=
  mk_database (app_info d) (users d) (trivia_questions d) (Some t)
    (idx_trivia_choices_question_id d) (idx_trivia_questions_category d).

Definition set_idx_choices (d : database) : database :=
  mk_database (app_info d) (users d) (trivia_questions d) (trivia_choices d)
    true (idx_trivia_questions_category d).

Definition set_idx_category (d : database) : database :=
  mk_database (app_info d) (users d) (trivia_questions d) (trivia_choices d)
    (idx_trivia_choices_question_id d) true.

(** *** Rowid allocation (AUTOINCREMENT) *)

Definition max_rowid : Z := 9223372036854775807.

Definition list_max (l : list Z) : option Z :=
  match l with
  | [] => None
  | x :: l' => Some (fold_left Z.max l' x)
  end.

(** One more than the largest rowid now in the table, and never below one
    more than the largest the table has ever held; 1 in a table that never
    held a row.  Once the largest possible rowid has been used the engine
    refuses the insert (SQLITE_FULL). *)
Definition new_rowid {R : Type} (rowid : R -> Z) (t : table R) : exn + Z :=
  let full := inl (OperationalError "database or disk is full") in
  match list_max (map rowid (rows t)) with
  | Some v =>
      if (v >=? max_rowid) || (seq t >=? max_rowid) then full
      else inr (Z.max (v + 1) (seq t + 1))
  | None =>
      if seq t >=? max_rowid then full else inr (Z.max 1 (seq t + 1))
  end.

Definition no_such_table (name : string) : exn :=
  OperationalError ("no such table: " ++ name).

(** *** Statements of [_create_base_schema] *)

(** CREATE TABLE IF NOT EXISTS app_info (...) *)
Definition create_app_info (d : database) : exn + database :=
  match app_info d with
  | Some _ => inr d
  | None => inr (set_app_info empty_table d)
  end.

(** CREATE TABLE IF NOT EXISTS users (...) *)
Definition create_users (d : database) : exn + database :=
  match users d with
  | Some _ => inr d
  | None => inr (set_users empty_table d)
  end.

(** INSERT OR REPLACE INTO app_info (key, value) VALUES (?, ?):
    the rowid is allocated, the rows that hold the key are deleted (the
    conflict on [key UNIQUE] is resolved by REPLACE), the new row is added;
    [created_at] takes its default, the current time. *)
Definition insert_or_replace_app_info (key : string) (value : option string)
    (now : string) (d : database) : exn + database :=
  match app_info d with
  | None => inl (no_such_table "app_info")
  | Some t =>
      match new_rowid ai_id t with
      | inl e => inl e
      | inr id =>
          let kept :=
            filter (fun r => negb (String.eqb (ai_key r) key)) (rows t) in
          inr (set_app_info
                 (mk_table (kept ++ [mk_app_info id key value now]) id) d)
      end
  end.

(** *** Statements of [_create_trivia_schema] *)

Definition create_trivia_questions (d : database) : exn + database :=
  match trivia_questions d with
  | Some _ => inr d
  | None => inr (set_trivia_questions empty_table d)
  end.

Definition create_trivia_choices (d : database) : exn + database :=
  match trivia_choices d with
  | Some _ => inr d
  | None => inr (set_trivia_choices empty_table d)
  end.

(** CREATE INDEX IF NOT EXISTS idx_trivia_choices_question_id
    ON trivia_choices(question_id) *)
Definition create_idx_choices (d : database) : exn + database :=
  if idx_trivia_choices_question_id d then inr d
  else match trivia_choices d with
       | Some _ => inr (set_idx_choices d)
       | None => inl (no_such_table "main.trivia_choices")
       end.

(** CREATE INDEX IF NOT EXISTS idx_trivia_questions_category
    ON trivia_questions(category) *)
Definition create_idx_category (d : database) : exn + database :=
  if idx_trivia_questions_category d then inr d
  else match trivia_questions d with
       | Some _ => inr (set_idx_category d)
       | None => inl (no_such_table "main.trivia_questions")
       end.

(** *** Statements of the seeder *)

Definition has_code (code : string) (r : question_row) : bool :=
  String.eqb (q_code r) code.

(** SELECT 1 FROM trivia_questions WHERE code = ? LIMIT 1, [fetchone()] *)
Definition select_1_by_code (code : string) (d : database)
  : exn + option Z :=
  match trivia_questions d with
  | None => inl (no_such_table "trivia_questions")
  | Some t => inr (if existsb (has_code code) (rows t) then Some 1 else None)
  end.

(** INSERT INTO trivia_questions (code, question_text, category,
    difficulty, explanation) VALUES (?, ?, ?, ?, ?) *)
Definition insert_question (code question_text : string)
    (category difficulty explanation : option string)
    (now : string) (d : database) : exn + database :=
  match trivia_questions d with
  | None => inl (no_such_table "trivia_questions")
  | Some t =>
      match new_rowid q_id t with
      | inl e => inl e
      | inr id =>
          if existsb (has_code code) (rows t)
          then inl (IntegrityError
                      "UNIQUE constraint failed: trivia_questions.code")
          else inr (set_trivia_questions
                      (mk_table
                         (rows t ++ [mk_question id code question_text
                                       category difficulty explanation
                                       now now])
                         id) d)
      end
  end.

(** SELECT id FROM trivia_questions WHERE code = ?, [fetchone()] *)
Definition select_id_by_code (code : string) (d : database)
  : exn + option Z :=
  match trivia_questions d with
  | None => inl (no_such_table "trivia_questions")
  | Some t => inr (option_map q_id (find (has_code code) (rows t)))
  end.

(** INSERT INTO trivia_choices (question_id, choice_text, choice_order,
    is_correct) VALUES (?, ?, ?, ?), under [PRAGMA foreign_keys = ON]:
    UNIQUE (question_id, choice_order) and the foreign key to
    [trivia_questions(id)] are both checked. *)
Definition insert_choice (question_id : Z) (choice_text : string)
    (choice_order is_correct : Z) (now : string) (d : database)
  : exn + database :=
  match trivia_choices d with
  | None => inl (no_such_table "trivia_choices")
  | Some t =>
      match trivia_questions d with
      | None => inl (no_such_table "main.trivia_questions")
      | Some qt =>
          match new_rowid c_id t with
          | inl e => inl e
          | inr id =>
              if existsb (fun r => (c_question_id r =? question_id)
                                   && (c_choice_order r =? choice_order))
                   (rows t)
              then inl (IntegrityError
                "UNIQUE constraint failed: trivia_choices.question_id, trivia_choices.choice_order")
              else if negb (existsb (fun q => q_id q =? question_id)
                              (rows qt))
              then inl (IntegrityError "FOREIGN KEY constraint failed")
              else inr (set_trivia_choices
                          (mk_table
                             (rows t ++ [mk_choice id question_id choice_text
                                           choice_order is_correct now])
                             id) d)
          end
      end
  end.

(** *** Statistics queries of [main] *)

Definition is_some {A : Type} (o : option A) : bool :=
  match o with Some _ => true | None => false end.

(** SELECT COUNT( * ) FROM sqlite_master WHERE type='table'
    AND name NOT LIKE 'sqlite_%' *)
Definition count_tables (d : database) : exn + Z :=
  inr (Z.of_nat (List.length (filter (fun b : bool => b)
         [is_some (app_info d); is_some (users d);
          is_some (trivia_questions d); is_some (trivia_choices d)]))).

Definition count_questions (d : database) : exn + Z :=
  match trivia_questions d with
  | None => inl (no_such_table "trivia_questions")
  | Some t => inr (Z.of_nat (List.length (rows t)))
  end.

Definition count_choices (d : database) : exn + Z :=
  match trivia_choices d with
  | None => inl (no_such_table "trivia_choices")
  | Some t => inr (Z.of_nat (List.length (rows t)))
  end.

(** Row counts, table by table (0 for a table that does not exist). *)
Definition row_count {R : Type} (o : option (table R)) : nat :=
  match o with Some t => List.length (rows t) | None => 0%nat end.

End Sql.

(** ** The [sqlite3] connection

    Python's [sqlite3] (default [isolation_level]) issues BEGIN by itself
    before a statement that is an INSERT, UPDATE, DELETE or REPLACE when no
    transaction is open, and before nothing else: a CREATE TABLE, a SELECT
    or a PRAGMA run on a connection with no open transaction is committed by
    the engine on its own as soon as it has run.  [commit] ends the open
    transaction; [close] drops it. *)

Module Conn.
Import Sql.

(** [disk]: what is committed in the file.  [txn]: the uncommitted state of
    the open transaction, if one is open.  [clock]: CURRENT_TIMESTAMP.
    [fault_after]: the engine may refuse a statement for reasons outside the
    script (locked file, full disk, I/O error); [Some n] says that [n] more
    statements run before the next one is refused, [None] that none is. *)
Record connection : Type := mk_connection {
  disk : database;
  txn : option database;
  clock : string;
  fault_after : option nat }.

(** The database as the statements of the connection see it. *)
Definition view (c : connection) : database :=
  match txn c with Some w => w | None => disk c end.

(** A computation on a connection that may raise. *)
Definition M (A : Type) : Type := connection -> (exn + A) * connection.

Definition ret {A : Type} (a : A) : M A := fun c => (inr a, c).

Definition raise {A : Type} (e : exn) : M A := fun c => (inl e, c).

Definition bind {A B : Type} (m : M A) (k : A -> M B) : M B :=
  fun c => match m c with
           | (inl e, c') => (inl e, c')
           | (inr a, c') => k a c'
           end.

Notation "x <- m ;; k" := (bind m (fun x => k))
  (at level 61, m at next level, right associativity).
Notation "m ;; k" := (bind m (fun _ => k))
  (at level 61, right associativity).

(** The engine accepts or refuses the next statement. *)
Definition step_engine : M unit :=
  fun c => match fault_after c with
           | Some O => (inl (OperationalError "disk I/O error"), c)
           | Some (S n) =>
               (inr tt, mk_connection (disk c) (txn c) (clock c) (Some n))
           | None => (inr tt, c)
           end.

(** [conn.execute] of a statement that only reads. *)
Definition execute_query {A : Type} (q : database -> exn + A) : M A :=
  step_engine ;;
  fun c => (q (view c), c).

(** [conn.execute] of a CREATE statement: no implicit BEGIN.  Inside an open
    transaction it changes the transaction's state; outside, the file. *)
Definition execute_ddl (s : database -> exn + database) : M unit :=
  step_engine ;;
  fun c => match s (view c) with
           | inl e => (inl e, c)
           | inr d =>
               (inr tt,
                match txn c with
                | Some _ => mk_connection (disk c) (Some d) (clock c)
                              (fault_after c)
                | None => mk_connection d None (clock c) (fault_after c)
                end)
           end.

(** [conn.execute] of an INSERT: BEGIN first when no transaction is open.
    A statement that fails leaves the transaction open and unchanged. *)
Definition execute_dml (s : string -> database -> exn + database) : M unit :=
  step_engine ;;
  fun c => match s (clock c) (view c) with
           | inl e =>
               (inl e, mk_connection (disk c) (Some (view c)) (clock c)
                         (fault_after c))
           | inr d =>
               (inr tt, mk_connection (disk c) (Some d) (clock c)
                          (fault_after c))
           end.

(** [conn.commit()] *)
Definition commit : M unit :=
  fun c => (inr tt, mk_connection (view c) None (clock c) (fault_after c)).

(** [conn.close()]: what is left in the file. *)
Definition close (c : connection) : database := disk c.

End Conn.

(** ** The schema manager and the seed reconciler *)

Module InitDb.
Import Sql Conn.

(** [_connect]: [sqlite3.connect], then PRAGMA foreign_keys = ON (a
    statement like any other for the engine; it changes no table). *)
Definition _connect (d : database) (now : string) (faults : option nat)
  : exn + connection :=
  match execute_query (fun _ => inr tt) (mk_connection d None now faults) with
  | (inl e, _) => inl e
  | (inr _, c) => inr c
  end.

Definition _create_base_schema : M unit :=
  execute_ddl create_app_info ;;
  execute_ddl create_users ;;
  execute_dml (insert_or_replace_app_info
                 "project_name" (Some "interactive-trivia-challenge")) ;;
  execute_dml (insert_or_replace_app_info "version" (Some "0.2.0")) ;;
  execute_dml (insert_or_replace_app_info "description"
    (Some "SQLite DB for interactive trivia questions and sessions.")).

Definition _create_trivia_schema : M unit :=
  execute_ddl create_trivia_questions ;;
  execute_ddl create_trivia_choices ;;
  execute_ddl create_idx_choices ;;
  execute_ddl create_idx_category.

Definition _question_exists (code : string) : M bool :=
  row <- execute_query (select_1_by_code code) ;;
  ret (is_some row).

(** The loop over [enumerate(choices)], from index [idx] on. *)
Fixpoint insert_choices (qid : Z) (correct_index : Z) (idx : Z)
    (choices : list string) : M unit :=
  match choices with
  | [] => ret tt
  | choice_text :: rest =>
      let is_correct := if idx =? correct_index then 1 else 0 in
      execute_dml (insert_choice qid choice_text idx is_correct) ;;
      insert_choices qid correct_index (idx + 1) rest
  end.

Definition _insert_question_with_choices (code question_text : string)
    (choices : list string) (correct_index : Z)
    (category difficulty explanation : option string) : M unit :=
  found <- _question_exists code ;;
  if found then ret tt
  else
    execute_dml (insert_question code question_text
                   category difficulty explanation) ;;
    row <- execute_query (select_id_by_code code) ;;
    match row with
    | None => raise (TypeError "'NoneType' object is not subscriptable")
    | Some qid => insert_choices qid correct_index 0 choices
    end.

Definition seed_entry : Type :=
  (string * string * list string * Z * string * string * string)%type.

Definition starter_questions : list seed_entry :=
  [ ("GEN_001",
     "What is the capital city of France?",
     ["Berlin"; "Madrid"; "Paris"; "Rome"],
     2,
     "Geography",
     "Easy",
     "Paris is the capital and most populous city of France.");
    ("SCI_001",
     "Which planet is known as the Red Planet?",
     ["Venus"; "Mars"; "Jupiter"; "Mercury"],
     1,
     "Science",
     "Easy",
     "Mars appears red due to iron oxide (rust) on its surface.");
    ("CS_001",
     "In programming, what does 'HTML' stand for?",
     ["HyperText Markup Language";
      "High Transfer Machine Language";
      "Hyperlink and Text Management Language";
      "Home Tool Markup Language"],
     0,
     "Technology",
     "Easy",
     "HTML stands for HyperText Markup Language.");
    ("HIS_001",
     "Who was the first President of the United States?",
     ["Thomas Jefferson"; "John Adams"; "George Washington"; "James Madison"],
     2,
     "History",
     "Easy",
     "George Washington served as the first U.S. President from 1789 to 1797.");
    ("MATH_001",
     "What is 9 Ã— 7?",
     ["56"; "63"; "72"; "49"],
     1,
     "Math",
     "Easy",
     "9 times 7 equals 63.");
    ("POP_001",
     "Which movie features the quote: 'May the Force be with you'?",
     ["Star Wars"; "The Matrix"; "Harry Potter"; "The Lord of the Rings"],
     0,
     "Pop Culture",
     "Easy",
     "The quote is famously associated with the Star Wars franchise.") ].

Definition seed_one (e : seed_entry) : M unit :=
  let '(code, question_text, choices, correct_index,
        category, difficulty, explanation) := e in
  _insert_question_with_choices code question_text choices correct_index
    (Some category) (Some difficulty) (Some explanation).

(** The [for] loop of [_seed_starter_questions] over a catalog. *)
Fixpoint seed_all (catalog : list seed_entry) : M unit :=
  match catalog with
  | [] => ret tt
  | e :: rest => seed_one e ;; seed_all rest
  end.

Definition _seed_starter_questions : M unit := seed_all starter_questions.

(** The body of the [try] block of [main]: everything up to the commit. *)
Definition initialize : M unit :=
  execute_query (fun _ => inr 1) ;;
  _create_base_schema ;;
  _create_trivia_schema ;;
  _seed_starter_questions ;;
  commit.

(** The statistics read after the commit: tables, questions, choices. *)
Definition statistics : M (Z * Z * Z) :=
  table_count <- execute_query count_tables ;;
  q_count <- execute_query count_questions ;;
  c_count <- execute_query count_choices ;;
  ret (table_count, q_count, c_count).

(** [_connect], a [try] block and its [finally: conn.close()]: the result
    of the block and the database left in the file. *)
Definition with_connection {A : Type} (body : M A) (d : database)
    (now : string) (faults : option nat) : (exn + A) * database :=
  match _connect d now faults with
  | inl e => (inl e, d)
  | inr c =>
      let '(r, c') := body c in
      (r, close c')
  end.

(** The database part of [main]. *)
Definition run_database (d : database) (now : string) (faults : option nat)
  : (exn + (Z * Z * Z)) * database :=
  with_connection (initialize ;; statistics) d now faults.

(** The part of it that ends with the commit. *)
Definition run_until_commit (d : database) (now : string)
    (faults : option nat) : (exn + unit) * database :=
  with_connection initialize d now faults.

End InitDb.

(** ** Paths and the path resolver *)

Module Paths.

Definition newline : ascii := "010"%char.
Definition slash : ascii := "/"%char.

Definition nl : string := String newline EmptyString.

(** The double quote. *)
Definition dquote : string := String "034"%char EmptyString.

(** Text is held as its UTF-8 bytes, which is what the file holds and what
    [open(..., encoding="utf-8")] decodes.  The characters the resolver
    tells apart from the rest are the line feed, the slash, the dot and the
    white space of [str.isspace], which is also what [\s] matches in a
    pattern over [str]: U+0009 to U+000D, U+001C to U+0020, U+0085, U+00A0,
    U+1680, U+2000 to U+200A, U+2028, U+2029, U+202F, U+205F and U+3000.
    A byte below 128 is a character of its own; no byte of a longer
    character is below 128. *)
Definition byte (c : ascii) : nat := nat_of_ascii c.

(** White space of one byte: tab, line feed, vertical tab, form feed,
    carriage return, the separators 28 to 31, and the space. *)
Definition is_space1 (c : ascii) : bool :=
  let n := nat_of_ascii c in
  ((9 <=? n) && (n <=? 13) || (28 <=? n) && (n <=? 31) || (n =? 32))%nat.

(** White space of two bytes: U+0085 (C2 85) and U+00A0 (C2 A0). *)
Definition is_space2 (c1 c2 : ascii) : bool :=
  ((byte c1 =? 194) && ((byte c2 =? 133) || (byte c2 =? 160)))%nat.

(** White space of three bytes: U+1680 (E1 9A 80), U+2000 to U+200A
    (E2 80 80 to E2 80 8A), U+2028 and U+2029 (E2 80 A8, E2 80 A9), U+202F
    (E2 80 AF), U+205F (E2 81 9F) and U+3000 (E3 80 80). *)
Definition is_space3 (c1 c2 c3 : ascii) : bool :=
  ((byte c1 =? 225) && (byte c2 =? 154) && (byte c3 =? 128)
   || (byte c1 =? 226) && (byte c2 =? 128)
      && ((128 <=? byte c3) && (byte c3 <=? 138)
          || (byte c3 =? 168) || (byte c3 =? 169) || (byte c3 =? 175))
   || (byte c1 =? 226) && (byte c2 =? 129) && (byte c3 =? 159)
   || (byte c1 =? 227) && (byte c2 =? 128) && (byte c3 =? 128))%nat.

(** The text after the white space character that [s] starts with, if it
    starts with one. *)
Definition skip_space (s : string) : option string :=
  match s with
  | String c1 s1 =>
      if is_space1 c1 then Some s1
      else
        match s1 with
        | String c2 s2 =>
            if is_space2 c1 c2 then Some s2
            else
              match s2 with
              | String c3 s3 =>
                  if is_space3 c1 c2 c3 then Some s3 else None
              | EmptyString => None
              end
        | EmptyString => None
        end
  | EmptyString => None
  end.

(** [s.lstrip()]: the white space characters at the head are dropped, one
    character (of one, two or three bytes) at a time. *)
Fixpoint lstrip (s : string) : string :=
  match s with
  | String c1 s1 =>
      if is_space1 c1 then lstrip s1
      else
        match s1 with
        | String c2 s2 =>
            if is_space2 c1 c2 then lstrip s2
            else
              match s2 with
              | String c3 s3 => if is_space3 c1 c2 c3 then lstrip s3 else s
              | EmptyString => s
              end
        | EmptyString => s
        end
  | EmptyString => EmptyString
  end.

(** [s.isspace() or s == ""]: nothing but white space characters. *)
Fixpoint all_space (s : string) : bool :=
  match s with
  | String c1 s1 =>
      if is_space1 c1 then all_space s1
      else
        match s1 with
        | String c2 s2 =>
            if is_space2 c1 c2 then all_space s2
            else
              match s2 with
              | String c3 s3 =>
                  if is_space3 c1 c2 c3 then all_space s3 else false
              | EmptyString => false
              end
        | EmptyString => false
        end
  | EmptyString => true
  end.

(** [s.rstrip()]: the text is cut where nothing but white space follows.
    (Inside a character of several bytes the rest never is all white
    space: it starts with a continuation byte, which starts no white space
    character.) *)
Fixpoint rstrip (s : string) : string :=
  match s with
  | String c s' => if all_space s then EmptyString else String c (rstrip s')
  | EmptyString => EmptyString
  end.

(** [s.strip()] *)
Definition strip (s : string) : string := rstrip (lstrip s).

(** What reading a file in text mode makes of its line ends (universal
    newlines, the default of [open]): a carriage return, with the line
    feed that follows it if one does, is read as one line feed. *)
Fixpoint universal_newlines (s : string) : string :=
  match s with
  | String c s1 =>
      if Ascii.eqb c "013"%char then
        match s1 with
        | String c2 s2 =>
            if Ascii.eqb c2 newline then String newline (universal_newlines s2)
            else String newline (universal_newlines s1)
        | EmptyString => String newline EmptyString
        end
      else String c (universal_newlines s1)
  | EmptyString => EmptyString
  end.

(** [c in s] *)
Fixpoint occurs (c : ascii) (s : string) : bool :=
  match s with
  | String x s' => Ascii.eqb x c || occurs c s'
  | EmptyString => false
  end.

(** [s.startswith(p)], with what follows the prefix. *)
Fixpoint strip_prefix (p s : string) : option string :=
  match p with
  | EmptyString => Some s
  | String a p' =>
      match s with
      | String b s' => if Ascii.eqb a b then strip_prefix p' s' else None
      | EmptyString => None
      end
  end.

(** [s.split(sep)] for a separator of one character. *)
Fixpoint split_on (sep : ascii) (s : string) : list string :=
  match s with
  | EmptyString => [EmptyString]
  | String c s' =>
      if Ascii.eqb c sep then EmptyString :: split_on sep s'
      else match split_on sep s' with
           | w :: ws => String c w :: ws
           | [] => [String c EmptyString]
           end
  end.

(** *** [posixpath] *)

Definition isabs (s : string) : bool :=
  match s with String c _ => Ascii.eqb c slash | EmptyString => false end.

Fixpoint ends_with_slash (s : string) : bool :=
  match s with
  | EmptyString => false
  | String c EmptyString => Ascii.eqb c slash
  | String _ s' => ends_with_slash s'
  end.

(** [os.path.join(a, b)] *)
Definition join (a b : string) : string :=
  if isabs b then b
  else if String.eqb a EmptyString || ends_with_slash a then a ++ b
  else a ++ "/" ++ b.

(** The loop of [normpath] over the components; [new_comps] is kept with
    its last element first. *)
Fixpoint norm_comps (initial_slashes : nat) (comps new_comps : list string)
  : list string :=
  match comps with
  | [] => new_comps
  | comp :: rest =>
      if String.eqb comp EmptyString || String.eqb comp "." then
        norm_comps initial_slashes rest new_comps
      else if negb (String.eqb comp "..")
              || (Nat.eqb initial_slashes 0
                  && match new_comps with [] => true | _ => false end)
              || match new_comps with
                 | last :: _ => String.eqb last ".."
                 | [] => false
                 end
      then norm_comps initial_slashes rest (comp :: new_comps)
      else norm_comps initial_slashes rest (tl new_comps)
  end.

Fixpoint repeat_slash (n : nat) : string :=
  match n with O => EmptyString | S n' => String slash (repeat_slash n') end.

(** [os.path.normpath(path)] *)
Definition normpath (path : string) : string :=
  if String.eqb path EmptyString then "."
  else
    let initial_slashes :=
      match strip_prefix "/" path with
      | None => 0%nat
      | Some _ =>
          match strip_prefix "//" path, strip_prefix "///" path with
          | Some _, None => 2%nat
          | _, _ => 1%nat
          end
      end in
    let comps := rev (norm_comps initial_slashes (split_on slash path) []) in
    let path' := repeat_slash initial_slashes ++ String.concat "/" comps in
    if String.eqb path' EmptyString then "." else path'.

(** [os.path.abspath(path)] in the working directory [cwd]. *)
Definition abspath (cwd path : string) : string :=
  normpath (if isabs path then path else join cwd path).

(** [head] of [dirname]: the path up to and with its last slash. *)
Fixpoint upto_last_slash (p : string) : string :=
  match p with
  | EmptyString => EmptyString
  | String c p' =>
      match upto_last_slash p' with
      | EmptyString =>
          if Ascii.eqb c slash then String c EmptyString else EmptyString
      | h => String c h
      end
  end.

Fixpoint rstrip_slash (s : string) : string :=
  match s with
  | String c s' =>
      match rstrip_slash s' with
      | EmptyString =>
          if Ascii.eqb c slash then EmptyString else String c EmptyString
      | r => String c r
      end
  | EmptyString => EmptyString
  end.

(** [os.path.dirname(p)] *)
Definition dirname (p : string) : string :=
  let head := upto_last_slash p in
  if negb (String.eqb head EmptyString)
     && negb (String.eqb head (repeat_slash (String.length head)))
  then rstrip_slash head
  else head.

(** *** The pattern of the resolver

    [re.search(r"^# File path:\s*(.+)$", content, re.MULTILINE)].
    With MULTILINE, [^] holds at the start of the text and after each line
    feed, [$] at the end of the text and before each line feed; [.] is any
    character but the line feed; [\s] is one white space character, the
    line feed included.
    Both quantifiers are greedy and give back what they took, one character
    at a time, when the rest of the pattern fails. *)

Definition file_path_prefix : string := "# File path:".

(** The longest run of characters other than the line feed. *)
Fixpoint take_line (s : string) : string :=
  match s with
  | String c s' =>
      if Ascii.eqb c newline then EmptyString else String c (take_line s')
  | EmptyString => EmptyString
  end.

(** [(.+)$]: the group takes the rest of the line, where [$] holds; a
    shorter group would not end where [$] holds.  An empty rest fails. *)
Definition match_group (s : string) : option string :=
  match take_line s with
  | EmptyString => None
  | g => Some g
  end.

(** [\s*(.+)$]: one more white space character first; when the rest then
    fails, the group is tried here. *)
Fixpoint match_spaces_group (s : string) : option string :=
  let or_here (r : option string) :=
    match r with Some g => Some g | None => match_group s end in
  match s with
  | String c1 s1 =>
      if is_space1 c1 then or_here (match_spaces_group s1)
      else
        match s1 with
        | String c2 s2 =>
            if is_space2 c1 c2 then or_here (match_spaces_group s2)
            else
              match s2 with
              | String c3 s3 =>
                  if is_space3 c1 c2 c3 then or_here (match_spaces_group s3)
                  else match_group s
              | EmptyString => match_group s
              end
        | EmptyString => match_group s
        end
  | EmptyString => None
  end.

(** The pattern tried at one position where [^] holds: group 1. *)
Definition match_here (s : string) : option string :=
  match strip_prefix file_path_prefix s with
  | Some rest => match_spaces_group rest
  | None => None
  end.

(** [re.search]: the positions from left to right; [at_line_start] says
    whether [^] holds at the current one. *)
Fixpoint search_from (at_line_start : bool) (s : string) : option string :=
  match (if at_line_start then match_here s else None) with
  | Some g => Some g
  | None =>
      match s with
      | String c s' => search_from (Ascii.eqb c newline) s'
      | EmptyString => None
      end
  end.

Definition re_search (content : string) : option string :=
  search_from true content.

(** *** [get_db_path_from_connection_file]

    [read] is the outcome of [open(connection_file).read()]: the text, or
    [None] when either call raises. *)
Definition get_db_path_from_connection_file (cwd : string)
    (connection_file : string) (read : option string) : exn + string :=
  match read with
  | None =>
      inl (RuntimeError
             ("Could not read " ++ connection_file
              ++ ". It must exist and contain '# File path: ...'."))
  | Some content =>
      match re_search content with
      | None =>
          inl (RuntimeError
                 (connection_file
                  ++ " does not contain an authoritative '# File path: ...' line."))
      | Some group1 =>
          let db_path := strip group1 in
          inr (abspath cwd db_path)
      end
  end.

End Paths.

(** ** The file system, the environment publisher and the orchestrator *)

Module Script.
Import Sql InitDb Paths.

(** What is at a path that [sqlite3.connect] is given. *)
Inductive db_node : Type :=
| NoFile
| DbFile (d : database)
| NotADatabase.

(** The world [main] runs in.  Text files are looked up by the name the
    script opens them with; database files by their absolute path.
    - [read_text p]: the text [open(p).read()] returns, [None] when it
      raises (no such file, no permission, not UTF-8);
    - [open_w_error p]: the message of the [OSError] that [open(p, "w")]
      raises, [None] when it succeeds;
    - [makedirs_error p]: the same for [os.makedirs(p, exist_ok=True)];
    - [engine_faults]: see [Conn.fault_after];
    - [now]: the reading of the clock during the run. *)
Record world : Type := mk_world {
  cwd : string;
  now : string;
  read_text : string -> option string;
  open_w_error : string -> option string;
  makedirs_error : string -> option string;
  databases : string -> db_node;
  engine_faults : option nat }.

(** What the run does that can be seen from outside. *)
Inductive event : Type :=
| Print (line : string)
| MakeDirs (path : string)
| WriteFile (path content : string).

Definition DB_NAME_FALLBACK : string := "myapp.db".

(** [with open(path, "w") as f: f.write(...)]: the file then holds what
    was written, which is also what reading it returns when the text has
    no carriage return in it (see [Paths.universal_newlines]). *)
Definition write_text (path content : string) (w : world) : exn + world :=
  match open_w_error w path with
  | Some msg => inl (OSError msg)
  | None =>
      inr (mk_world (cwd w) (now w)
             (fun p => if String.eqb p path then Some content
                       else read_text w p)
             (open_w_error w) (makedirs_error w) (databases w)
             (engine_faults w))
  end.

Definition set_database (path : string) (d : database) (w : world) : world :=
  mk_world (cwd w) (now w) (read_text w) (open_w_error w) (makedirs_error w)
    (fun p => if String.eqb p path then DbFile d else databases w p)
    (engine_faults w).

(** [os.path.exists(db_path)] *)
Definition path_exists (w : world) (path : string) : bool :=
  match databases w path with NoFile => false | _ => true end.

(** [str(n)] *)
Definition str_of_int (n : Z) : string := NilZero.string_of_int (Z.to_int n).

Definition env_file_name : string := "db_visualizer/sqlite.env".

Definition env_line (db_path : string) : string :=
  "export SQLITE_DB=" ++ dquote ++ db_path ++ dquote ++ nl.

(** [_write_visualizer_env] *)
Definition _write_visualizer_env (db_path : string) (w : world)
  : (exn + unit) * world * list event :=
  match makedirs_error w "db_visualizer" with
  | Some msg => (inl (OSError msg), w, [])
  | None =>
      match write_text env_file_name (env_line db_path) w with
      | inl e => (inl e, w, [MakeDirs "db_visualizer"])
      | inr w' =>
          (inr tt, w',
           [MakeDirs "db_visualizer";
            WriteFile env_file_name (env_line db_path)])
      end
  end.

(** The four [f.write] of the reference file. *)
Definition connection_info (db_path : string) : string :=
  let connection_string := "sqlite:///" ++ db_path in
  "# SQLite connection methods:" ++ nl
  ++ "# Python: sqlite3.connect('" ++ db_path ++ "')" ++ nl
  ++ "# Connection string: " ++ connection_string ++ nl
  ++ "# File path: " ++ db_path ++ nl.

(** The first block of [main]: the path, and whether it is the fallback. *)
Definition resolve (w : world) : string * bool * list event :=
  match get_db_path_from_connection_file (cwd w) "db_connection.txt"
          (read_text w "db_connection.txt") with
  | inr db_path => (db_path, false, [])
  | inl exc =>
      (abspath (cwd w) DB_NAME_FALLBACK, true,
       [Print ("Warning: " ++ exn_message exc);
        Print ("Falling back to local DB file: " ++ DB_NAME_FALLBACK)])
  end.

(** The last block of [main]: the reference file is written when the
    fallback was used, and a failure to write it is reported. *)
Definition save_connection_info (used_fallback : bool) (db_path : string)
    (w : world) : world * list event :=
  if used_fallback then
    match write_text "db_connection.txt" (connection_info db_path) w with
    | inr w' =>
        (w', [WriteFile "db_connection.txt" (connection_info db_path);
              Print "Connection information saved to db_connection.txt (authoritative path updated)."])
    | inl exc =>
        (w, [Print ("Warning: Could not save connection info: "
                    ++ exn_message exc)])
    end
  else (w, []).

(** The connection and the [try] block of [main], on the database file at
    [db_path]; a file that does not exist is created empty by
    [sqlite3.connect]. *)
Definition initialize_database (db_path : string) (w : world)
  : (exn + unit) * world * list event :=
  match databases w db_path with
  | NotADatabase =>
      (inl (OperationalError "unable to open database file"), w, [])
  | node =>
      let d := match node with DbFile d => d | _ => empty_database end in
      let '(r, d') := run_database d (now w) (engine_faults w) in
      let w1 := set_database db_path d' w in
      match r with
      | inl e => (inl e, w1, [])
      | inr (table_count, q_count, c_count) =>
          (inr tt, w1,
           [Print "Database is accessible and working.";
            Print "Database statistics:";
            Print ("  Tables: " ++ str_of_int table_count);
            Print ("  Trivia questions: " ++ str_of_int q_count);
            Print ("  Trivia choices: " ++ str_of_int c_count)])
      end
  end.

(** What [main] does after the [try] block. *)
Definition publish (used_fallback : bool) (db_path : string) (w : world)
  : (exn + unit) * world * list event :=
  let '(r, w2, out5) := _write_visualizer_env db_path w in
  match r with
  | inl e => (inl e, w2, out5)
  | inr _ =>
      let '(w3, out6) := save_connection_info used_fallback db_path w2 in
      (inr tt, w3,
       (out5 ++ out6
        ++ [Print (nl ++ "SQLite setup complete!");
            Print ("Database file: " ++ db_path);
            Print "To use the Node.js DB viewer, run: source db_visualizer/sqlite.env";
            Print (nl ++ "Script completed successfully.")])%list)
  end.

Definition main (w : world) : (exn + unit) * world * list event :=
  let out0 := [Print "Starting SQLite setup (trivia schema + seed)..."] in
  let '(db_path, used_fallback, out1) := resolve w in
  let out2 :=
    [Print (if path_exists w db_path
            then "SQLite database already exists at " ++ db_path
            else "Creating new SQLite database at " ++ db_path ++ "...")] in
  let dir :=
    if String.eqb (dirname db_path) EmptyString then "."
    else dirname db_path in
  match makedirs_error w dir with
  | Some msg => (inl (OSError msg), w, (out0 ++ out1 ++ out2)%list)
  | None =>
      let '(r, w1, out3) := initialize_database db_path w in
      match r with
      | inl e =>
          (inl e, w1, (out0 ++ out1 ++ out2 ++ [MakeDirs dir] ++ out3)%list)
      | inr _ =>
          let '(r', w3, out4) := publish used_fallback db_path w1 in
          (r', w3,
           (out0 ++ out1 ++ out2 ++ [MakeDirs dir] ++ out3 ++ out4)%list)
      end
  end.

End Script.

(** ** A program logic for connections

    Assertions speak of the committed state and of the open transaction;
    a triple gives a postcondition for a normal return and one for a raised
    exception.  The rules follow the three kinds of [execute]. *)

Module Logic.
Import Sql Conn.

Definition assertion : Type := database -> option database -> Prop.

Definition holds (P : assertion) (c : connection) : Prop :=
  P (disk c) (txn c).

Definition seen (dk : database) (tx : option database) : database :=
  match tx with Some w => w | None => dk end.

Definition triple {A : Type} (P : assertion) (m : M A)
    (Q : A -> assertion) (E : assertion) : Prop :=
  forall c, holds P c ->
    match m c with
    | (inr a, c') => holds (Q a) c'
    | (inl _, c') => holds E c'
    end.

Lemma view_seen (c : connection) : view c = seen (disk c) (txn c).
Proof. reflexivity. Qed.

Lemma triple_ret {A : Type} (a : A) (P : assertion) (Q : A -> assertion)
    (E : assertion) :
  (forall dk tx, P dk tx -> Q a dk tx) -> triple P (ret a) Q E.
Proof. intros H c Hc. cbn. apply H, Hc. Qed.

Lemma triple_raise {A : Type} (e : exn) (P : assertion) (Q : A -> assertion)
    (E : assertion) :
  (forall dk tx, P dk tx -> E dk tx) -> triple P (@raise A e) Q E.
Proof. intros H c Hc. cbn. apply H, Hc. Qed.

Lemma triple_bind {A B : Type} (m : M A) (k : A -> M B) (P : assertion)
    (Q : A -> assertion) (Q' : B -> assertion) (E : assertion) :
  triple P m Q E -> (forall a, triple (Q a) (k a) Q' E) ->
  triple P (bind m k) Q' E.
Proof.
  intros Hm Hk c Hc. unfold bind. specialize (Hm c Hc).
  destruct (m c) as [[e | a] c1]; [exact Hm |].
  apply (Hk a c1 Hm).
Qed.

Lemma triple_weaken {A : Type} (m : M A) (P P' : assertion)
    (Q Q' : A -> assertion) (E E' : assertion) :
  triple P m Q E ->
  (forall dk tx, P' dk tx -> P dk tx) ->
  (forall a dk tx, Q a dk tx -> Q' a dk tx) ->
  (forall dk tx, E dk tx -> E' dk tx) ->
  triple P' m Q' E'.
Proof.
  intros Hm HP HQ HE c Hc. specialize (Hm c (HP _ _ Hc)).
  destruct (m c) as [[e | a] c1].
  - apply HE, Hm.
  - apply HQ, Hm.
Qed.

Lemma triple_step (P : assertion) :
  triple P step_engine (fun _ => P) P.
Proof.
  intros c Hc. unfold step_engine.
  destruct (fault_after c) as [[| n] |]; exact Hc.
Qed.

Lemma triple_query {A : Type} (q : database -> exn + A) (P : assertion)
    (Q : A -> assertion) (E : assertion) :
  (forall dk tx, P dk tx -> E dk tx) ->
  (forall dk tx a, P dk tx -> q (seen dk tx) = inr a -> Q a dk tx) ->
  triple P (execute_query q) Q E.
Proof.
  intros HE HQ. unfold execute_query.
  apply triple_bind with (Q := fun _ => P).
  - apply triple_weaken with (1 := triple_step P); auto.
  - intros _ c Hc. rewrite view_seen.
    destruct (q (seen (disk c) (txn c))) as [e | a] eqn:Hq.
    + apply HE, Hc.
    + apply (HQ _ _ _ Hc Hq).
Qed.

Lemma triple_ddl (s : database -> exn + database) (P : assertion)
    (Q : assertion) (E : assertion) :
  (forall dk tx, P dk tx -> E dk tx) ->
  (forall dk w d, P dk (Some w) -> s w = inr d -> Q dk (Some d)) ->
  (forall dk d, P dk None -> s dk = inr d -> Q d None) ->
  triple P (execute_ddl s) (fun _ => Q) E.
Proof.
  intros HE Hin Hout. unfold execute_ddl.
  apply triple_bind with (Q := fun _ => P).
  - apply triple_weaken with (1 := triple_step P); auto.
  - intros _ c Hc. unfold holds in *. unfold view.
    destruct (txn c) as [w |] eqn:Htx.
    + destruct (s w) as [e | d] eqn:Hs; cbn.
      * rewrite Htx. apply HE, Hc.
      * apply (Hin _ _ _ Hc Hs).
    + destruct (s (disk c)) as [e | d] eqn:Hs; cbn.
      * rewrite Htx. apply HE, Hc.
      * apply (Hout _ _ Hc Hs).
Qed.

Lemma triple_dml (s : string -> database -> exn + database) (P : assertion)
    (Q : assertion) (E : assertion) :
  (forall dk tx, P dk tx -> E dk tx) ->
  (forall dk tx, P dk tx -> E dk (Some (seen dk tx))) ->
  (forall dk tx now d, P dk tx -> s now (seen dk tx) = inr d ->
     Q dk (Some d)) ->
  triple P (execute_dml s) (fun _ => Q) E.
Proof.
  intros HE HE' HQ. unfold execute_dml.
  apply triple_bind with (Q := fun _ => P).
  - apply triple_weaken with (1 := triple_step P); auto.
  - intros _ c Hc. unfold holds in *. rewrite view_seen.
    destruct (s (clock c) (seen (disk c) (txn c))) as [e | d] eqn:Hs; cbn.
    + apply HE', Hc.
    + apply (HQ _ _ _ _ Hc Hs).
Qed.

Lemma triple_commit (P : assertion) (Q : assertion) (E : assertion) :
  (forall dk tx, P dk tx -> Q (seen dk tx) None) ->
  triple P commit (fun _ => Q) E.
Proof. intros H c Hc. cbn. apply H, Hc. Qed.

End Logic.

(** ** What a failed run leaves in the file *)

Module Atomicity.
Import Sql Conn InitDb Logic.

(** The states the file can be in while no commit has happened: the state
    before the run, and that state after the first, or the first two,
    CREATE TABLE statements, which run before any transaction is open. *)
Definition before_commit (d0 d : database) : Prop :=
  d = d0 \/
  create_app_info d0 = inr d \/
  exists d1, create_app_info d0 = inr d1 /\ create_users d1 = inr d.

(** The file holds [K] and a transaction is open. *)
Definition in_txn (K : database -> Prop) : assertion :=
  fun dk tx => K dk /\ tx <> None.

Definition on_disk (K : database -> Prop) : assertion :=
  fun dk _ => K dk.

Lemma in_txn_query {A : Type} (K : database -> Prop)
    (q : database -> exn + A) :
  triple (in_txn K) (execute_query q) (fun _ => in_txn K) (on_disk K).
Proof. apply triple_query; unfold in_txn, on_disk; tauto. Qed.

Lemma in_txn_ddl (K : database -> Prop) (s : database -> exn + database) :
  triple (in_txn K) (execute_ddl s) (fun _ => in_txn K) (on_disk K).
Proof.
  apply triple_ddl; unfold in_txn, on_disk.
  - tauto.
  - intros dk w d [HK _] _. split; [exact HK | discriminate].
  - intros dk d [_ H]. congruence.
Qed.

Lemma begin_dml (K : database -> Prop)
    (s : string -> database -> exn + database) :
  triple (on_disk K) (execute_dml s) (fun _ => in_txn K) (on_disk K).
Proof.
  apply triple_dml; unfold in_txn, on_disk; auto.
  intros dk tx now d HK _. split; [exact HK | discriminate].
Qed.

Lemma in_txn_dml (K : database -> Prop)
    (s : string -> database -> exn + database) :
  triple (in_txn K) (execute_dml s) (fun _ => in_txn K) (on_disk K).
Proof.
  apply triple_weaken with (1 := begin_dml K s); unfold in_txn, on_disk;
    tauto.
Qed.

Lemma in_txn_insert_choices (K : database -> Prop) (qid correct_index : Z)
    (choices : list string) :
  forall idx,
    triple (in_txn K) (insert_choices qid correct_index idx choices)
      (fun _ => in_txn K) (on_disk K).
Proof.
  induction choices as [| choice_text rest IH]; intros idx; cbn.
  - apply triple_ret; auto.
  - eapply triple_bind; [apply in_txn_dml |]. intros ?. apply IH.
Qed.

Lemma in_txn_insert_question (K : database -> Prop)
    (code question_text : string) (choices : list string) (correct_index : Z)
    (category difficulty explanation : option string) :
  triple (in_txn K)
    (_insert_question_with_choices code question_text choices correct_index
       category difficulty explanation)
    (fun _ => in_txn K) (on_disk K).
Proof.
  unfold _insert_question_with_choices, _question_exists.
  apply triple_bind with (Q := fun _ => in_txn K).
  - eapply triple_bind; [apply in_txn_query |].
    intros row. apply triple_ret. intros dk tx H. exact H.
  - intros [|]; cbn beta iota.
    + apply triple_ret; auto.
    + eapply triple_bind; [apply in_txn_dml |]. intros ?.
      eapply triple_bind; [apply in_txn_query |]. intros [qid |].
      * apply in_txn_insert_choices.
      * apply triple_raise. unfold in_txn, on_disk. tauto.
Qed.

Lemma in_txn_seed_all (K : database -> Prop) (catalog : list seed_entry) :
  triple (in_txn K) (seed_all catalog) (fun _ => in_txn K) (on_disk K).
Proof.
  induction catalog as [| e rest IH]; cbn.
  - apply triple_ret; auto.
  - eapply triple_bind; [| intros ?; apply IH].
    destruct e as [[[[[[code qt] choices] ci] cat] dif] ex].
    apply in_txn_insert_question.
Qed.

Lemma in_txn_trivia_schema (K : database -> Prop) :
  triple (in_txn K) _create_trivia_schema (fun _ => in_txn K) (on_disk K).
Proof.
  unfold _create_trivia_schema.
  repeat (eapply triple_bind; [apply in_txn_ddl | intros ?]).
  apply in_txn_ddl.
Qed.

(** The two CREATE TABLE statements reach the file at once; the first
    INSERT opens the transaction. *)
Lemma base_schema_opens_txn (d0 : database) :
  triple (fun dk tx => dk = d0 /\ tx = None) _create_base_schema
    (fun _ => in_txn (before_commit d0)) (on_disk (before_commit d0)).
Proof.
  unfold _create_base_schema.
  eapply triple_bind with
    (Q := fun _ dk tx => create_app_info d0 = inr dk /\ tx = None).
  { apply triple_ddl; unfold on_disk, before_commit.
    - intros dk tx [-> _]. now left.
    - intros dk w d [_ H]. discriminate.
    - intros dk d [-> _] H. now split. }
  intros ?.
  eapply triple_bind with (Q := fun _ => on_disk (before_commit d0)).
  { apply triple_ddl; unfold on_disk, before_commit.
    - intros dk tx [H _]. right. now left.
    - intros dk w d [_ H]. discriminate.
    - intros dk d [H _] H'. right. right. now exists dk. }
  intros ?.
  eapply triple_bind; [apply begin_dml | intros ?].
  eapply triple_bind; [apply in_txn_dml | intros ?].
  apply in_txn_dml.
Qed.

Lemma initialize_before_commit (d0 : database) :
  triple (fun dk tx => dk = d0 /\ tx = None) initialize
    (fun _ _ _ => True) (on_disk (before_commit d0)).
Proof.
  unfold initialize.
  eapply triple_bind with (Q := fun _ dk tx => dk = d0 /\ tx = None).
  { apply triple_query; unfold on_disk, before_commit.
    - intros dk tx [-> _]. now left.
    - intros dk tx a H _. exact H. }
  intros ?.
  eapply triple_bind; [apply base_schema_opens_txn | intros ?].
  eapply triple_bind; [apply in_txn_trivia_schema | intros ?].
  eapply triple_bind; [apply in_txn_seed_all | intros ?].
  apply triple_commit. auto.
Qed.

Lemma connect_fresh (d : database) (now : string) (faults : option nat)
    (c : connection) :
  _connect d now faults = inr c -> disk c = d /\ txn c = None.
Proof.
  unfold _connect, execute_query, bind, step_engine. cbn.
  destruct faults as [[| n] |]; cbn; intros H; inversion H; now split.
Qed.

(** The CREATE TABLE statements add empty tables and touch nothing else:
    no state in [before_commit] differs from the initial one in any row, in
    a trivia table or in an index. *)
Lemma before_commit_rows (d0 d : database) :
  before_commit d0 d ->
  row_count (app_info d) = row_count (app_info d0) /\
  row_count (users d) = row_count (users d0) /\
  trivia_questions d = trivia_questions d0 /\
  trivia_choices d = trivia_choices d0 /\
  idx_trivia_choices_question_id d = idx_trivia_choices_question_id d0 /\
  idx_trivia_questions_category d = idx_trivia_questions_category d0.
Proof.
  assert (Happ : forall a b, create_app_info a = inr b ->
            row_count (app_info b) = row_count (app_info a) /\
            users b = users a /\
            trivia_questions b = trivia_questions a /\
            trivia_choices b = trivia_choices a /\
            idx_trivia_choices_question_id b
            = idx_trivia_choices_question_id a /\
            idx_trivia_questions_category b
            = idx_trivia_questions_category a).
  { intros a b. unfold create_app_info.
    destruct (app_info a) eqn:Ha; intros H; injection H as <-; cbn;
      rewrite ?Ha; repeat split. }
  assert (Husr : forall a b, create_users a = inr b ->
            app_info b = app_info a /\
            row_count (users b) = row_count (users a) /\
            trivia_questions b = trivia_questions a /\
            trivia_choices b = trivia_choices a /\
            idx_trivia_choices_question_id b
            = idx_trivia_choices_question_id a /\
            idx_trivia_questions_category b
            = idx_trivia_questions_category a).
  { intros a b. unfold create_users.
    destruct (users a) eqn:Ha; intros H; injection H as <-; cbn;
      rewrite ?Ha; repeat split. }
  intros [-> | [H | [d1 [H1 H2]]]].
  - repeat split.
  - destruct (Happ _ _ H) as (? & -> & ? & ? & ? & ?). repeat split; auto.
  - destruct (Happ _ _ H1) as (E1 & E2 & E3 & E4 & E5 & E6).
    destruct (Husr _ _ H2) as (F1 & F2 & F3 & F4 & F5 & F6).
    rewrite F1, F2, F3, F4, F5, F6, E2. repeat split; auto.
Qed.

(** C2, as the code has it.  When the run raises before its commit, the
    file is in its initial state, or in that state with the [app_info]
    table, or the [app_info] and [users] tables, created by the two leading
    CREATE TABLE IF NOT EXISTS statements: these run before the first INSERT
    opens the transaction and are not undone.  Every other statement of the
    run (the upserts, the trivia tables and indexes, the seeding) is part of
    the one transaction and leaves no trace. *)
Theorem failed_run_keeps_only_leading_tables (d : database) (now : string)
    (faults : option nat) :
  match run_until_commit d now faults with
  | (inl _, d') => before_commit d d'
  | (inr _, _) => True
  end.
Proof.
  unfold run_until_commit, with_connection.
  destruct (_connect d now faults) as [e | c] eqn:Hc.
  - now left.
  - apply connect_fresh in Hc.
    pose proof (initialize_before_commit d c Hc) as H.
    destruct (initialize c) as [[e | u] c']; [exact H | exact I].
Qed.

(** C2 as stated fails: on a new database file, an engine error at the
    second upsert leaves the two empty tables in the file. *)
Lemma failed_run_changes_new_database :
  run_until_commit empty_database "2026-01-01 00:00:00" (Some 5%nat)
  = (inl (OperationalError "disk I/O error"),
     mk_database (Some empty_table) (Some empty_table) None None false false)
  /\ mk_database (Some empty_table) (Some empty_table) None None false false
     <> empty_database.
Proof. split; [vm_compute; reflexivity | discriminate]. Qed.

(** The same with no engine fault: a file that holds the trivia tables and
    a choice row left without its question (rows deleted with foreign keys
    off), but no [users] table.  The first choice of GEN_001 violates
    UNIQUE (question_id, choice_order); the [users] table stays. *)
Example failed_run_with_constraint_violation :
  let orphan := mk_choice 1 1 "Berlin" 0 0 "2025-01-01 00:00:00" in
  let d0 := mk_database (Some empty_table) None (Some empty_table)
              (Some (mk_table [orphan] 1)) true true in
  run_until_commit d0 "2026-01-01 00:00:00" None
  = (inl (IntegrityError
      "UNIQUE constraint failed: trivia_choices.question_id, trivia_choices.choice_order"),
     set_users empty_table d0).
Proof. vm_compute. reflexivity. Qed.

End Atomicity.

(** ** The seed reconciler on one entry *)

Module Seeding.
Import Sql Conn InitDb Logic.

Definition question_rows (d : database) : list question_row :=
  match trivia_questions d with Some t => rows t | None => [] end.

Definition choice_rows (d : database) : list choice_row :=
  match trivia_choices d with Some t => rows t | None => [] end.

(** A question row with this code exists. *)
Definition code_exists (code : string) (d : database) : bool :=
  existsb (has_code code) (question_rows d).

Definition questions_with_code (code : string) (d : database)
  : list question_row :=
  filter (has_code code) (question_rows d).

(** The choice rows of a question, in rowid order. *)
Definition children (qid : Z) (d : database) : list choice_row :=
  filter (fun r => c_question_id r =? qid) (choice_rows d).

(** C4.  When a question row with the entry's code exists, the seeder for
    that entry returns after its SELECT: the committed state and the open
    transaction are what they were (no row of any table is inserted or
    changed, so no second row with the code appears), and unless the engine
    refuses the SELECT itself the call returns normally. *)
Theorem existing_code_is_skipped (c : connection)
    (code question_text : string) (choices : list string) (correct_index : Z)
    (category difficulty explanation : option string) :
  code_exists code (view c) = true ->
  let r := _insert_question_with_choices code question_text choices
             correct_index category difficulty explanation c in
  disk (snd r) = disk c /\ txn (snd r) = txn c /\
  view (snd r) = view c /\
  questions_with_code code (view (snd r)) = questions_with_code code (view c)
  /\ (fault_after c <> Some 0%nat -> fst r = inr tt).
Proof.
  unfold code_exists, question_rows. intros H.
  unfold _insert_question_with_choices, _question_exists, execute_query,
    bind, step_engine, select_1_by_code.
  destruct (fault_after c) as [[| n] |] eqn:Hf; cbn.
  - repeat split; congruence.
  - change (view (mk_connection (disk c) (txn c) (clock c) (Some n)))
      with (view c).
    destruct (trivia_questions (view c)) as [t |]; [| discriminate].
    rewrite H. cbn. repeat split.
  - destruct (trivia_questions (view c)) as [t |]; [| discriminate].
    rewrite H. cbn. repeat split.
Qed.

Lemma existing_code_is_skipped_witness :
  let c := mk_connection
             (snd (run_database empty_database "2026-01-01 00:00:00" None))
             None "2026-02-02 00:00:00" None in
  code_exists "GEN_001" (view c) = true /\
  disk (snd (_insert_question_with_choices "GEN_001" "Another text"
               ["a"; "b"] 1 None None None c)) = disk c.
Proof.
  intros c.
  assert (H : code_exists "GEN_001" (view c) = true)
    by (vm_compute; reflexivity).
  split; [exact H |].
  exact (proj1 (existing_code_is_skipped c "GEN_001" "Another text"
                  ["a"; "b"] 1 None None None H)).
Defined.

(** What the catalog says of the choices of an entry with [n] choices:
    the orders 0..n-1, and the flag of each position. *)
Definition expected_orders (n : nat) : list Z :=
  map Z.of_nat (List.seq 0 n).

Definition expected_flags (correct_index : Z) (n : nat) : list Z :=
  map (fun i => if Z.of_nat i =? correct_index then 1 else 0) (List.seq 0 n).

(** The entry is in the database as the catalog has it: one question row
    with its code; the children of that row, in rowid order, carry the
    orders 0..n-1, the choice texts in catalog order and the flags of the
    catalog; the children whose flag is set are one row, the one whose
    order is the correct index. *)
Definition entry_seeded (e : seed_entry) (d : database) : Prop :=
  let '(code, _, choices, correct_index, _, _, _) := e in
  exists q,
    questions_with_code code d = [q] /\
    map c_choice_order (children (q_id q) d)
    = expected_orders (List.length choices) /\
    map c_choice_text (children (q_id q) d) = choices /\
    map c_is_correct (children (q_id q) d)
    = expected_flags correct_index (List.length choices) /\
    map c_choice_order
      (filter (fun r => negb (c_is_correct r =? 0)) (children (q_id q) d))
    = [correct_index].

(** C3.  On an empty database the run succeeds, reports 4 tables,
    6 questions and 24 choices, and every entry of the seed catalog is in
    the database as the catalog has it. *)
Theorem catalog_seeded_on_empty_database (now : string) :
  exists d,
    run_database empty_database now None = (inr (4, 6, 24), d) /\
    Forall (fun e => entry_seeded e d) starter_questions.
Proof.
  eexists. split; [vm_compute; reflexivity |].
  unfold starter_questions.
  repeat (apply Forall_cons;
          [ eexists; split; [vm_compute; reflexivity |];
            vm_compute; repeat split | ]).
  apply Forall_nil.
Qed.

End Seeding.

(** ** Running the initialisation twice *)

Module Idempotence.
Import Sql Conn InitDb Logic Seeding.

(** The content of [app_info] that does not depend on the run: the keys
    and their values, in rowid order. *)
Definition key_value (r : app_info_row) : string * option string :=
  (ai_key r, ai_value r).

Definition key_values (d : database) : list (string * option string) :=
  match app_info d with Some t => map key_value (rows t) | None => [] end.

Definition has_key (k : string) (p : string * option string) : bool :=
  String.eqb (fst p) k.

(** The key [k] is held by one row, with value [v]. *)
Definition holds_once (k v : string) (d : database) : Prop :=
  filter (has_key k) (key_values d) = [(k, Some v)].

Definition metadata_written (d : database) : Prop :=
  holds_once "project_name" "interactive-trivia-challenge" d /\
  holds_once "version" "0.2.0" d /\
  holds_once "description"
    "SQLite DB for interactive trivia questions and sessions." d.

Definition code_of (e : seed_entry) : string :=
  let '(code, _, _, _, _, _, _) := e in code.

(** What a successful run establishes. *)
Definition initialized (d : database) : Prop :=
  metadata_written d /\
  users d <> None /\
  trivia_questions d <> None /\
  trivia_choices d <> None /\
  idx_trivia_choices_question_id d = true /\
  idx_trivia_questions_category d = true /\
  forall e, In e starter_questions -> code_exists (code_of e) d = true.

(** [d'] has what [d] has, and the same [app_info]: tables and indexes stay,
    question codes stay. *)
Definition extends (d d' : database) : Prop :=
  app_info d' = app_info d /\
  (users d <> None -> users d' <> None) /\
  (trivia_questions d <> None -> trivia_questions d' <> None) /\
  (trivia_choices d <> None -> trivia_choices d' <> None) /\
  (idx_trivia_choices_question_id d = true ->
   idx_trivia_choices_question_id d' = true) /\
  (idx_trivia_questions_category d = true ->
   idx_trivia_questions_category d' = true) /\
  (forall code, code_exists code d = true -> code_exists code d' = true).

(** Triples that speak of the database as the statements see it, and say
    nothing of a raised exception. *)
Definition sees {A : Type} (P : database -> Prop) (m : M A)
    (Q : A -> database -> Prop) : Prop :=
  triple (fun dk tx => P (seen dk tx)) m
    (fun a dk tx => Q a (seen dk tx)) (fun _ _ => True).

Lemma sees_ret {A : Type} (a : A) (P : database -> Prop)
    (Q : A -> database -> Prop) :
  (forall d, P d -> Q a d) -> sees P (ret a) Q.
Proof. intros H. apply triple_ret. intros dk tx. apply H. Qed.

Lemma sees_raise {A : Type} (e : exn) (P : database -> Prop)
    (Q : A -> database -> Prop) :
  sees P (@raise A e) Q.
Proof. apply triple_raise. auto. Qed.

Lemma sees_bind {A B : Type} (m : M A) (k : A -> M B) (P : database -> Prop)
    (Q : A -> database -> Prop) (Q' : B -> database -> Prop) :
  sees P m Q -> (forall a, sees (Q a) (k a) Q') -> sees P (bind m k) Q'.
Proof. intros Hm Hk. eapply triple_bind; [exact Hm | exact Hk]. Qed.

Lemma sees_weaken {A : Type} (m : M A) (P P' : database -> Prop)
    (Q Q' : A -> database -> Prop) :
  sees P m Q -> (forall d, P' d -> P d) -> (forall a d, Q a d -> Q' a d) ->
  sees P' m Q'.
Proof.
  intros Hm HP HQ. eapply triple_weaken; [exact Hm | | | ]; cbn; auto.
Qed.

Lemma sees_query {A : Type} (q : database -> exn + A) (P : database -> Prop)
    (Q : A -> database -> Prop) :
  (forall d a, P d -> q d = inr a -> Q a d) -> sees P (execute_query q) Q.
Proof.
  intros H. apply triple_query; [auto |].
  intros dk tx a HP Hq. apply (H _ _ HP Hq).
Qed.

Lemma sees_ddl (s : database -> exn + database) (P Q : database -> Prop) :
  (forall d d', P d -> s d = inr d' -> Q d') ->
  sees P (execute_ddl s) (fun _ => Q).
Proof.
  intros H. unfold sees.
  apply (triple_ddl s _ (fun dk tx => Q (seen dk tx))); [auto | |]; cbn.
  - intros dk w d HP Hs. apply (H _ _ HP Hs).
  - intros dk d HP Hs. apply (H _ _ HP Hs).
Qed.

Lemma sees_dml (s : string -> database -> exn + database)
    (P Q : database -> Prop) :
  (forall now d d', P d -> s now d = inr d' -> Q d') ->
  sees P (execute_dml s) (fun _ => Q).
Proof.
  intros H. unfold sees.
  apply (triple_dml s _ (fun dk tx => Q (seen dk tx))); [auto | auto |]; cbn.
  intros dk tx now d HP Hs. apply (H _ _ _ HP Hs).
Qed.

Lemma sees_commit (P : database -> Prop) : sees P commit (fun _ => P).
Proof.
  unfold sees. apply (triple_commit _ (fun dk tx => P (seen dk tx))).
  cbn. auto.
Qed.

(** *** What each statement does to the facts above *)

Lemma extends_refl (d : database) : extends d d.
Proof. unfold extends. tauto. Qed.

Lemma extends_trans (d1 d2 d3 : database) :
  extends d1 d2 -> extends d2 d3 -> extends d1 d3.
Proof.
  unfold extends.
  intros (A1 & B1 & C1 & D1 & E1 & F1 & G1) (A2 & B2 & C2 & D2 & E2 & F2 & G2).
  repeat split; auto. congruence.
Qed.

Lemma code_exists_app (code : string) (t : table question_row)
    (r : question_row) (id : Z) (d : database) :
  trivia_questions d = Some t ->
  code_exists code d = true ->
  code_exists code (set_trivia_questions (mk_table (rows t ++ [r]) id) d)
  = true.
Proof.
  unfold code_exists, question_rows. intros ->. cbn. intros H.
  rewrite existsb_app, H. reflexivity.
Qed.

Ltac invert_statement H :=
  repeat match type of H with
         | context [match ?x with _ => _ end] =>
             let E := fresh "E" in destruct x eqn:E; try discriminate H
         end;
  injection H as <-.

Lemma create_trivia_questions_extends (d d' : database) :
  create_trivia_questions d = inr d' ->
  extends d d' /\ trivia_questions d' <> None.
Proof.
  unfold create_trivia_questions. intros H. invert_statement H.
  - split; [apply extends_refl | congruence].
  - unfold extends, code_exists, question_rows. cbn. rewrite E. cbn.
    repeat split; auto; discriminate.
Qed.

Lemma create_trivia_choices_extends (d d' : database) :
  create_trivia_choices d = inr d' ->
  extends d d' /\ trivia_choices d' <> None.
Proof.
  unfold create_trivia_choices. intros H. invert_statement H.
  - split; [apply extends_refl | congruence].
  - unfold extends, code_exists, question_rows. cbn.
    repeat split; auto; discriminate.
Qed.

Lemma create_idx_choices_extends (d d' : database) :
  create_idx_choices d = inr d' ->
  extends d d' /\ idx_trivia_choices_question_id d' = true.
Proof.
  unfold create_idx_choices. intros H. invert_statement H.
  - split; [apply extends_refl | assumption].
  - unfold extends, code_exists, question_rows. cbn. repeat split; auto.
Qed.

Lemma create_idx_category_extends (d d' : database) :
  create_idx_category d = inr d' ->
  extends d d' /\ idx_trivia_questions_category d' = true.
Proof.
  unfold create_idx_category. intros H. invert_statement H.
  - split; [apply extends_refl | assumption].
  - unfold extends, code_exists, question_rows. cbn. repeat split; auto.
Qed.

Lemma insert_question_extends (code question_text : string)
    (category difficulty explanation : option string) (now : string)
    (d d' : database) :
  insert_question code question_text category difficulty explanation now d
  = inr d' ->
  extends d d' /\ code_exists code d' = true.
Proof.
  unfold insert_question. intros H. invert_statement H. split.
  - unfold extends. repeat split; try (cbn; auto; discriminate).
    intros c Hc. now apply code_exists_app.
  - unfold code_exists, question_rows, has_code. cbn.
    rewrite existsb_app. cbn. rewrite String.eqb_refl.
    now rewrite orb_true_r.
Qed.

Lemma insert_choice_extends (question_id : Z) (choice_text : string)
    (choice_order is_correct : Z) (now : string) (d d' : database) :
  insert_choice question_id choice_text choice_order is_correct now d
  = inr d' ->
  extends d d'.
Proof.
  unfold insert_choice. intros H. invert_statement H.
  unfold extends, code_exists, question_rows. cbn.
  repeat split; auto; discriminate.
Qed.

(** Facts that survive every statement under which the database grows. *)
Definition upward (K : database -> Prop) : Prop :=
  forall d d', K d -> extends d d' -> K d'.

Lemma upward_and (K F : database -> Prop) :
  upward K -> upward F -> upward (fun d => K d /\ F d).
Proof. intros HK HF d d' [H1 H2] He. split; eauto. Qed.

Lemma upward_extends (d0 : database) : upward (extends d0).
Proof. intros d d'. apply extends_trans. Qed.

Lemma upward_code (code : string) :
  upward (fun d => code_exists code d = true).
Proof. intros d d' H He. now apply He. Qed.

Lemma upward_trivia_questions : upward (fun d => trivia_questions d <> None).
Proof. intros d d' H He. now apply He. Qed.

Lemma upward_trivia_choices : upward (fun d => trivia_choices d <> None).
Proof. intros d d' H He. now apply He. Qed.

Lemma upward_idx_choices :
  upward (fun d => idx_trivia_choices_question_id d = true).
Proof. intros d d' H He. now apply He. Qed.

Lemma upward_idx_category :
  upward (fun d => idx_trivia_questions_category d = true).
Proof. intros d d' H He. now apply He. Qed.

Lemma upward_base :
  upward (fun d => metadata_written d /\ users d <> None).
Proof.
  intros d d' [Hm Hu] He. split; [| now apply He].
  destruct He as [Ha _]. unfold metadata_written, holds_once, key_values in *.
  now rewrite Ha.
Qed.

Create HintDb upward.

#[local] Hint Resolve upward_and upward_extends upward_code
  upward_trivia_questions upward_trivia_choices upward_idx_choices
  upward_idx_category upward_base : upward.

Lemma sees_ddl_upward (s : database -> exn + database)
    (K F : database -> Prop) :
  upward K ->
  (forall d d', s d = inr d' -> extends d d' /\ F d') ->
  sees K (execute_ddl s) (fun _ d => K d /\ F d).
Proof.
  intros HK Hs. apply sees_ddl. intros d d' Hd H.
  destruct (Hs _ _ H) as [He HF]. split; [eapply HK; eauto | exact HF].
Qed.

Lemma sees_dml_upward (s : string -> database -> exn + database)
    (K F : database -> Prop) :
  upward K ->
  (forall now d d', s now d = inr d' -> extends d d' /\ F d') ->
  sees K (execute_dml s) (fun _ d => K d /\ F d).
Proof.
  intros HK Hs. apply sees_dml. intros now d d' Hd H.
  destruct (Hs _ _ _ H) as [He HF]. split; [eapply HK; eauto | exact HF].
Qed.

Lemma insert_choices_upward (K : database -> Prop) (qid correct_index : Z)
    (choices : list string) :
  upward K ->
  forall idx,
    sees K (insert_choices qid correct_index idx choices) (fun _ => K).
Proof.
  intros HK. induction choices as [| choice_text rest IH]; intros idx; cbn.
  - apply sees_ret. auto.
  - eapply sees_bind with (Q := fun _ => K); [| intros ?; apply IH].
    eapply sees_weaken.
    + apply (sees_dml_upward _ K (fun _ => True) HK).
      intros now d d' H. split; [| exact I].
      eapply insert_choice_extends, H.
    + auto.
    + cbn. tauto.
Qed.

Lemma select_1_found (code : string) (d : database) (row : option Z) :
  select_1_by_code code d = inr row ->
  is_some row = code_exists code d.
Proof.
  unfold select_1_by_code, code_exists, question_rows.
  destruct (trivia_questions d) as [t |]; [| discriminate].
  intros H. injection H as <-.
  now destruct (existsb (has_code code) (rows t)).
Qed.

(** The seeder for one entry: whichever branch it takes, a question row
    with the code exists afterwards. *)
Lemma insert_question_with_choices_upward (K : database -> Prop)
    (code question_text : string) (choices : list string) (correct_index : Z)
    (category difficulty explanation : option string) :
  upward K ->
  sees K
    (_insert_question_with_choices code question_text choices correct_index
       category difficulty explanation)
    (fun _ d => K d /\ code_exists code d = true).
Proof.
  intros HK. unfold _insert_question_with_choices, _question_exists.
  apply sees_bind with
    (Q := fun found d => K d /\ found = code_exists code d).
  - eapply sees_bind with
      (Q := fun row d => K d /\ is_some row = code_exists code d).
    + apply sees_query. intros d row Hd Hq. split; [exact Hd |].
      now apply select_1_found.
    + intros row. apply sees_ret. auto.
  - intros [|].
    + apply sees_ret. intros d [Hd Hc]. now split.
    + apply sees_bind with
        (Q := fun _ d => K d /\ code_exists code d = true).
      * eapply sees_weaken.
        -- apply (sees_dml_upward _ K
                    (fun d => code_exists code d = true) HK).
           intros now d d'. apply insert_question_extends.
        -- cbn. tauto.
        -- cbn. tauto.
      * intros ?.
        apply sees_bind with
          (Q := fun _ d => K d /\ code_exists code d = true).
        -- apply sees_query. auto.
        -- intros [qid |].
           ++ apply insert_choices_upward. auto with upward.
           ++ apply sees_raise.
Qed.

Lemma seed_all_upward (K : database -> Prop) (catalog : list seed_entry) :
  upward K ->
  sees K (seed_all catalog)
    (fun _ d => K d /\
                forall e, In e catalog -> code_exists (code_of e) d = true).
Proof.
  revert K. induction catalog as [| e rest IH]; intros K HK; cbn.
  - apply sees_ret. intros d Hd. split; [exact Hd | contradiction].
  - apply sees_bind with
      (Q := fun _ d => K d /\ code_exists (code_of e) d = true).
    + destruct e as [[[[[[code qt] choices] ci] cat] dif] ex]. cbn.
      now apply insert_question_with_choices_upward.
    + intros ?. eapply sees_weaken.
      * apply (IH (fun d => K d /\ code_exists (code_of e) d = true)).
        auto with upward.
      * auto.
      * cbn. intros _ d [[Hd He] Hr]. split; [exact Hd |].
        intros e' [<- | Hin]; auto.
Qed.

Lemma trivia_schema_upward (K : database -> Prop) :
  upward K ->
  sees K _create_trivia_schema
    (fun _ d => K d /\
                trivia_questions d <> None /\
                trivia_choices d <> None /\
                idx_trivia_choices_question_id d = true /\
                idx_trivia_questions_category d = true).
Proof.
  intros HK. unfold _create_trivia_schema.
  eapply sees_bind;
    [apply (sees_ddl_upward _ _ _ HK create_trivia_questions_extends) |].
  intros ?.
  eapply sees_bind;
    [apply (sees_ddl_upward create_trivia_choices _
              (fun d => trivia_choices d <> None));
     [auto with upward | apply create_trivia_choices_extends] |].
  intros ?.
  eapply sees_bind;
    [apply (sees_ddl_upward create_idx_choices _
              (fun d => idx_trivia_choices_question_id d = true));
     [auto with upward | apply create_idx_choices_extends] |].
  intros ?.
  eapply sees_weaken;
    [apply (sees_ddl_upward create_idx_category
              (fun d => ((K d /\ trivia_questions d <> None) /\
                         trivia_choices d <> None) /\
                        idx_trivia_choices_question_id d = true)
              (fun d => idx_trivia_questions_category d = true));
     [auto 6 with upward | apply create_idx_category_extends] | auto |].
  cbn. tauto.
Qed.

(** *** The upserts of [_create_base_schema] *)

Lemma key_values_filter (k : string) (l : list app_info_row) :
  map key_value (filter (fun r => negb (String.eqb (ai_key r) k)) l)
  = filter (fun p => negb (has_key k p)) (map key_value l).
Proof.
  induction l as [| r l IH]; cbn; [reflexivity |].
  unfold has_key at 1. cbn.
  destruct (String.eqb (ai_key r) k); cbn; now rewrite IH.
Qed.

(** An upsert moves the key to the end of the table with the value written
    and leaves every other table and index alone. *)
Lemma upsert_key_values (k v now : string) (d d' : database) :
  insert_or_replace_app_info k (Some v) now d = inr d' ->
  key_values d'
  = (filter (fun p => negb (has_key k p)) (key_values d)
     ++ [(k, Some v)])%list /\
  users d' = users d /\
  trivia_questions d' = trivia_questions d /\
  trivia_choices d' = trivia_choices d /\
  idx_trivia_choices_question_id d' = idx_trivia_choices_question_id d /\
  idx_trivia_questions_category d' = idx_trivia_questions_category d.
Proof.
  unfold insert_or_replace_app_info. intros H. invert_statement H.
  unfold key_values. rewrite E. cbn.
  rewrite map_app, key_values_filter. cbn. repeat split.
Qed.

Lemma filter_none {A : Type} (f : A -> bool) (l : list A) :
  filter f (filter (fun x => negb (f x)) l) = [].
Proof.
  induction l as [| x l IH]; cbn; [reflexivity |].
  destruct (f x) eqn:Hx; cbn; [exact IH | now rewrite Hx].
Qed.

Lemma filter_other {A : Type} (f g : A -> bool) (l : list A) :
  (forall x, f x = true -> g x = false) ->
  filter f (filter (fun x => negb (g x)) l) = filter f l.
Proof.
  intros H. induction l as [| x l IH]; cbn; [reflexivity |].
  destruct (g x) eqn:Hg; cbn.
  - destruct (f x) eqn:Hf; [| exact IH]. rewrite (H _ Hf) in Hg.
    discriminate.
  - now rewrite IH.
Qed.

Lemma has_key_other (k k2 : string) (p : string * option string) :
  k2 <> k -> has_key k2 p = true -> has_key k p = false.
Proof.
  unfold has_key. intros Hne H. apply String.eqb_eq in H.
  apply String.eqb_neq. congruence.
Qed.

Lemma upsert_holds (k v now : string) (d d' : database) :
  insert_or_replace_app_info k (Some v) now d = inr d' ->
  holds_once k v d'.
Proof.
  intros H. apply upsert_key_values in H. destruct H as [H _].
  unfold holds_once. rewrite H, filter_app, filter_none. cbn.
  unfold has_key. cbn. now rewrite String.eqb_refl.
Qed.

Lemma upsert_keeps (k v now k2 v2 : string) (d d' : database) :
  k2 <> k ->
  insert_or_replace_app_info k (Some v) now d = inr d' ->
  holds_once k2 v2 d -> holds_once k2 v2 d'.
Proof.
  intros Hne H. apply upsert_key_values in H. destruct H as [H _].
  assert (Hk : has_key k2 (k, Some v) = false).
  { unfold has_key. cbn. apply String.eqb_neq. congruence. }
  unfold holds_once. rewrite H, filter_app.
  change (filter (has_key k2) [(k, Some v)])
    with (if has_key k2 (k, Some v) then [(k, Some v)] else []).
  rewrite Hk, app_nil_r, filter_other; [auto |].
  intros p. now apply has_key_other.
Qed.

Lemma create_users_exists (d d' : database) :
  create_users d = inr d' -> users d' <> None.
Proof.
  unfold create_users. intros H. invert_statement H; cbn; congruence.
Qed.

Lemma base_schema_sees :
  sees (fun _ => True) _create_base_schema
    (fun _ d => metadata_written d /\ users d <> None).
Proof.
  unfold _create_base_schema, metadata_written.
  eapply sees_bind with (Q := fun _ _ => True);
    [apply sees_ddl; auto | intros ?].
  eapply sees_bind with (Q := fun _ d => users d <> None);
    [apply sees_ddl; intros d d' _; apply create_users_exists | intros ?].
  eapply sees_bind with
    (Q := fun _ d => users d <> None /\
                     holds_once "project_name"
                       "interactive-trivia-challenge" d).
  { apply sees_dml. intros now d d' Hu H. split.
    - destruct (upsert_key_values _ _ _ _ _ H) as (_ & -> & _). exact Hu.
    - eapply upsert_holds, H. }
  intros ?.
  eapply sees_bind with
    (Q := fun _ d => users d <> None /\
                     holds_once "project_name"
                       "interactive-trivia-challenge" d /\
                     holds_once "version" "0.2.0" d).
  { apply sees_dml. intros now d d' [Hu H1] H. repeat split.
    - destruct (upsert_key_values _ _ _ _ _ H) as (_ & -> & _). exact Hu.
    - eapply upsert_keeps; [| exact H | exact H1]. discriminate.
    - eapply upsert_holds, H. }
  intros ?.
  apply sees_dml. intros now d d' (Hu & H1 & H2) H. repeat split.
  - eapply upsert_keeps; [| exact H | exact H1]. discriminate.
  - eapply upsert_keeps; [| exact H | exact H2]. discriminate.
  - eapply upsert_holds, H.
  - destruct (upsert_key_values _ _ _ _ _ H) as (_ & -> & _). exact Hu.
Qed.

(** A run that reaches its commit leaves an initialized database in the
    file, and no transaction open. *)
Lemma initialize_establishes :
  triple (fun _ _ => True) initialize
    (fun _ dk tx => initialized dk /\ tx = None) (fun _ _ => True).
Proof.
  unfold initialize.
  eapply triple_bind with (Q := fun _ _ _ => True).
  { apply triple_query; auto. }
  intros ?.
  eapply triple_bind; [apply base_schema_sees | intros ?].
  eapply triple_bind;
    [apply (trivia_schema_upward
              (fun d => metadata_written d /\ users d <> None));
     auto with upward | intros ?].
  eapply triple_bind;
    [apply (seed_all_upward
              (fun d => (metadata_written d /\ users d <> None) /\
                        trivia_questions d <> None /\
                        trivia_choices d <> None /\
                        idx_trivia_choices_question_id d = true /\
                        idx_trivia_questions_category d = true)
              starter_questions); auto 7 with upward
    | intros ?].
  apply triple_commit. cbn. intros dk tx H. unfold initialized. tauto.
Qed.

Lemma statistics_read_only (P E : assertion) :
  (forall dk tx, P dk tx -> E dk tx) ->
  triple P statistics (fun _ => P) E.
Proof.
  intros HE. unfold statistics.
  eapply triple_bind with (Q := fun _ => P); [apply triple_query; auto |].
  intros ?.
  eapply triple_bind with (Q := fun _ => P); [apply triple_query; auto |].
  intros ?.
  eapply triple_bind with (Q := fun _ => P); [apply triple_query; auto |].
  intros ?. apply triple_ret. auto.
Qed.

Lemma successful_run_initializes (d0 : database) (now : string)
    (faults : option nat) (stats : Z * Z * Z) (d1 : database) :
  run_database d0 now faults = (inr stats, d1) -> initialized d1.
Proof.
  unfold run_database, with_connection.
  destruct (_connect d0 now faults) as [e | c]; [discriminate |].
  assert (T : triple (fun _ _ => True) (initialize ;; statistics)
                (fun _ dk tx => initialized dk /\ tx = None)
                (fun _ _ => True)).
  { eapply triple_bind; [apply initialize_establishes | intros ?].
    apply statistics_read_only. auto. }
  specialize (T c I).
  destruct ((initialize ;; statistics) c) as [[e | s] c'];
    intros H; inversion H; subst.
  apply T.
Qed.

(** *** The second run *)

(** [d] has the rows of [d1] in [users], [trivia_questions] and
    [trivia_choices], the same indexes, and in [app_info] the same keys
    with the same values, each as often. *)
Definition same_content (d1 d : database) : Prop :=
  users d = users d1 /\
  trivia_questions d = trivia_questions d1 /\
  trivia_choices d = trivia_choices d1 /\
  idx_trivia_choices_question_id d = idx_trivia_choices_question_id d1 /\
  idx_trivia_questions_category d = idx_trivia_questions_category d1 /\
  app_info d <> None /\
  Permutation (key_values d) (key_values d1).

Lemma filter_split {A : Type} (f : A -> bool) (l : list A) :
  Permutation (filter (fun x => negb (f x)) l ++ filter f l) l.
Proof.
  induction l as [| x l IH]; cbn; [constructor |].
  destruct (f x); cbn.
  - apply Permutation_sym, Permutation_cons_app, Permutation_sym, IH.
  - now constructor.
Qed.

Lemma filter_perm {A : Type} (f : A -> bool) (l l' : list A) :
  Permutation l l' -> Permutation (filter f l) (filter f l').
Proof.
  induction 1 as [| x l l' _ IH | x y l | l l' l'' _ IH1 _ IH2]; cbn.
  - constructor.
  - destruct (f x); [now constructor | exact IH].
  - destruct (f x), (f y); try apply Permutation_refl. apply perm_swap.
  - eapply Permutation_trans; eauto.
Qed.

Lemma holds_once_perm (k v : string) (d d' : database) :
  Permutation (key_values d') (key_values d) ->
  holds_once k v d -> holds_once k v d'.
Proof.
  unfold holds_once. intros Hp H.
  pose proof (filter_perm (has_key k) _ _ Hp) as Hf.
  rewrite H in Hf. apply Permutation_sym in Hf.
  now apply Permutation_length_1_inv in Hf.
Qed.

Lemma holds_once_app_info (k v : string) (d : database) :
  holds_once k v d -> app_info d <> None.
Proof.
  unfold holds_once, key_values.
  destruct (app_info d); [discriminate | cbn; discriminate].
Qed.

Section SecondRun.

Variable d1 : database.
Hypothesis d1_initialized : initialized d1.

Lemma same_content_refl : same_content d1 d1.
Proof.
  unfold same_content. repeat split; auto.
  destruct d1_initialized as [[H _] _]. eapply holds_once_app_info, H.
Qed.

(** The file and the open transaction both have the content of [d1]. *)
Definition unchanged : assertion :=
  fun dk tx => same_content d1 dk /\ same_content d1 (seen dk tx).

Definition file_unchanged : assertion :=
  fun dk _ => same_content d1 dk.

Lemma unchanged_query {A : Type} (q : database -> exn + A) :
  triple unchanged (execute_query q) (fun _ => unchanged) file_unchanged.
Proof. apply triple_query; unfold unchanged, file_unchanged; tauto. Qed.

(** A CREATE ... IF NOT EXISTS of something that exists. *)
Lemma unchanged_ddl (s : database -> exn + database) :
  (forall d d', same_content d1 d -> s d = inr d' -> d' = d) ->
  triple unchanged (execute_ddl s) (fun _ => unchanged) file_unchanged.
Proof.
  intros Hs. apply triple_ddl; unfold unchanged, file_unchanged; cbn.
  - tauto.
  - intros dk w d [H1 H2] H. now rewrite (Hs _ _ H2 H).
  - intros dk d [H1 H2] H. now rewrite (Hs _ _ H2 H).
Qed.

Lemma unchanged_dml (s : string -> database -> exn + database) :
  (forall now d d', same_content d1 d -> s now d = inr d' ->
     same_content d1 d') ->
  triple unchanged (execute_dml s) (fun _ => unchanged) file_unchanged.
Proof.
  intros Hs. apply triple_dml; unfold unchanged, file_unchanged; cbn.
  - tauto.
  - tauto.
  - intros dk tx now d [H1 H2] H. split; [exact H1 |]. eapply Hs; eauto.
Qed.

Lemma upsert_same_content (k v now : string) (d d' : database) :
  holds_once k v d1 ->
  same_content d1 d ->
  insert_or_replace_app_info k (Some v) now d = inr d' ->
  same_content d1 d'.
Proof.
  intros Hk (Hu & Hq & Hc & Hi & Hj & Ha & Hp) H.
  pose proof (upsert_holds _ _ _ _ _ H) as Hd'.
  apply upsert_key_values in H. unfold same_content.
  destruct H as (Hkv & -> & -> & -> & -> & ->).
  repeat split; auto.
  - eapply holds_once_app_info, Hd'.
  - rewrite Hkv. apply (holds_once_perm k v d1 d Hp) in Hk.
    unfold holds_once in Hk. rewrite <- Hk.
    eapply Permutation_trans; [apply filter_split | exact Hp].
Qed.

Lemma base_schema_unchanged :
  triple unchanged _create_base_schema (fun _ => unchanged) file_unchanged.
Proof.
  destruct d1_initialized as ((H1 & H2 & H3) & Hu & _).
  unfold _create_base_schema.
  eapply triple_bind.
  { apply unchanged_ddl. intros d d' (_ & _ & _ & _ & _ & Ha & _).
    unfold create_app_info. destruct (app_info d); congruence. }
  intros ?. eapply triple_bind.
  { apply unchanged_ddl. intros d d' (Hd & _).
    unfold create_users. rewrite Hd. destruct (users d1); congruence. }
  intros ?. eapply triple_bind.
  { apply unchanged_dml. intros now d d'. now apply upsert_same_content. }
  intros ?. eapply triple_bind.
  { apply unchanged_dml. intros now d d'. now apply upsert_same_content. }
  intros ?.
  apply unchanged_dml. intros now d d'. now apply upsert_same_content.
Qed.

Lemma trivia_schema_unchanged :
  triple unchanged _create_trivia_schema (fun _ => unchanged) file_unchanged.
Proof.
  destruct d1_initialized as (_ & _ & Hq & Hc & Hi & Hj & _).
  unfold _create_trivia_schema.
  eapply triple_bind.
  { apply unchanged_ddl. intros d d' (_ & Hd & _).
    unfold create_trivia_questions. rewrite Hd.
    destruct (trivia_questions d1); congruence. }
  intros ?. eapply triple_bind.
  { apply unchanged_ddl. intros d d' (_ & _ & Hd & _).
    unfold create_trivia_choices. rewrite Hd.
    destruct (trivia_choices d1); congruence. }
  intros ?. eapply triple_bind.
  { apply unchanged_ddl. intros d d' (_ & _ & _ & Hd & _).
    unfold create_idx_choices. rewrite Hd, Hi. congruence. }
  intros ?.
  apply unchanged_ddl. intros d d' (_ & _ & _ & _ & Hd & _).
  unfold create_idx_category. rewrite Hd, Hj. congruence.
Qed.

(** Every entry of the catalog is found and skipped. *)
Lemma seed_one_unchanged (e : seed_entry) :
  In e starter_questions ->
  triple unchanged (seed_one e) (fun _ => unchanged) file_unchanged.
Proof.
  intros Hin.
  destruct d1_initialized as (_ & _ & _ & _ & _ & _ & Hcat).
  specialize (Hcat e Hin).
  destruct e as [[[[[[code qt] choices] ci] cat] dif] ex]. cbn in *.
  unfold _insert_question_with_choices, _question_exists.
  apply triple_bind with
    (Q := fun found dk tx => unchanged dk tx /\ found = true).
  - eapply triple_bind with
      (Q := fun row dk tx => unchanged dk tx /\ is_some row = true).
    + apply triple_query; unfold unchanged, file_unchanged; [tauto |].
      intros dk tx row [H1 H2] Hq. split; [now split |].
      rewrite (select_1_found _ _ _ Hq).
      destruct H2 as (_ & Hd & _).
      unfold code_exists, question_rows in *. now rewrite Hd.
    + intros row. apply triple_ret. auto.
  - intros [|].
    + apply triple_ret. tauto.
    + intros c [_ H]. discriminate.
Qed.

Lemma seed_all_unchanged (catalog : list seed_entry) :
  incl catalog starter_questions ->
  triple unchanged (seed_all catalog) (fun _ => unchanged) file_unchanged.
Proof.
  induction catalog as [| e rest IH]; intros Hincl; cbn.
  - apply triple_ret. auto.
  - eapply triple_bind.
    + apply seed_one_unchanged, Hincl. now left.
    + intros ?. apply IH. intros x Hx. apply Hincl. now right.
Qed.

Lemma run_unchanged :
  triple unchanged (initialize ;; statistics)
    (fun _ => file_unchanged) file_unchanged.
Proof.
  unfold initialize.
  eapply triple_bind with (Q := fun _ => file_unchanged).
  - eapply triple_bind; [apply unchanged_query | intros ?].
    eapply triple_bind; [apply base_schema_unchanged | intros ?].
    eapply triple_bind; [apply trivia_schema_unchanged | intros ?].
    eapply triple_bind;
      [apply seed_all_unchanged, incl_refl | intros ?].
    apply triple_commit. unfold unchanged, file_unchanged. tauto.
  - intros ?. apply statistics_read_only. auto.
Qed.

Lemma second_run_same_content (now : string) (faults : option nat) :
  same_content d1 (snd (run_database d1 now faults)).
Proof.
  unfold run_database, with_connection.
  destruct (_connect d1 now faults) as [e | c] eqn:Hc.
  - apply same_content_refl.
  - apply Atomicity.connect_fresh in Hc. destruct Hc as [Hd Ht].
    assert (Hc : holds unchanged c).
    { unfold holds, unchanged. rewrite Hd, Ht. cbn.
      split; apply same_content_refl. }
    pose proof (run_unchanged c Hc) as H.
    destruct ((initialize ;; statistics) c) as [[e | s] c']; exact H.
Qed.

End SecondRun.

Lemma row_count_key_values (d : database) :
  row_count (app_info d) = List.length (key_values d).
Proof.
  unfold row_count, key_values.
  destruct (app_info d); [now rewrite length_map | reflexivity].
Qed.

(** C1.  After a run that succeeded, a second run on the database it left
    (at any later time, and whether or not the engine lets it finish) leaves
    every table with the row count it had: [users], [trivia_questions] and
    [trivia_choices] are the same tables, row for row, and [app_info] holds
    the same keys with the same values, each as often as before (its three
    metadata rows have been written again by INSERT OR REPLACE). *)
Theorem second_run_keeps_row_counts (d0 : database) (now0 : string)
    (faults0 : option nat) (stats : Z * Z * Z) (d1 : database)
    (now1 : string) (faults1 : option nat) :
  run_database d0 now0 faults0 = (inr stats, d1) ->
  let d2 := snd (run_database d1 now1 faults1) in
  row_count (app_info d2) = row_count (app_info d1) /\
  row_count (users d2) = row_count (users d1) /\
  row_count (trivia_questions d2) = row_count (trivia_questions d1) /\
  row_count (trivia_choices d2) = row_count (trivia_choices d1) /\
  users d2 = users d1 /\
  trivia_questions d2 = trivia_questions d1 /\
  trivia_choices d2 = trivia_choices d1 /\
  Permutation (key_values d2) (key_values d1).
Proof.
  intros H d2. apply successful_run_initializes in H.
  pose proof (second_run_same_content d1 H now1 faults1) as Hs.
  fold d2 in Hs. destruct Hs as (Hu & Hq & Hc & _ & _ & _ & Hp).
  rewrite !row_count_key_values, Hu, Hq, Hc.
  repeat split; auto. now apply Permutation_length.
Qed.

Lemma second_run_keeps_row_counts_witness :
  let d1 := snd (run_database empty_database "2026-01-01 00:00:00" None) in
  let d2 := snd (run_database d1 "2026-01-02 00:00:00" None) in
  run_database empty_database "2026-01-01 00:00:00" None
  = (inr (4, 6, 24), d1) /\
  row_count (app_info d2) = row_count (app_info d1) /\
  row_count (users d2) = row_count (users d1) /\
  row_count (trivia_questions d2) = row_count (trivia_questions d1) /\
  row_count (trivia_choices d2) = row_count (trivia_choices d1).
Proof.
  intros d1 d2.
  assert (H : run_database empty_database "2026-01-01 00:00:00" None
              = (inr (4, 6, 24), d1)) by (vm_compute; reflexivity).
  split; [exact H |].
  destruct (second_run_keeps_row_counts _ _ _ _ _ "2026-01-02 00:00:00"
              None H) as (A & B & C & D & _).
  exact (conj A (conj B (conj C D))).
Defined.

(** The second run of the example above also succeeds, with the same
    statistics. *)
Example second_run_succeeds :
  let d1 := snd (run_database empty_database "2026-01-01 00:00:00" None) in
  fst (run_database d1 "2026-01-02 00:00:00" None) = inr (4, 6, 24).
Proof. vm_compute. reflexivity. Qed.

End Idempotence.

(** ** The path resolver, line by line *)

Module Resolver.
Import Paths.

(** [content.split("\n")] *)
Definition lines (content : string) : list string := split_on newline content.

(** The reading of the resolver that its documentation gives: the lines of
    the file are looked at one by one, and the first line that matches the
    pattern, taken on its own, gives the value. *)
Fixpoint first_match (ls : list string) : option string :=
  match ls with
  | [] => None
  | l :: rest =>
      match match_here l with
      | Some g => Some g
      | None => first_match rest
      end
  end.

Definition resolve_by_line (cwd connection_file : string)
    (read : option string) : exn + string :=
  match read with
  | None =>
      inl (RuntimeError
             ("Could not read " ++ connection_file
              ++ ". It must exist and contain '# File path: ...'."))
  | Some content =>
      match first_match (lines content) with
      | None =>
          inl (RuntimeError
                 (connection_file
                  ++ " does not contain an authoritative '# File path: ...' line."))
      | Some value => inr (abspath cwd (strip value))
      end
  end.

(** A line that is [# File path:] and then nothing but white space. *)
Definition blank_path_line (l : string) : bool :=
  match strip_prefix file_path_prefix l with
  | Some rest => all_space rest
  | None => false
  end.

(** No blank path line comes before the first line that matches, and that
    line is not one either. *)
Fixpoint guarded (ls : list string) : bool :=
  match ls with
  | [] => true
  | l :: rest =>
      if blank_path_line l then false
      else match match_here l with
           | Some _ => true
           | None => guarded rest
           end
  end.

(** What follows the first line feed. *)
Fixpoint after_line (s : string) : option string :=
  match s with
  | EmptyString => None
  | String c s' => if Ascii.eqb c newline then Some s' else after_line s'
  end.

Lemma lines_unfold (s : string) :
  lines s = take_line s ::
            match after_line s with Some r => lines r | None => [] end.
Proof.
  unfold lines. induction s as [| c s IH]; cbn; [reflexivity |].
  destruct (Ascii.eqb c newline); [reflexivity |].
  rewrite IH. reflexivity.
Qed.

Lemma search_true (s : string) :
  search_from true s
  = match match_here s with
    | Some g => Some g
    | None => search_from false s
    end.
Proof. destruct s; reflexivity. Qed.

Lemma search_false (s : string) :
  search_from false s
  = match after_line s with
    | Some r => search_from true r
    | None => None
    end.
Proof.
  induction s as [| c s IH]; [reflexivity |].
  cbn [search_from after_line].
  destruct (Ascii.eqb c newline); [reflexivity | exact IH].
Qed.

Lemma take_line_idem (s : string) : take_line (take_line s) = take_line s.
Proof.
  induction s as [| c s IH]; cbn; [reflexivity |].
  destruct (Ascii.eqb c newline) eqn:E; cbn; [reflexivity |].
  now rewrite E, IH.
Qed.

Lemma match_group_line (s : string) :
  match_group (take_line s) = match_group s.
Proof. unfold match_group. now rewrite take_line_idem. Qed.

(** *** White space, one character at a time *)

Lemma lstrip_unfold (s : string) :
  lstrip s = match skip_space s with Some s' => lstrip s' | None => s end.
Proof.
  destruct s as [| c1 [| c2 [| c3 s3]]]; cbn; try reflexivity;
    destruct (is_space1 c1); try reflexivity;
    destruct (is_space2 c1 c2); try reflexivity;
    destruct (is_space3 c1 c2 c3); reflexivity.
Qed.

Lemma all_space_unfold (s : string) :
  all_space s
  = match s with
    | EmptyString => true
    | _ => match skip_space s with
           | Some s' => all_space s'
           | None => false
           end
    end.
Proof.
  destruct s as [| c1 [| c2 [| c3 s3]]]; cbn; try reflexivity;
    destruct (is_space1 c1); try reflexivity;
    destruct (is_space2 c1 c2); try reflexivity;
    destruct (is_space3 c1 c2 c3); reflexivity.
Qed.

Lemma match_spaces_group_unfold (s : string) :
  match_spaces_group s
  = match skip_space s with
    | Some s' =>
        match match_spaces_group s' with
        | Some g => Some g
        | None => match_group s
        end
    | None => match_group s
    end.
Proof.
  destruct s as [| c1 [| c2 [| c3 s3]]]; cbn; try reflexivity;
    destruct (is_space1 c1); try reflexivity;
    destruct (is_space2 c1 c2); try reflexivity;
    destruct (is_space3 c1 c2 c3); reflexivity.
Qed.

Lemma skip_space_length (s s' : string) :
  skip_space s = Some s' -> (String.length s' < String.length s)%nat.
Proof.
  destruct s as [| c1 [| c2 [| c3 s3]]]; cbn; try discriminate;
    destruct (is_space1 c1); try discriminate;
    try (intros H; injection H as <-; cbn; lia);
    destruct (is_space2 c1 c2); try discriminate;
    try (intros H; injection H as <-; cbn; lia);
    destruct (is_space3 c1 c2 c3); try discriminate;
    intros H; injection H as <-; cbn; lia.
Qed.

(** Induction over a text, one white space character at a time. *)
Lemma space_ind (P : string -> Prop) :
  (forall s, (forall s', skip_space s = Some s' -> P s') -> P s) ->
  forall s, P s.
Proof.
  intros step s.
  assert (H : forall n s, (String.length s < n)%nat -> P s).
  { induction n as [| n IH]; intros t Ht; [lia |].
    apply step. intros t' Hs. apply IH.
    apply skip_space_length in Hs. lia. }
  apply (H (S (String.length s))). lia.
Qed.

Lemma skip_space_app (s s' t : string) :
  skip_space s = Some s' -> skip_space (s ++ t) = Some (s' ++ t).
Proof.
  destruct s as [| c1 [| c2 [| c3 s3]]]; cbn; try discriminate;
    destruct (is_space1 c1); try discriminate;
    try (intros H; injection H as <-; reflexivity);
    destruct (is_space2 c1 c2); try discriminate;
    try (intros H; injection H as <-; reflexivity);
    destruct (is_space3 c1 c2 c3); try discriminate;
    intros H; injection H as <-; reflexivity.
Qed.

(** The bytes of a white space character of several bytes are all above
    127: none is the line feed. *)
Lemma is_space2_high (c1 c2 : ascii) :
  is_space2 c1 c2 = true -> (128 <= byte c1 /\ 128 <= byte c2)%nat.
Proof.
  unfold is_space2.
  rewrite !andb_true_iff, !orb_true_iff, !Nat.eqb_eq. lia.
Qed.

Lemma is_space3_high (c1 c2 c3 : ascii) :
  is_space3 c1 c2 c3 = true ->
  (128 <= byte c1 /\ 128 <= byte c2 /\ 128 <= byte c3)%nat.
Proof.
  unfold is_space3.
  rewrite !orb_true_iff, !andb_true_iff, !orb_true_iff, !andb_true_iff,
    !Nat.eqb_eq, !Nat.leb_le. lia.
Qed.

Lemma newline_byte (c : ascii) :
  Ascii.eqb c newline = true -> byte c = 10%nat.
Proof. intros H. apply Ascii.eqb_eq in H. now subst c. Qed.

(** The white space character at the head of a line is the one at the head
    of the text, unless that one is the line feed. *)
Lemma skip_space_line (s : string) :
  skip_space (take_line s)
  = match s with
    | String c _ =>
        if Ascii.eqb c newline then None
        else option_map take_line (skip_space s)
    | EmptyString => None
    end.
Proof.
  destruct s as [| c1 s1]; [reflexivity |].
  cbn [take_line]. destruct (Ascii.eqb c1 newline) eqn:E1; [reflexivity |].
  cbn [skip_space]. destruct (is_space1 c1); [reflexivity |].
  destruct s1 as [| c2 s2]; [reflexivity |].
  cbn [take_line]. destruct (Ascii.eqb c2 newline) eqn:E2.
  { apply newline_byte in E2.
    destruct (is_space2 c1 c2) eqn:S2;
      [apply is_space2_high in S2; lia |].
    destruct s2 as [| c3 s3]; [reflexivity |].
    destruct (is_space3 c1 c2 c3) eqn:S3;
      [apply is_space3_high in S3; lia | reflexivity]. }
  destruct (is_space2 c1 c2); [reflexivity |].
  destruct s2 as [| c3 s3]; [reflexivity |].
  cbn [take_line]. destruct (Ascii.eqb c3 newline) eqn:E3.
  { apply newline_byte in E3.
    destruct (is_space3 c1 c2 c3) eqn:S3;
      [apply is_space3_high in S3; lia | reflexivity]. }
  destruct (is_space3 c1 c2 c3); reflexivity.
Qed.

(** Within a line that is not all white space, [\s*] never reaches the line
    feed: the match is the match of the line taken on its own. *)
Lemma match_spaces_group_line (s : string) :
  all_space (take_line s) = false ->
  match_spaces_group s = match_spaces_group (take_line s).
Proof.
  induction s as [s IH] using space_ind. intros H.
  rewrite (match_spaces_group_unfold s),
    (match_spaces_group_unfold (take_line s)), match_group_line.
  rewrite all_space_unfold in H. rewrite skip_space_line in *.
  destruct s as [| c s1]; [discriminate |].
  cbn [take_line] in H.
  destruct (Ascii.eqb c newline) eqn:E; [discriminate |].
  destruct (skip_space (String c s1)) as [s' |] eqn:Hs; cbn [option_map] in *;
    [| reflexivity].
  now rewrite (IH s' eq_refl H).
Qed.

Lemma strip_prefix_line (p s : string) :
  take_line p = p ->
  strip_prefix p (take_line s) = option_map take_line (strip_prefix p s).
Proof.
  revert s. induction p as [| a p IH]; intros s Hp; [reflexivity |].
  cbn [take_line] in Hp.
  destruct (Ascii.eqb a newline) eqn:Ea; [discriminate |].
  injection Hp as Hp.
  destruct s as [| b s]; [reflexivity |].
  cbn [take_line strip_prefix].
  destruct (Ascii.eqb b newline) eqn:Eb.
  - apply Ascii.eqb_eq in Eb. subst b. now rewrite Ea.
  - cbn [strip_prefix]. destruct (Ascii.eqb a b); [| reflexivity].
    apply IH, Hp.
Qed.

Lemma match_here_line (s : string) :
  blank_path_line (take_line s) = false ->
  match_here s = match_here (take_line s).
Proof.
  unfold blank_path_line, match_here.
  rewrite (strip_prefix_line file_path_prefix s) by reflexivity.
  destruct (strip_prefix file_path_prefix s) as [rest |]; cbn;
    [| reflexivity].
  apply match_spaces_group_line.
Qed.

Lemma search_false_lines (s : string) :
  guarded (tl (lines s)) = true ->
  search_from false s = first_match (tl (lines s)).
Proof.
  induction s as [| c s IH]; [reflexivity |].
  rewrite search_false, lines_unfold. cbn [tl after_line].
  destruct (Ascii.eqb c newline) eqn:E.
  - intros H. rewrite search_true.
    rewrite lines_unfold in H |- *. cbn [guarded first_match] in H |- *.
    destruct (blank_path_line (take_line s)) eqn:Hb; [discriminate |].
    rewrite <- (match_here_line s Hb) in H |- *.
    destruct (match_here s); [reflexivity |].
    rewrite lines_unfold in IH. cbn [tl] in IH. apply IH, H.
  - intros H. rewrite lines_unfold in IH. cbn [tl] in IH.
    rewrite <- (IH H). symmetry. apply search_false.
Qed.

(** The pattern, searched in the whole text, finds what the lines give one
    by one, provided no blank path line comes first. *)
Lemma re_search_by_line (content : string) :
  guarded (lines content) = true ->
  re_search content = first_match (lines content).
Proof.
  unfold re_search. intros H. rewrite search_true.
  pose proof (search_false_lines content) as Hf.
  rewrite lines_unfold in H, Hf |- *. cbn [guarded first_match tl] in *.
  destruct (blank_path_line (take_line content)) eqn:Hb; [discriminate |].
  rewrite <- (match_here_line content Hb) in H |- *.
  destruct (match_here content); [reflexivity | apply Hf, H].
Qed.

Lemma resolver_by_line (cwd connection_file : string) (read : option string) :
  match read with Some content => guarded (lines content) = true
                | None => True end ->
  get_db_path_from_connection_file cwd connection_file read
  = resolve_by_line cwd connection_file read.
Proof.
  unfold get_db_path_from_connection_file, resolve_by_line.
  destruct read as [content |]; [| reflexivity].
  intros H. now rewrite (re_search_by_line content H).
Qed.

Lemma guarded_first_match (pre post : list string) (l value : string) :
  (forall x, In x pre -> strip_prefix file_path_prefix x = None) ->
  blank_path_line l = false ->
  match_here l = Some value ->
  guarded (pre ++ l :: post) = true /\
  first_match (pre ++ l :: post) = Some value.
Proof.
  intros Hpre Hb Hm. induction pre as [| x pre IH]; cbn.
  - now rewrite Hb, Hm.
  - assert (Hx : strip_prefix file_path_prefix x = None)
      by (apply Hpre; now left).
    unfold blank_path_line, match_here. rewrite Hx.
    apply IH. intros y Hy. apply Hpre. now right.
Qed.

(** The part of C10 that holds.  When the lines before the first matching
    line do not start with [# File path:], and that line carries more than
    white space after the colon, the resolver returns the absolute form of
    its value, stripped; whatever the later lines are, they play no part. *)
Lemma first_matching_line_wins (cwd connection_file content : string)
    (pre post : list string) (l value : string) :
  lines content = (pre ++ l :: post)%list ->
  (forall x, In x pre -> strip_prefix file_path_prefix x = None) ->
  blank_path_line l = false ->
  match_here l = Some value ->
  get_db_path_from_connection_file cwd connection_file (Some content)
  = inr (abspath cwd (strip value)).
Proof.
  intros Hl Hpre Hb Hm.
  destruct (guarded_first_match pre post l value Hpre Hb Hm) as [Hg Hf].
  rewrite resolver_by_line by (cbn; now rewrite Hl).
  unfold resolve_by_line. now rewrite Hl, Hf.
Qed.

Example first_matching_line_wins_example :
  get_db_path_from_connection_file "/srv/app" "db_connection.txt"
    (Some ("# SQLite connection methods:" ++ nl
           ++ "# File path:   /tmp/x/custom.db  " ++ nl
           ++ "# File path: /tmp/y/other.db" ++ nl))
  = inr "/tmp/x/custom.db".
Proof.
  apply (first_matching_line_wins _ _ _
           ["# SQLite connection methods:"]
           ["# File path: /tmp/y/other.db"; EmptyString]
           "# File path:   /tmp/x/custom.db  " "/tmp/x/custom.db  ");
    try reflexivity.
  intros x [<- | []]. reflexivity.
Qed.

(** C5 at a reference file whose path line is blank and is followed by
    another line.  No line of the file matches the pattern, so the reading
    by lines raises the configuration error; the resolver returns instead,
    with the text of the next line as the path: [\s*] has taken the line
    feed. *)
Theorem blank_path_line_is_not_rejected :
  let content := "# File path:" ++ nl
                 ++ "# Connection string: sqlite:///myapp.db" ++ nl in
  map match_here (lines content) = [None; None; None] /\
  resolve_by_line "/srv/app" "db_connection.txt" (Some content)
  = inl (RuntimeError
           "db_connection.txt does not contain an authoritative '# File path: ...' line.")
  /\
  get_db_path_from_connection_file "/srv/app" "db_connection.txt"
    (Some content)
  = inr "/srv/app/# Connection string: sqlite:/myapp.db".
Proof. vm_compute. repeat split. Qed.

(** C10 at a reference file with two matching lines after a blank path
    line.  The first matching line gives [/srv/a.db]; the resolver returns
    the whole text of that line as the path. *)
Theorem blank_path_line_takes_next_line :
  let content := "# File path:" ++ nl
                 ++ "# File path: /srv/a.db" ++ nl
                 ++ "# File path: /srv/b.db" ++ nl in
  map match_here (lines content)
  = [None; Some "/srv/a.db"; Some "/srv/b.db"; None] /\
  resolve_by_line "/srv/app" "db_connection.txt" (Some content)
  = inr "/srv/a.db" /\
  get_db_path_from_connection_file "/srv/app" "db_connection.txt"
    (Some content)
  = inr "/srv/app/# File path: /srv/a.db".
Proof. vm_compute. repeat split. Qed.

(** The two remaining cases of C5 are as the claim has them. *)
Lemma unreadable_file_raises (cwd connection_file : string) :
  get_db_path_from_connection_file cwd connection_file None
  = inl (RuntimeError
           ("Could not read " ++ connection_file
            ++ ". It must exist and contain '# File path: ...'.")).
Proof. reflexivity. Qed.

Lemma no_prefix_line_raises (cwd connection_file content : string) :
  (forall x, In x (lines content) ->
             strip_prefix file_path_prefix x = None) ->
  get_db_path_from_connection_file cwd connection_file (Some content)
  = inl (RuntimeError
           (connection_file
            ++ " does not contain an authoritative '# File path: ...' line.")).
Proof.
  intros H.
  assert (Hg : guarded (lines content) = true /\
               first_match (lines content) = None).
  { induction (lines content) as [| x ls IH]; [now split |].
    cbn. unfold blank_path_line, match_here.
    rewrite (H x) by now left. apply IH. intros y Hy. apply H. now right. }
  destruct Hg as [Hg Hf].
  rewrite resolver_by_line by exact Hg.
  unfold resolve_by_line. now rewrite Hf.
Qed.

End Resolver.

(** ** The orchestrator *)

Module Orchestrator.
Import Sql InitDb Paths Script.

Definition reference_file : string := "db_connection.txt".

(** The path the run works with. *)
Definition resolved_path (w : world) : string := fst (fst (resolve w)).

Definition used_fallback (w : world) : bool := snd (fst (resolve w)).

(** The database a connection to [path] starts from. *)
Definition database_at (w : world) (path : string) : database :=
  match databases w path with DbFile d => d | _ => empty_database end.

(** [text] has the line [l]: [l] starts the text or follows a line feed,
    and a line feed follows it. *)
Definition has_line (l text : string) : Prop :=
  exists pre post,
    text = pre ++ l ++ nl ++ post /\
    (pre = EmptyString \/ exists pre', pre = pre' ++ nl).

Lemma append_assoc (a b c : string) : (a ++ b) ++ c = a ++ (b ++ c).
Proof. induction a as [| x a IH]; cbn; [reflexivity | now rewrite IH]. Qed.

Lemma append_empty (a : string) : a ++ EmptyString = a.
Proof. induction a as [| x a IH]; cbn; [reflexivity | now rewrite IH]. Qed.

Lemma connection_info_has_path_line (db_path : string) :
  has_line ("# File path: " ++ db_path) (connection_info db_path).
Proof.
  pose (head := "# SQLite connection methods:" ++ nl
                ++ "# Python: sqlite3.connect('" ++ db_path ++ "')" ++ nl
                ++ "# Connection string: " ++ ("sqlite:///" ++ db_path)).
  exists (head ++ nl), EmptyString. split.
  - unfold connection_info, head.
    rewrite !append_assoc, append_empty. reflexivity.
  - right. now exists head.
Qed.

Lemma in_trace (e : event) (a b c d out3 out5 out6 after : list event) :
  In e out5 \/ In e out6 ->
  In e (a ++ b ++ c ++ d ++ out3 ++ out5 ++ out6 ++ after)%list.
Proof. rewrite !in_app_iff. tauto. Qed.

Lemma initialize_database_ok (db_path : string) (w w1 : world)
    (out : list event) :
  initialize_database db_path w = (inr tt, w1, out) ->
  exists stats d',
    run_database (database_at w db_path) (now w) (engine_faults w)
    = (inr stats, d') /\
    w1 = set_database db_path d' w.
Proof.
  unfold initialize_database, database_at.
  destruct (databases w db_path) as [| d |]; [| | discriminate].
  - destruct (run_database _ _ _) as [[e | [[tc qc] cc]] d'];
      [discriminate |].
    intros H. injection H as <- _. now exists (tc, qc, cc), d'.
  - destruct (run_database _ _ _) as [[e | [[tc qc] cc]] d'];
      [discriminate |].
    intros H. injection H as <- _. now exists (tc, qc, cc), d'.
Qed.

Lemma publish_ok (fb : bool) (db_path : string) (w1 w3 : world)
    (out : list event) :
  publish fb db_path w1 = (inr tt, w3, out) ->
  exists w2 out5 out6 after,
    _write_visualizer_env db_path w1 = (inr tt, w2, out5) /\
    save_connection_info fb db_path w2 = (w3, out6) /\
    out = (out5 ++ out6 ++ after)%list.
Proof.
  unfold publish.
  destruct (_write_visualizer_env db_path w1) as [[[e | []] w2] out5]
    eqn:Henv; [discriminate |].
  destruct (save_connection_info fb db_path w2) as [w3' out6] eqn:Hsave.
  intros H. injection H as <- <-.
  exists w2, out5, out6. eexists. split; [reflexivity |].
  split; [exact Hsave | reflexivity].
Qed.

(** What a run that completes has done, block by block. *)
Lemma main_completed (w w' : world) (tr : list event) :
  main w = (inr tt, w', tr) ->
  exists stats d' w2 out5 out6,
    run_database (database_at w (resolved_path w)) (now w) (engine_faults w)
    = (inr stats, d') /\
    _write_visualizer_env (resolved_path w)
      (set_database (resolved_path w) d' w)
    = (inr tt, w2, out5) /\
    save_connection_info (used_fallback w) (resolved_path w) w2
    = (w', out6) /\
    forall e, In e out5 \/ In e out6 -> In e tr.
Proof.
  unfold main, resolved_path, used_fallback.
  destruct (resolve w) as [[db_path fb] out1]. cbn [fst snd].
  destruct (makedirs_error w _); [discriminate |].
  destruct (initialize_database db_path w) as [[[e | []] w1] out3] eqn:Hi;
    [discriminate |].
  destruct (publish fb db_path w1) as [[r' w3] out4] eqn:Hp.
  intros H. injection H as -> <- <-.
  apply initialize_database_ok in Hi. destruct Hi as (stats & d' & Hrun & ->).
  apply publish_ok in Hp.
  destruct Hp as (w2 & out5 & out6 & after & Henv & Hsave & ->).
  exists stats, d', w2, out5, out6. repeat split; auto.
  intros e He.
  exact (in_trace e [_] out1 [_] [_] out3 out5 out6 after He).
Qed.

Lemma write_text_ok (path content : string) (w w' : world) :
  write_text path content w = inr w' ->
  read_text w' path = Some content /\
  (forall p, p <> path -> read_text w' p = read_text w p) /\
  databases w' = databases w /\
  open_w_error w' = open_w_error w.
Proof.
  unfold write_text. destruct (open_w_error w path); [discriminate |].
  intros H. injection H as <-. cbn. rewrite String.eqb_refl.
  repeat split. intros p Hp. apply String.eqb_neq in Hp. now rewrite Hp.
Qed.

Lemma write_visualizer_env_ok (db_path : string) (w w' : world)
    (out : list event) :
  _write_visualizer_env db_path w = (inr tt, w', out) ->
  read_text w' env_file_name = Some (env_line db_path) /\
  (forall p, p <> env_file_name -> read_text w' p = read_text w p) /\
  databases w' = databases w /\
  open_w_error w' = open_w_error w /\
  out = [MakeDirs "db_visualizer";
         WriteFile env_file_name (env_line db_path)].
Proof.
  unfold _write_visualizer_env.
  destruct (makedirs_error w "db_visualizer"); [discriminate |].
  destruct (write_text env_file_name (env_line db_path) w) as [e | w1] eqn:Hw;
    [discriminate |].
  intros H. injection H as <- <-.
  destruct (write_text_ok _ _ _ _ Hw) as (H1 & H2 & H3 & H4).
  repeat split; auto.
Qed.

(** The environment publisher does not touch the reference file, whether
    it returns or raises. *)
Lemma write_visualizer_env_frame (db_path : string) (w : world) :
  let '(_, w', out) := _write_visualizer_env db_path w in
  read_text w' reference_file = read_text w reference_file /\
  databases w' = databases w /\
  forall c, ~ In (WriteFile reference_file c) out.
Proof.
  unfold _write_visualizer_env.
  destruct (makedirs_error w "db_visualizer").
  - repeat split. intros c [].
  - destruct (write_text env_file_name (env_line db_path) w)
      as [e | w1] eqn:Hw.
    + repeat split. intros c [H | []]. discriminate.
    + destruct (write_text_ok _ _ _ _ Hw) as (H1 & H2 & H3 & H4).
      repeat split; auto.
      * apply H2. discriminate.
      * intros c [H | [H | []]]; discriminate.
Qed.

(** C8.  After a run that completes, the environment file reads back as
    the text [export SQLITE_DB="<path>"] followed by one line feed, where
    the path is the one the run resolved; nothing of what the file held
    before is left, and the later write of the reference file does not
    touch it. *)
Theorem env_file_after_run (w w' : world) (tr : list event) :
  main w = (inr tt, w', tr) ->
  read_text w' env_file_name
  = Some ("export SQLITE_DB=" ++ dquote ++ resolved_path w ++ dquote ++ nl)
  /\ In (WriteFile env_file_name (env_line (resolved_path w))) tr.
Proof.
  intros H. apply main_completed in H.
  destruct H as (stats & d' & w2 & out5 & out6 & _ & Henv & Hsave & Htr).
  apply write_visualizer_env_ok in Henv.
  destruct Henv as (Hread & _ & _ & _ & ->). split.
  - unfold save_connection_info in Hsave.
    destruct (used_fallback w).
    + destruct (write_text "db_connection.txt" _ w2) as [e | w3] eqn:Hw.
      * injection Hsave as <- _. exact Hread.
      * injection Hsave as <- _.
        destruct (write_text_ok _ _ _ _ Hw) as (_ & Hother & _).
        rewrite Hother; [exact Hread | discriminate].
    + injection Hsave as <- _. exact Hread.
  - apply Htr. left. right. now left.
Qed.

Lemma take_line_app (s t : string) :
  take_line s = s -> take_line (s ++ t) = s ++ take_line t.
Proof.
  induction s as [| c s IH]; cbn; [reflexivity |].
  destruct (Ascii.eqb c newline); [discriminate |].
  intros H. injection H as H. now rewrite (IH H).
Qed.

Lemma after_line_app (s t : string) :
  take_line s = s ->
  Resolver.after_line (s ++ t) = Resolver.after_line t.
Proof.
  induction s as [| c s IH]; cbn; [reflexivity |].
  destruct (Ascii.eqb c newline); [discriminate |].
  intros H. injection H as H. exact (IH H).
Qed.

(** The line the file then holds, when the path has no line feed in it. *)
Lemma env_line_is_one_line (db_path : string) :
  take_line db_path = db_path ->
  Resolver.lines (env_line db_path)
  = ["export SQLITE_DB=" ++ dquote ++ db_path ++ dquote; EmptyString].
Proof.
  intros H. rewrite Resolver.lines_unfold. unfold env_line.
  rewrite (take_line_app "export SQLITE_DB=") by reflexivity.
  rewrite (take_line_app dquote) by reflexivity.
  rewrite (take_line_app db_path) by exact H.
  rewrite (after_line_app "export SQLITE_DB=") by reflexivity.
  rewrite (after_line_app dquote) by reflexivity.
  rewrite (after_line_app db_path) by exact H.
  reflexivity.
Qed.

(** A fresh clone: no reference file, no database, nothing that fails. *)
Definition fresh_clone : world :=
  mk_world "/home/dev/database" "2026-01-01 00:00:00"
    (fun _ => None) (fun _ => None) (fun _ => None) (fun _ => NoFile) None.

Lemma env_file_after_run_witness :
  fst (fst (main fresh_clone)) = inr tt /\
  read_text (snd (fst (main fresh_clone))) env_file_name
  = Some ("export SQLITE_DB=" ++ dquote ++ "/home/dev/database/myapp.db"
          ++ dquote ++ nl).
Proof.
  assert (H : main fresh_clone
              = (inr tt, snd (fst (main fresh_clone)),
                 snd (main fresh_clone))) by (vm_compute; reflexivity).
  split; [vm_compute; reflexivity |].
  exact (proj1 (env_file_after_run _ _ _ H)).
Defined.

Lemma resolve_fallback (w : world) :
  read_text w reference_file = None ->
  resolve w
  = (abspath (cwd w) DB_NAME_FALLBACK, true,
     [Print ("Warning: Could not read db_connection.txt. "
             ++ "It must exist and contain '# File path: ...'.");
      Print "Falling back to local DB file: myapp.db"]).
Proof. unfold resolve, reference_file. intros ->. reflexivity. Qed.

(** The reference file the fallback run wrote resolves to the same path on
    the next run. *)
Example rewritten_reference_file_resolves :
  resolve (snd (fst (main fresh_clone)))
  = ("/home/dev/database/myapp.db", false, []).
Proof. vm_compute. reflexivity. Qed.


Lemma initialize_database_frame (db_path : string) (w : world) :
  let '(_, w1, out) := initialize_database db_path w in
  read_text w1 = read_text w /\
  open_w_error w1 = open_w_error w /\
  makedirs_error w1 = makedirs_error w /\
  forall p c, ~ In (WriteFile p c) out.
Proof.
  unfold initialize_database.
  assert (Hrun : forall d,
    let '(_, w1, out) :=
      (let '(r, d') := run_database d (now w) (engine_faults w) in
       match r with
       | inl e => (inl e, set_database db_path d' w, [])
       | inr (table_count, q_count, c_count) =>
           (inr tt, set_database db_path d' w,
            [Print "Database is accessible and working.";
             Print "Database statistics:";
             Print ("  Tables: " ++ str_of_int table_count);
             Print ("  Trivia questions: " ++ str_of_int q_count);
             Print ("  Trivia choices: " ++ str_of_int c_count)])
       end) in
    read_text w1 = read_text w /\
    open_w_error w1 = open_w_error w /\
    makedirs_error w1 = makedirs_error w /\
    forall p c, ~ In (WriteFile p c) out).
  { intros d.
    destruct (run_database d (now w) (engine_faults w))
      as [[e | [[tc qc] cc]] d']; cbn; repeat split; intros p c H;
      repeat destruct H as [H | H]; try discriminate; auto. }
  destruct (databases w db_path) as [| d |].
  - apply Hrun.
  - apply Hrun.
  - repeat split. intros p c [].
Qed.

(** Without the fallback, what follows the [try] block does not write the
    reference file, whether it returns or raises. *)
Lemma publish_keeps_reference_file (db_path : string) (w : world) :
  let '(_, w3, out) := publish false db_path w in
  read_text w3 reference_file = read_text w reference_file /\
  forall c, ~ In (WriteFile reference_file c) out.
Proof.
  unfold publish.
  pose proof (write_visualizer_env_frame db_path w) as Hf.
  destruct (_write_visualizer_env db_path w) as [[[e | []] w2] out5];
    destruct Hf as (Hread & _ & Hout).
  - now split.
  - unfold save_connection_info. split; [exact Hread |]. intros c H.
    apply in_app_or in H. destruct H as [H | H].
    + now apply (Hout c).
    + cbn in H. repeat destruct H as [H | H]; try discriminate; auto.
Qed.

(** The part of C7 that holds, for every reference file that resolves: the
    run works with the path the resolver returned and no block of [main]
    writes the reference file.  However the run ends, the file reads back
    as before and the run has performed no write to it. *)
Lemma resolved_run_keeps_reference_file (w : world) (db_path : string) :
  get_db_path_from_connection_file (cwd w) reference_file
    (read_text w reference_file) = inr db_path ->
  resolved_path w = db_path /\
  used_fallback w = false /\
  read_text (snd (fst (main w))) reference_file
  = read_text w reference_file /\
  forall c, ~ In (WriteFile reference_file c) (snd (main w)).
Proof.
  intros Hres.
  unfold resolved_path, used_fallback, main, resolve.
  change "db_connection.txt" with reference_file. rewrite Hres.
  cbn [fst snd]. repeat split.
  - destruct (makedirs_error w _); [reflexivity |].
    pose proof (initialize_database_frame db_path w) as Hi.
    destruct (initialize_database db_path w) as [[[e | []] w1] out3];
      destruct Hi as (Hread & _).
    + cbn. now rewrite Hread.
    + pose proof (publish_keeps_reference_file db_path w1) as Hp.
      destruct (publish false db_path w1) as [[r' w3] out4].
      cbn. destruct Hp as [-> _]. now rewrite Hread.
  - intros c.
    destruct (makedirs_error w _).
    { cbn. intros H. repeat destruct H as [H | H]; try discriminate; auto. }
    pose proof (initialize_database_frame db_path w) as Hi.
    destruct (initialize_database db_path w) as [[[e | []] w1] out3];
      destruct Hi as (_ & _ & _ & Hout3).
    + cbn. intros H. repeat destruct H as [H | H]; try discriminate.
      now apply (Hout3 reference_file c).
    + pose proof (publish_keeps_reference_file db_path w1) as Hp.
      destruct (publish false db_path w1) as [[r' w3] out4].
      destruct Hp as [_ Hout4]. cbn. intros H.
      repeat destruct H as [H | H]; try discriminate.
      rewrite in_app_iff in H. destruct H as [H | H].
      * now apply (Hout3 reference_file c).
      * now apply (Hout4 c).
Qed.

(** A checkout whose reference file names a database elsewhere. *)
Definition custom_reference : world :=
  mk_world "/home/dev/database" "2026-01-01 00:00:00"
    (fun p => if String.eqb p reference_file
              then Some ("# File path: /tmp/x/custom.db" ++ nl)
              else None)
    (fun _ => None) (fun _ => None) (fun _ => NoFile) None.

(** The example of C7: the run works on [/tmp/x/custom.db], completes, and
    the reference file is as it was. *)
Example custom_reference_is_kept :
  resolved_path custom_reference = "/tmp/x/custom.db" /\
  fst (fst (main custom_reference)) = inr tt /\
  read_text (snd (fst (main custom_reference))) reference_file
  = Some ("# File path: /tmp/x/custom.db" ++ nl).
Proof.
  assert (H : get_db_path_from_connection_file (cwd custom_reference)
                reference_file (read_text custom_reference reference_file)
              = inr "/tmp/x/custom.db") by (vm_compute; reflexivity).
  destruct (resolved_run_keeps_reference_file custom_reference _ H)
    as (Hp & _ & Hr & _).
  split; [exact Hp |]. split; [vm_compute; reflexivity |]. exact Hr.
Qed.

(** A checkout whose reference file has a path line left blank above the
    path line that is filled in. *)
Definition blank_then_path : world :=
  mk_world "/srv/app" "2026-01-01 00:00:00"
    (fun p => if String.eqb p reference_file
              then Some ("# File path:" ++ nl
                         ++ "# File path: /srv/a.db" ++ nl)
              else None)
    (fun _ => None) (fun _ => None) (fun _ => NoFile) None.

(** C7 at [blank_then_path].  One line of the reference file matches the
    pattern, and its value is [/srv/a.db].  The resolver succeeds, so there
    is no fallback and the reference file is left as it is; but the path it
    returns, with which the run then works, is not the absolute form of
    [/srv/a.db]: it is the whole text of that line, taken as a name in the
    working directory.  The run completes, and the database it has
    initialized is the file of that name; nothing is at [/srv/a.db]. *)
Theorem blank_path_line_misleads_run :
  let content := "# File path:" ++ nl ++ "# File path: /srv/a.db" ++ nl in
  read_text blank_then_path reference_file = Some content /\
  map match_here (Resolver.lines content) = [None; Some "/srv/a.db"; None] /\
  Resolver.resolve_by_line "/srv/app" reference_file (Some content)
  = inr "/srv/a.db" /\
  resolved_path blank_then_path = "/srv/app/# File path: /srv/a.db" /\
  used_fallback blank_then_path = false /\
  fst (fst (main blank_then_path)) = inr tt /\
  databases (snd (fst (main blank_then_path)))
    "/srv/app/# File path: /srv/a.db"
  = DbFile (snd (run_database empty_database "2026-01-01 00:00:00" None)) /\
  databases (snd (fst (main blank_then_path))) "/srv/a.db" = NoFile /\
  In (MakeDirs "/srv/app/# File path: /srv") (snd (main blank_then_path)) /\
  read_text (snd (fst (main blank_then_path))) reference_file = Some content.
Proof. vm_compute. repeat split. tauto. Qed.

(** *** File system errors after the commit *)

(** A failure to write the reference file is caught: it is printed as a
    warning and the run completes. *)
Lemma reference_write_failure_is_a_warning (db_path msg : string)
    (w w2 : world) (out5 : list event) :
  _write_visualizer_env db_path w = (inr tt, w2, out5) ->
  open_w_error w reference_file = Some msg ->
  publish true db_path w
  = (inr tt, w2,
     (out5
      ++ [Print ("Warning: Could not save connection info: " ++ msg)]
      ++ [Print (nl ++ "SQLite setup complete!");
          Print ("Database file: " ++ db_path);
          Print "To use the Node.js DB viewer, run: source db_visualizer/sqlite.env";
          Print (nl ++ "Script completed successfully.")])%list).
Proof.
  intros Henv Hopen. unfold publish. rewrite Henv.
  apply write_visualizer_env_ok in Henv.
  destruct Henv as (_ & _ & _ & Ho & _).
  unfold save_connection_info, write_text.
  change "db_connection.txt" with reference_file.
  rewrite Ho, Hopen. reflexivity.
Qed.

(** A failure to create the directory of the environment file, or to open
    that file, is not caught: [publish] raises, and neither the reference
    file nor the closing lines are written. *)
Lemma env_failure_is_raised (fb : bool) (db_path : string) (w : world) :
  (exists msg, makedirs_error w "db_visualizer" = Some msg /\
               publish fb db_path w = (inl (OSError msg), w, [])) \/
  (exists msg, makedirs_error w "db_visualizer" = None /\
               open_w_error w env_file_name = Some msg /\
               publish fb db_path w
               = (inl (OSError msg), w, [MakeDirs "db_visualizer"])) \/
  (makedirs_error w "db_visualizer" = None /\
   open_w_error w env_file_name = None /\
   fst (fst (publish fb db_path w)) = inr tt).
Proof.
  unfold publish, _write_visualizer_env, write_text.
  destruct (makedirs_error w "db_visualizer") as [msg |].
  - left. now exists msg.
  - right. destruct (open_w_error w env_file_name) as [msg |].
    + left. now exists msg.
    + right. repeat split.
      destruct (save_connection_info _ _ _). reflexivity.
Qed.

(** A fresh clone in which the directory [db_visualizer] cannot be
    created. *)
Definition visualizer_blocked : world :=
  mk_world "/home/dev/database" "2026-01-01 00:00:00"
    (fun _ => None) (fun _ => None)
    (fun p => if String.eqb p "db_visualizer"
              then Some "[Errno 13] Permission denied: 'db_visualizer'"
              else None)
    (fun _ => NoFile) None.

(** C9 at [visualizer_blocked].  The database work is committed (the file
    holds the six questions), then [os.makedirs] fails in
    [_write_visualizer_env]: [main] ends with that [OSError]; no warning
    about it is printed, the reference file is not written although the
    fallback was used, and the closing lines are not printed. *)
Theorem env_directory_failure_aborts_run :
  fst (fst (main visualizer_blocked))
  = inl (OSError "[Errno 13] Permission denied: 'db_visualizer'") /\
  databases (snd (fst (main visualizer_blocked)))
    "/home/dev/database/myapp.db"
  = DbFile (snd (run_database empty_database "2026-01-01 00:00:00" None)) /\
  fst (run_database empty_database "2026-01-01 00:00:00" None)
  = inr (4, 6, 24) /\
  read_text (snd (fst (main visualizer_blocked))) reference_file = None /\
  snd (main visualizer_blocked)
  = [Print "Starting SQLite setup (trivia schema + seed)...";
     Print ("Warning: Could not read db_connection.txt. "
            ++ "It must exist and contain '# File path: ...'.");
     Print "Falling back to local DB file: myapp.db";
     Print "Creating new SQLite database at /home/dev/database/myapp.db...";
     MakeDirs "/home/dev/database";
     Print "Database is accessible and working.";
     Print "Database statistics:";
     Print "  Tables: 4";
     Print "  Trivia questions: 6";
     Print "  Trivia choices: 24"].
Proof. vm_compute. repeat split. Qed.

(** A fresh clone in which the reference file cannot be opened for
    writing. *)
Definition reference_blocked : world :=
  mk_world "/home/dev/database" "2026-01-01 00:00:00"
    (fun _ => None)
    (fun p => if String.eqb p reference_file
              then Some "[Errno 13] Permission denied: 'db_connection.txt'"
              else None)
    (fun _ => None) (fun _ => NoFile) None.

(** C6 as stated fails at [reference_blocked].  The reference file is
    absent, the run falls back to [myapp.db] in the working directory, the
    database work commits there (six questions, twenty-four choices) and
    the run completes; the write of the reference file is refused, which
    the [try] block around it turns into a warning, and the reference file
    is absent after the run as it was before. *)
Lemma fallback_without_rewrite :
  read_text reference_blocked reference_file = None /\
  used_fallback reference_blocked = true /\
  resolved_path reference_blocked = "/home/dev/database/myapp.db" /\
  fst (run_database empty_database "2026-01-01 00:00:00" None)
  = inr (4, 6, 24) /\
  databases (snd (fst (main reference_blocked)))
    "/home/dev/database/myapp.db"
  = DbFile (snd (run_database empty_database "2026-01-01 00:00:00" None)) /\
  fst (fst (main reference_blocked)) = inr tt /\
  In (Print "Warning: Could not save connection info: [Errno 13] Permission denied: 'db_connection.txt'")
     (snd (main reference_blocked)) /\
  read_text (snd (fst (main reference_blocked))) reference_file = None.
Proof. vm_compute. repeat split. tauto. Qed.

End Orchestrator.

(** ** More on the seed reconciler *)

Module SeederFacts.
Import Sql Conn InitDb Seeding.

(** *** What one [execute] returns *)

Lemma step_engine_inr (c c' : connection) (u : unit) :
  step_engine c = (inr u, c') ->
  disk c' = disk c /\ txn c' = txn c /\ clock c' = clock c.
Proof.
  unfold step_engine. destruct (fault_after c) as [[| n] |]; intros H;
    inversion H; subst; repeat split.
Qed.

Lemma step_engine_inl (c c' : connection) (e : exn) :
  step_engine c = (inl e, c') ->
  e = OperationalError "disk I/O error" /\ c' = c.
Proof.
  unfold step_engine. destruct (fault_after c) as [[| n] |]; intros H;
    inversion H; subst; now split.
Qed.

Lemma view_of (c c' : connection) :
  disk c' = disk c -> txn c' = txn c -> view c' = view c.
Proof. unfold view. now intros -> ->. Qed.

Lemma execute_query_inr {A : Type} (q : database -> exn + A)
    (c c' : connection) (a : A) :
  execute_query q c = (inr a, c') ->
  q (view c) = inr a /\ disk c' = disk c /\ txn c' = txn c /\
  clock c' = clock c.
Proof.
  unfold execute_query, bind.
  destruct (step_engine c) as [[e | u] c1] eqn:Hs; [discriminate |].
  apply step_engine_inr in Hs. destruct Hs as (Hd & Ht & Hc).
  intros H. injection H as H <-.
  rewrite (view_of _ _ Hd Ht) in H. now repeat split.
Qed.

Lemma execute_query_inl {A : Type} (q : database -> exn + A)
    (c c' : connection) (e : exn) :
  execute_query q c = (@inl exn A e, c') ->
  (e = OperationalError "disk I/O error" \/ q (view c) = inl e) /\
  disk c' = disk c /\ txn c' = txn c.
Proof.
  unfold execute_query, bind.
  destruct (step_engine c) as [[e1 | u] c1] eqn:Hs.
  - apply step_engine_inl in Hs. destruct Hs as [-> ->].
    intros H. injection H as <- <-. repeat split. now left.
  - apply step_engine_inr in Hs. destruct Hs as (Hd & Ht & Hc).
    intros H. injection H as H <-.
    rewrite (view_of _ _ Hd Ht) in H. repeat split; auto.
Qed.

Lemma execute_dml_inr (s : string -> database -> exn + database)
    (c c' : connection) (u : unit) :
  execute_dml s c = (inr u, c') ->
  s (clock c) (view c) = inr (view c') /\ disk c' = disk c /\
  clock c' = clock c.
Proof.
  unfold execute_dml, bind.
  destruct (step_engine c) as [[e | u1] c1] eqn:Hs; [discriminate |].
  apply step_engine_inr in Hs. destruct Hs as (Hd & Ht & Hc).
  rewrite (view_of _ _ Hd Ht), Hc.
  destruct (s (clock c) (view c)) as [e | d] eqn:Hsd; [discriminate |].
  intros H. inversion H; subst. cbn. repeat split; auto.
Qed.

Lemma execute_dml_inl (s : string -> database -> exn + database)
    (c c' : connection) (e : exn) :
  execute_dml s c = (inl e, c') ->
  (e = OperationalError "disk I/O error" \/ s (clock c) (view c) = inl e) /\
  disk c' = disk c /\ view c' = view c.
Proof.
  unfold execute_dml, bind.
  destruct (step_engine c) as [[e1 | u1] c1] eqn:Hs.
  - apply step_engine_inl in Hs. destruct Hs as [-> ->].
    intros H. injection H as <- <-. repeat split. now left.
  - apply step_engine_inr in Hs. destruct Hs as (Hd & Ht & Hc).
    rewrite (view_of _ _ Hd Ht), Hc.
    destruct (s (clock c) (view c)) as [e1 | d] eqn:Hsd; [| discriminate].
    intros H. injection H as <- <-. cbn. repeat split; auto.
Qed.

(** *** What the INSERT statements of the seeder add *)

Lemma insert_question_inr (code question_text : string)
    (category difficulty explanation : option string) (now : string)
    (d d' : database) :
  insert_question code question_text category difficulty explanation now d
  = inr d' ->
  exists t id,
    trivia_questions d = Some t /\
    new_rowid q_id t = inr id /\
    existsb (has_code code) (rows t) = false /\
    d' = set_trivia_questions
           (mk_table
              (rows t ++ [mk_question id code question_text category
                            difficulty explanation now now]) id) d.
Proof.
  unfold insert_question.
  destruct (trivia_questions d) as [t |]; [| discriminate].
  destruct (new_rowid q_id t) as [e | id] eqn:Hid; [discriminate |].
  destruct (existsb (has_code code) (rows t)) eqn:E; [discriminate |].
  intros H. injection H as <-. exists t, id. repeat split; auto.
Qed.

Lemma insert_choice_inr (question_id : Z) (choice_text : string)
    (choice_order is_correct : Z) (now : string) (d d' : database) :
  insert_choice question_id choice_text choice_order is_correct now d
  = inr d' ->
  exists t id,
    trivia_choices d = Some t /\
    d' = set_trivia_choices
           (mk_table
              (rows t ++ [mk_choice id question_id choice_text choice_order
                            is_correct now]) id) d.
Proof.
  unfold insert_choice.
  destruct (trivia_choices d) as [t |]; [| discriminate].
  destruct (trivia_questions d) as [qt |]; [| discriminate].
  destruct (new_rowid c_id t) as [e | id]; [discriminate |].
  destruct (existsb _ (rows t)); [discriminate |].
  destruct (negb _); [discriminate |].
  intros H. injection H as <-. now exists t, id.
Qed.

(** *** The loop over the choices *)

Definition orders_from (idx : Z) (n : nat) : list Z :=
  map (fun i => idx + Z.of_nat i) (List.seq 0 n).

Definition flags_from (correct_index idx : Z) (n : nat) : list Z :=
  map (fun i => if idx + Z.of_nat i =? correct_index then 1 else 0)
    (List.seq 0 n).

Lemma map_seq_succ {A : Type} (f : nat -> A) (n : nat) :
  map f (List.seq 0 (S n)) = f 0%nat :: map (fun i => f (S i)) (List.seq 0 n).
Proof. cbn. now rewrite <- seq_shift, map_map. Qed.

Lemma orders_from_succ (idx : Z) (n : nat) :
  orders_from idx (S n) = idx :: orders_from (idx + 1) n.
Proof.
  unfold orders_from. rewrite map_seq_succ. f_equal; [cbn; lia |].
  apply map_ext. intros i. lia.
Qed.

Lemma flags_from_succ (correct_index idx : Z) (n : nat) :
  flags_from correct_index idx (S n)
  = (if idx =? correct_index then 1 else 0)
    :: flags_from correct_index (idx + 1) n.
Proof.
  unfold flags_from. rewrite map_seq_succ. f_equal.
  - now replace (idx + Z.of_nat 0) with idx by (cbn; lia).
  - apply map_ext. intros i.
    now replace (idx + Z.of_nat (S i)) with (idx + 1 + Z.of_nat i) by lia.
Qed.

(** When the loop returns, it has added one choice row per choice text,
    after the rows that were there, and nothing else has changed. *)
Lemma insert_choices_inr (qid correct_index : Z) (choices : list string) :
  forall idx c c' u,
    insert_choices qid correct_index idx choices c = (inr u, c') ->
    exists new,
      choice_rows (view c') = (choice_rows (view c) ++ new)%list /\
      Forall (fun r => c_question_id r = qid) new /\
      map c_choice_text new = choices /\
      map c_choice_order new = orders_from idx (List.length choices) /\
      map c_is_correct new
      = flags_from correct_index idx (List.length choices) /\
      trivia_questions (view c') = trivia_questions (view c) /\
      app_info (view c') = app_info (view c) /\
      users (view c') = users (view c) /\
      disk c' = disk c.
Proof.
  induction choices as [| choice_text rest IH]; intros idx c c' u H.
  - cbn in H. inversion H; subst. exists []. rewrite app_nil_r.
    repeat split; constructor.
  - cbn [insert_choices] in H. unfold bind in H.
    destruct (execute_dml _ c) as [[e | u1] c1] eqn:Hd; [discriminate |].
    apply execute_dml_inr in Hd. destruct Hd as (Hs & Hdisk & _).
    apply insert_choice_inr in Hs. destruct Hs as (t & id & Ht & Hv).
    apply IH in H.
    destruct H as (new & Hrows & Hq & Htxt & Hord & Hflag & Htq & Ha & Hu
                   & Hdk).
    exists (mk_choice id qid choice_text idx
              (if idx =? correct_index then 1 else 0) (clock c) :: new).
    rewrite Hrows, Htq, Ha, Hu, Hdk, Hv.
    unfold choice_rows. rewrite Ht. cbn [List.length map].
    rewrite orders_from_succ, flags_from_succ, Hord, Hflag, Htxt.
    cbn. rewrite <- app_assoc. repeat split; auto.
Qed.

Lemma list_max_bound (l : list Z) (v : Z) :
  list_max l = Some v -> Forall (fun x => x <= v) l.
Proof.
  destruct l as [| x l]; [discriminate |]. cbn. intros H. injection H as <-.
  assert (G : forall l a, a <= fold_left Z.max l a /\
                          Forall (fun y => y <= fold_left Z.max l a) l).
  { clear. induction l as [| y l IH]; intros a; cbn.
    - split; [lia | constructor].
    - destruct (IH (Z.max a y)) as [H1 H2]. split; [lia |].
      constructor; [lia | exact H2]. }
  destruct (G l x) as [H1 H2]. now constructor.
Qed.

(** A rowid that the engine allocates is above every rowid in the table. *)
Lemma new_rowid_fresh {R : Type} (rowid : R -> Z) (t : table R) (id : Z) :
  new_rowid rowid t = inr id -> Forall (fun r => rowid r < id) (rows t).
Proof.
  unfold new_rowid.
  destruct (list_max (map rowid (rows t))) as [v |] eqn:Hm.
  - destruct (_ || _); [discriminate |]. intros H. injection H as <-.
    apply list_max_bound in Hm. rewrite Forall_map in Hm.
    eapply Forall_impl; [| exact Hm]. cbn. intros r Hr. lia.
  - destruct (rows t); [constructor | discriminate].
Qed.

Lemma find_absent_app (code : string) (l : list question_row)
    (q : question_row) :
  existsb (has_code code) l = false ->
  has_code code q = true ->
  find (has_code code) (l ++ [q]) = Some q.
Proof.
  induction l as [| x l IH]; cbn; intros H Hq.
  - now rewrite Hq.
  - apply orb_false_iff in H. destruct H as [-> H]. now apply IH.
Qed.

(** What the seeder has added when it returns on a code that was not
    there. *)
Lemma insert_question_with_choices_inr (c c' : connection)
    (code question_text : string) (choices : list string) (correct_index : Z)
    (category difficulty explanation : option string) :
  code_exists code (view c) = false ->
  _insert_question_with_choices code question_text choices correct_index
    category difficulty explanation c = (inr tt, c') ->
  exists q new,
    question_rows (view c') = (question_rows (view c) ++ [q])%list /\
    q_code q = code /\
    q_question_text q = question_text /\
    q_category q = category /\
    q_difficulty q = difficulty /\
    q_explanation q = explanation /\
    Forall (fun r => q_id r < q_id q) (question_rows (view c)) /\
    choice_rows (view c') = (choice_rows (view c) ++ new)%list /\
    Forall (fun r => c_question_id r = q_id q) new /\
    map c_choice_order new = expected_orders (List.length choices) /\
    map c_choice_text new = choices /\
    map c_is_correct new
    = expected_flags correct_index (List.length choices) /\
    disk c' = disk c.
Proof.
  intros Habs H.
  unfold _insert_question_with_choices, _question_exists, bind in H.
  destruct (execute_query (select_1_by_code code) c) as [[e | row] c1]
    eqn:Hq; [discriminate |].
  apply execute_query_inr in Hq. destruct Hq as (Hsel & Hd1 & Ht1 & _).
  cbn [ret] in H.
  rewrite (Idempotence.select_1_found _ _ _ Hsel), Habs in H.
  destruct (execute_dml _ c1) as [[e | u] c2] eqn:Hi; [discriminate |].
  apply execute_dml_inr in Hi. destruct Hi as (Hins & Hd2 & _).
  rewrite (view_of _ _ Hd1 Ht1) in Hins.
  apply insert_question_inr in Hins.
  destruct Hins as (t & id & Htq & Hid & Hno & Hv2).
  destruct (execute_query (select_id_by_code code) c2) as [[e | row2] c3]
    eqn:Hq2; [discriminate |].
  apply execute_query_inr in Hq2. destruct Hq2 as (Hsel2 & Hd3 & Ht3 & _).
  rewrite Hv2 in Hsel2. unfold select_id_by_code in Hsel2. cbn in Hsel2.
  rewrite find_absent_app in Hsel2;
    [| exact Hno | unfold has_code; cbn; apply String.eqb_refl].
  cbn in Hsel2. injection Hsel2 as <-.
  apply insert_choices_inr in H.
  destruct H as (new & Hrows & Hqid & Htxt & Hord & Hflag & Htq' & _ & _
                 & Hdk).
  rewrite (view_of _ _ Hd3 Ht3) in Hrows, Htq'.
  exists (mk_question id code question_text category difficulty explanation
            (clock c1) (clock c1)), new.
  unfold question_rows. rewrite Htq', Hv2, Htq. cbn.
  rewrite Hrows, Hv2. unfold choice_rows at 2. cbn.
  fold (choice_rows (view c)).
  repeat split; auto.
  - apply (new_rowid_fresh _ _ _ Hid).
  - congruence.
Qed.

(** X1.  The seeder on a code that no question row has: when it returns,
    one question row has been added at the end of the table, with the
    entry's code, text and metadata and an id above every id that was
    there; one choice row per choice text has been added after the choice
    rows that were there, each pointing to the new question, with the
    orders 0..n-1, the texts in list order, and the flag 1 exactly at the
    correct index; nothing has been committed. *)
Theorem new_code_is_seeded (c c' : connection)
    (code question_text : string) (choices : list string) (correct_index : Z)
    (category difficulty explanation : option string) :
  code_exists code (view c) = false ->
  _insert_question_with_choices code question_text choices correct_index
    category difficulty explanation c = (inr tt, c') ->
  exists q new,
    question_rows (view c') = (question_rows (view c) ++ [q])%list /\
    q_code q = code /\
    q_question_text q = question_text /\
    q_category q = category /\
    q_difficulty q = difficulty /\
    q_explanation q = explanation /\
    Forall (fun r => q_id r < q_id q) (question_rows (view c)) /\
    choice_rows (view c') = (choice_rows (view c) ++ new)%list /\
    Forall (fun r => c_question_id r = q_id q) new /\
    map c_choice_order new = expected_orders (List.length choices) /\
    map c_choice_text new = choices /\
    map c_is_correct new
    = expected_flags correct_index (List.length choices) /\
    disk c' = disk c.
Proof. apply insert_question_with_choices_inr. Qed.

Lemma new_code_is_seeded_witness :
  let c := mk_connection
             (snd (run_database empty_database "2026-01-01 00:00:00" None))
             None "2026-02-02 00:00:00" None in
  let run := _insert_question_with_choices "NEW_001" "Two plus two?"
               ["3"; "4"; "5"] 1 (Some "Math") None None c in
  code_exists "NEW_001" (view c) = false /\
  fst run = inr tt /\
  disk (snd run) = disk c.
Proof.
  intros c run.
  assert (H1 : code_exists "NEW_001" (view c) = false)
    by (vm_compute; reflexivity).
  assert (H2 : _insert_question_with_choices "NEW_001" "Two plus two?"
                 ["3"; "4"; "5"] 1 (Some "Math") None None c
               = (inr tt, snd run)) by (vm_compute; reflexivity).
  split; [exact H1 |]. split; [vm_compute; reflexivity |].
  destruct (new_code_is_seeded _ _ _ _ _ _ _ _ _ H1 H2)
    as (q & new & _ & _ & _ & _ & _ & _ & _ & _ & _ & _ & _ & _ & Hdisk).
  exact Hdisk.
Defined.

(** *** The seeder and the transaction *)

(** [m] leaves the committed state alone, and an open transaction open. *)
Definition writes_no_file {A : Type} (m : M A) : Prop :=
  forall c,
    disk (snd (m c)) = disk c /\
    (txn c <> None -> txn (snd (m c)) <> None).

Lemma writes_no_file_ret {A : Type} (a : A) : writes_no_file (ret a).
Proof. intros c. cbn. now split. Qed.

Lemma writes_no_file_raise {A : Type} (e : exn) :
  writes_no_file (@raise A e).
Proof. intros c. cbn. now split. Qed.

Lemma writes_no_file_bind {A B : Type} (m : M A) (k : A -> M B) :
  writes_no_file m -> (forall a, writes_no_file (k a)) ->
  writes_no_file (bind m k).
Proof.
  intros Hm Hk c. unfold bind. specialize (Hm c).
  destruct (m c) as [[e | a] c1]; cbn in *; [exact Hm |].
  destruct Hm as [Hd Ht]. destruct (Hk a c1) as [Hd' Ht'].
  split; [congruence | auto].
Qed.

Lemma writes_no_file_step : writes_no_file step_engine.
Proof.
  intros c. unfold step_engine.
  destruct (fault_after c) as [[| n] |]; cbn; now split.
Qed.

Lemma writes_no_file_query {A : Type} (q : database -> exn + A) :
  writes_no_file (execute_query q).
Proof.
  unfold execute_query. apply writes_no_file_bind;
    [apply writes_no_file_step |].
  intros _ c. cbn. now split.
Qed.

Lemma writes_no_file_dml (s : string -> database -> exn + database) :
  writes_no_file (execute_dml s).
Proof.
  unfold execute_dml. apply writes_no_file_bind;
    [apply writes_no_file_step |].
  intros _ c. destruct (s (clock c) (view c)); cbn; split; auto;
    discriminate.
Qed.

Lemma writes_no_file_insert_choices (qid correct_index : Z)
    (choices : list string) :
  forall idx, writes_no_file (insert_choices qid correct_index idx choices).
Proof.
  induction choices as [| choice_text rest IH]; intros idx; cbn.
  - apply writes_no_file_ret.
  - apply writes_no_file_bind; [apply writes_no_file_dml |].
    intros _. apply IH.
Qed.

Lemma writes_no_file_insert_question (code question_text : string)
    (choices : list string) (correct_index : Z)
    (category difficulty explanation : option string) :
  writes_no_file
    (_insert_question_with_choices code question_text choices correct_index
       category difficulty explanation).
Proof.
  unfold _insert_question_with_choices, _question_exists.
  apply writes_no_file_bind.
  - apply writes_no_file_bind; [apply writes_no_file_query |].
    intros row. apply writes_no_file_ret.
  - intros [|]; [apply writes_no_file_ret |].
    apply writes_no_file_bind; [apply writes_no_file_dml |]. intros _.
    apply writes_no_file_bind; [apply writes_no_file_query |].
    intros [qid |];
      [apply writes_no_file_insert_choices | apply writes_no_file_raise].
Qed.

(** X2.  The seeder never commits.  Whatever the catalog and the state of
    the connection, and whether the loop returns or raises, the committed
    state of the file after [seed_all] is the one before it; a transaction
    that was open is still open.  What the seeder inserts reaches the file
    only through the [commit] of its caller. *)
Theorem seeder_never_commits (catalog : list seed_entry) (c : connection) :
  disk (snd (seed_all catalog c)) = disk c /\
  (txn c <> None -> txn (snd (seed_all catalog c)) <> None).
Proof.
  revert c. change (writes_no_file (seed_all catalog)).
  induction catalog as [| e rest IH]; cbn.
  - apply writes_no_file_ret.
  - apply writes_no_file_bind; [| intros _; exact IH].
    destruct e as [[[[[[code qt] choices] ci] cat] dif] ex].
    apply writes_no_file_insert_question.
Qed.

(** *** The exceptions of the seeder *)

(** The exceptions the engine raises by itself, and the violation of
    UNIQUE (question_id, choice_order). *)
Definition seeder_error (e : exn) : Prop :=
  match e with
  | OperationalError _ => True
  | IntegrityError m =>
      m = "UNIQUE constraint failed: trivia_choices.question_id, trivia_choices.choice_order"
  | _ => False
  end.

Lemma new_rowid_inl {R : Type} (rowid : R -> Z) (t : table R) (e : exn) :
  new_rowid rowid t = inl e ->
  e = OperationalError "database or disk is full".
Proof.
  unfold new_rowid. destruct (list_max _).
  - destruct (_ || _); intros H; now inversion H.
  - destruct (_ >=? _); intros H; now inversion H.
Qed.

Lemma insert_choices_inl (qid correct_index : Z) (choices : list string) :
  forall idx c c' e,
    (exists qt, trivia_questions (view c) = Some qt /\
                existsb (fun q => q_id q =? qid) (rows qt) = true) ->
    insert_choices qid correct_index idx choices c = (inl e, c') ->
    seeder_error e.
Proof.
  induction choices as [| choice_text rest IH]; intros idx c c' e Hq H.
  - discriminate.
  - cbn [insert_choices] in H. unfold bind in H.
    destruct (execute_dml _ c) as [[e1 | u1] c1] eqn:Hd.
    + inversion H; subst e1 c1. apply execute_dml_inl in Hd.
      destruct Hd as [[-> | Hs] _]; [exact I |].
      destruct Hq as (qt & Hqt & Hex). unfold insert_choice in Hs.
      rewrite Hqt, Hex in Hs.
      destruct (trivia_choices (view c)) as [t |];
        [| inversion Hs; exact I].
      destruct (new_rowid c_id t) as [e1 | id] eqn:Hid.
      * apply new_rowid_inl in Hid. inversion Hs; subst. exact I.
      * destruct (existsb _ (rows t)); inversion Hs. reflexivity.
    + apply execute_dml_inr in Hd. destruct Hd as (Hs & _ & _).
      apply insert_choice_inr in Hs. destruct Hs as (t & id & _ & Hv).
      apply (IH (idx + 1) c1 c' e); [| exact H].
      rewrite Hv. exact Hq.
Qed.

Lemma insert_question_with_choices_inl (code question_text : string)
    (choices : list string) (correct_index : Z)
    (category difficulty explanation : option string)
    (c c' : connection) (e : exn) :
  _insert_question_with_choices code question_text choices correct_index
    category difficulty explanation c = (inl e, c') ->
  seeder_error e.
Proof.
  intros H.
  unfold _insert_question_with_choices, _question_exists, bind in H.
  destruct (execute_query (select_1_by_code code) c) as [[e1 | row] c1]
    eqn:Hq.
  { inversion H; subst. apply execute_query_inl in Hq.
    destruct Hq as [[-> | Hs] _]; [exact I |].
    unfold select_1_by_code in Hs.
    destruct (trivia_questions (view c)); inversion Hs. exact I. }
  apply execute_query_inr in Hq. destruct Hq as (Hsel & Hd1 & Ht1 & _).
  cbn [ret] in H. rewrite (Idempotence.select_1_found _ _ _ Hsel) in H.
  destruct (code_exists code (view c)) eqn:Habs; [discriminate |].
  destruct (execute_dml _ c1) as [[e1 | u] c2] eqn:Hi.
  { inversion H; subst. apply execute_dml_inl in Hi.
    destruct Hi as [[-> | Hs] _]; [exact I |].
    rewrite (view_of _ _ Hd1 Ht1) in Hs. unfold insert_question in Hs.
    unfold code_exists, question_rows in Habs.
    destruct (trivia_questions (view c)) as [t |];
      [| inversion Hs; exact I].
    destruct (new_rowid q_id t) as [e1 | id] eqn:Hid.
    - apply new_rowid_inl in Hid. inversion Hs; subst. exact I.
    - rewrite Habs in Hs. discriminate. }
  apply execute_dml_inr in Hi. destruct Hi as (Hins & Hd2 & _).
  rewrite (view_of _ _ Hd1 Ht1) in Hins.
  apply insert_question_inr in Hins.
  destruct Hins as (t & id & Htq & Hid & Hno & Hv2).
  destruct (execute_query (select_id_by_code code) c2) as [[e1 | row2] c3]
    eqn:Hq2.
  { inversion H; subst. apply execute_query_inl in Hq2.
    destruct Hq2 as [[-> | Hs] _]; [exact I |].
    rewrite Hv2 in Hs. discriminate. }
  apply execute_query_inr in Hq2. destruct Hq2 as (Hsel2 & Hd3 & Ht3 & _).
  rewrite Hv2 in Hsel2. unfold select_id_by_code in Hsel2. cbn in Hsel2.
  rewrite find_absent_app in Hsel2;
    [| exact Hno | unfold has_code; cbn; apply String.eqb_refl].
  cbn in Hsel2. injection Hsel2 as <-.
  apply (insert_choices_inl id correct_index choices 0 c3 c' e);
    [| exact H].
  rewrite (view_of _ _ Hd3 Ht3), Hv2. cbn.
  eexists. split; [reflexivity |].
  cbn [rows]. rewrite existsb_app. cbn. rewrite Z.eqb_refl.
  now rewrite orb_true_r.
Qed.

(** X5.  The exceptions of the seeder.  Whatever the catalog and the
    database, when seeding raises, the exception is one the engine raises
    by itself (a missing table, a refused statement, an exhausted rowid) or
    the violation of UNIQUE (question_id, choice_order) by a choice row that
    was there before.  Three failures the statements could produce never
    occur: the UNIQUE constraint on [code] (the code is looked up first),
    the subscript of a missing row (the id is read back from the row just
    inserted), and the foreign key of a choice (that id is its parent). *)
Theorem seeder_exceptions (catalog : list seed_entry) (c : connection) :
  match fst (seed_all catalog c) with
  | inl e => seeder_error e
  | inr _ => True
  end.
Proof.
  revert c. induction catalog as [| entry rest IH]; intros c; cbn.
  - exact I.
  - unfold bind.
    destruct (seed_one entry c) as [[e | u] c1] eqn:H1; cbn.
    + destruct entry as [[[[[[code qt] choices] ci] cat] dif] ex].
      eapply insert_question_with_choices_inl, H1.
    + apply IH.
Qed.

(** X17.  Seeding needs the schema.  On a connection that sees no
    [trivia_questions] table, seeding a catalog that is not empty raises
    the engine's [no such table] error at its first SELECT (unless the
    engine refuses that statement first) and inserts nothing. *)
Theorem seeding_without_schema_raises (entry : seed_entry)
    (rest : list seed_entry) (c : connection) :
  trivia_questions (view c) = None ->
  fault_after c <> Some 0%nat ->
  fst (seed_all (entry :: rest) c)
  = inl (OperationalError "no such table: trivia_questions") /\
  view (snd (seed_all (entry :: rest) c)) = view c /\
  disk (snd (seed_all (entry :: rest) c)) = disk c.
Proof.
  intros Hq Hf.
  destruct entry as [[[[[[code qt] choices] ci] cat] dif] ex].
  cbn [seed_all seed_one].
  unfold bind at 1. unfold _insert_question_with_choices, _question_exists.
  unfold bind, execute_query, bind, step_engine, select_1_by_code.
  destruct (fault_after c) as [[| n] |] eqn:E; [congruence | |].
  - change (view (mk_connection (disk c) (txn c) (clock c) (Some n)))
      with (view c).
    rewrite Hq. cbn. repeat split.
  - rewrite Hq. cbn. repeat split.
Qed.

Lemma seeding_without_schema_raises_witness :
  let c := mk_connection empty_database None "2026-01-01 00:00:00" None in
  trivia_questions (view c) = None /\
  fst (seed_all starter_questions c)
  = inl (OperationalError "no such table: trivia_questions").
Proof.
  intros c. split; [reflexivity |].
  refine (proj1 (seeding_without_schema_raises _ _ c eq_refl _)).
  discriminate.
Defined.

End SeederFacts.

(** ** More on the schema manager and on a whole run *)

Module RunFacts.
Import Sql Conn InitDb Logic Seeding Idempotence SeederFacts.

Lemma sees_run {A : Type} (P : database -> Prop) (m : M A)
    (Q : A -> database -> Prop) (c c' : connection) (a : A) :
  sees P m Q -> P (view c) -> m c = (inr a, c') -> Q a (view c').
Proof.
  intros Hs HP Hm. specialize (Hs c HP). rewrite Hm in Hs. exact Hs.
Qed.

(** *** [_create_base_schema] *)

Lemma create_app_info_key_values (d d' : database) :
  create_app_info d = inr d' ->
  key_values d' = key_values d /\
  trivia_questions d' = trivia_questions d /\
  trivia_choices d' = trivia_choices d.
Proof.
  unfold create_app_info, key_values.
  destruct (app_info d) eqn:E; intros H; injection H as <-; cbn;
    rewrite ?E; repeat split.
Qed.

Lemma create_users_key_values (d d' : database) :
  create_users d = inr d' ->
  key_values d' = key_values d /\
  trivia_questions d' = trivia_questions d /\
  trivia_choices d' = trivia_choices d.
Proof.
  unfold create_users, key_values.
  destruct (users d) eqn:E; intros H; injection H as <-; cbn;
    repeat split.
Qed.

Lemma upsert_other_key (k v now k2 : string) (d d' : database) :
  k2 <> k ->
  insert_or_replace_app_info k (Some v) now d = inr d' ->
  filter (has_key k2) (key_values d') = filter (has_key k2) (key_values d).
Proof.
  intros Hne H. apply upsert_key_values in H. destruct H as [H _].
  assert (Hk : has_key k2 (k, Some v) = false).
  { unfold has_key. cbn. apply String.eqb_neq. congruence. }
  rewrite H, filter_app.
  change (filter (has_key k2) [(k, Some v)])
    with (if has_key k2 (k, Some v) then [(k, Some v)] else []).
  rewrite Hk, app_nil_r. apply filter_other.
  intros p. now apply has_key_other.
Qed.

(** The rows of [app_info] under a key that is none of the three, and the
    trivia tables. *)
Definition beside_metadata (k : string) (d0 d : database) : Prop :=
  filter (has_key k) (key_values d) = filter (has_key k) (key_values d0) /\
  trivia_questions d = trivia_questions d0 /\
  trivia_choices d = trivia_choices d0.

Lemma base_schema_beside_metadata (k : string) (d0 : database) :
  k <> "project_name" -> k <> "version" -> k <> "description" ->
  sees (beside_metadata k d0) _create_base_schema
    (fun _ => beside_metadata k d0).
Proof.
  intros H1 H2 H3. unfold _create_base_schema, beside_metadata.
  eapply sees_bind with (Q := fun _ => beside_metadata k d0).
  { apply sees_ddl. intros d d' (Ha & Hb & Hc) H.
    apply create_app_info_key_values in H.
    destruct H as (E1 & E2 & E3). unfold beside_metadata.
    now rewrite E1, E2, E3. }
  intros ?.
  eapply sees_bind with (Q := fun _ => beside_metadata k d0).
  { apply sees_ddl. intros d d' (Ha & Hb & Hc) H.
    apply create_users_key_values in H.
    destruct H as (E1 & E2 & E3). unfold beside_metadata.
    now rewrite E1, E2, E3. }
  intros ?.
  assert (Hup : forall k' v, k <> k' ->
            sees (beside_metadata k d0)
              (execute_dml (insert_or_replace_app_info k' (Some v)))
              (fun _ => beside_metadata k d0)).
  { intros k' v Hne. apply sees_dml. intros now d d' (Ha & Hb & Hc) H.
    unfold beside_metadata.
    rewrite (upsert_other_key _ _ _ _ _ _ Hne H).
    apply upsert_key_values in H. destruct H as (_ & _ & E2 & E3 & _).
    now rewrite E2, E3. }
  eapply sees_bind with (Q := fun _ => beside_metadata k d0);
    [now apply Hup | intros ?].
  eapply sees_bind with (Q := fun _ => beside_metadata k d0);
    [now apply Hup | intros ?].
  now apply Hup.
Qed.

(** X3.  [_create_base_schema] upserts by key.  When it returns, whatever
    the database held, each of the keys [project_name], [version] and
    [description] is held by exactly one row of [app_info], with the value
    the script writes (a stale value has been replaced, duplicates do not
    arise); the rows under every other key are the ones that were there, in
    the same order; the [users] table exists; the trivia tables are as they
    were. *)
Theorem base_schema_upserts (c c' : connection) :
  _create_base_schema c = (inr tt, c') ->
  holds_once "project_name" "interactive-trivia-challenge" (view c') /\
  holds_once "version" "0.2.0" (view c') /\
  holds_once "description"
    "SQLite DB for interactive trivia questions and sessions." (view c') /\
  users (view c') <> None /\
  (forall k, k <> "project_name" -> k <> "version" -> k <> "description" ->
     filter (has_key k) (key_values (view c'))
     = filter (has_key k) (key_values (view c))) /\
  trivia_questions (view c') = trivia_questions (view c) /\
  trivia_choices (view c') = trivia_choices (view c).
Proof.
  intros H.
  pose proof (sees_run _ _ _ c c' tt base_schema_sees I H) as [Hm Hu].
  destruct Hm as (M1 & M2 & M3).
  assert (Hb : forall k, k <> "project_name" -> k <> "version" ->
                 k <> "description" -> beside_metadata k (view c) (view c')).
  { intros k K1 K2 K3.
    apply (sees_run _ _ _ c c' tt
             (base_schema_beside_metadata k (view c) K1 K2 K3));
      [now repeat split | exact H]. }
  repeat split; auto.
  - intros k K1 K2 K3. apply (Hb k K1 K2 K3).
  - apply (Hb "other"); discriminate.
  - apply (Hb "other"); discriminate.
Qed.

Lemma base_schema_upserts_witness :
  let d := set_app_info
             (mk_table [mk_app_info 1 "version" (Some "0.1.0") "2025-06-01";
                        mk_app_info 2 "owner" (Some "quiz team") "2025-06-01"]
                2) empty_database in
  let c := mk_connection d None "2026-01-01 00:00:00" None in
  _create_base_schema c = (inr tt, snd (_create_base_schema c)) /\
  holds_once "version" "0.2.0" (view (snd (_create_base_schema c))) /\
  filter (has_key "owner") (key_values (view (snd (_create_base_schema c))))
  = [("owner", Some "quiz team")].
Proof.
  intros d c.
  assert (H : _create_base_schema c = (inr tt, snd (_create_base_schema c)))
    by (vm_compute; reflexivity).
  split; [exact H |].
  destruct (base_schema_upserts c _ H) as (_ & Hv & _ & _ & Hk & _).
  split; [exact Hv |].
  rewrite Hk by discriminate. reflexivity.
Defined.

(** *** [_create_trivia_schema] *)

(** A table of the first database is in the second with the same rows; a
    table the first did not have is absent or empty in the second. *)
Definition kept_or_new {R : Type} (o o' : option (table R)) : Prop :=
  match o with
  | Some t => o' = Some t
  | None => o' = None \/ o' = Some empty_table
  end.

Definition keeps_rows (d d' : database) : Prop :=
  app_info d' = app_info d /\
  users d' = users d /\
  kept_or_new (trivia_questions d) (trivia_questions d') /\
  kept_or_new (trivia_choices d) (trivia_choices d').

Lemma kept_or_new_refl {R : Type} (o : option (table R)) : kept_or_new o o.
Proof. destruct o; cbn; auto. Qed.

Lemma keeps_rows_refl (d : database) : keeps_rows d d.
Proof. repeat split; apply kept_or_new_refl. Qed.

(** [K] holds of the database as seen through the connection after [m],
    whether [m] returns or raises. *)
Definition always {A : Type} (K : database -> Prop) (m : M A) : Prop :=
  triple (fun dk tx => K (seen dk tx)) m
    (fun _ dk tx => K (seen dk tx)) (fun dk tx => K (seen dk tx)).

Lemma always_ddl (K : database -> Prop) (s : database -> exn + database) :
  (forall d d', K d -> s d = inr d' -> K d') -> always K (execute_ddl s).
Proof.
  intros H. unfold always.
  apply (triple_ddl s _ (fun dk tx => K (seen dk tx))); cbn; eauto.
Qed.

Lemma always_bind {A B : Type} (K : database -> Prop) (m : M A)
    (k : A -> M B) :
  always K m -> (forall a, always K (k a)) -> always K (bind m k).
Proof. intros Hm Hk. eapply triple_bind; [exact Hm | exact Hk]. Qed.

Lemma always_run {A : Type} (K : database -> Prop) (m : M A)
    (c : connection) :
  always K m -> K (view c) -> K (view (snd (m c))).
Proof.
  intros Hm HK. specialize (Hm c HK).
  destruct (m c) as [[e | a] c']; exact Hm.
Qed.

Lemma trivia_schema_keeps_rows (d0 : database) :
  always (keeps_rows d0) _create_trivia_schema.
Proof.
  unfold _create_trivia_schema.
  apply always_bind; [| intros _; apply always_bind;
                        [| intros _; apply always_bind; [| intros _]]];
    apply always_ddl; intros d d' HK H.
  - unfold create_trivia_questions in H.
    destruct (trivia_questions d) eqn:E; injection H as <-; [exact HK |].
    destruct HK as (Ha & Hu & Hq & Hc). unfold keeps_rows. cbn.
    repeat split; auto. rewrite E in Hq.
    destruct (trivia_questions d0); cbn in *; [congruence | now right].
  - unfold create_trivia_choices in H.
    destruct (trivia_choices d) eqn:E; injection H as <-; [exact HK |].
    destruct HK as (Ha & Hu & Hq & Hc). unfold keeps_rows. cbn.
    repeat split; auto. rewrite E in Hc.
    destruct (trivia_choices d0); cbn in *; [congruence | now right].
  - unfold create_idx_choices in H.
    destruct (idx_trivia_choices_question_id d);
      [injection H as <-; exact HK |].
    destruct (trivia_choices d); [| discriminate].
    injection H as <-. exact HK.
  - unfold create_idx_category in H.
    destruct (idx_trivia_questions_category d);
      [injection H as <-; exact HK |].
    destruct (trivia_questions d); [| discriminate].
    injection H as <-. exact HK.
Qed.

(** X4.  [_create_trivia_schema] only creates.  Whether it returns or
    raises, the database the connection then sees has [app_info] and
    [users] as they were, and each trivia table that existed with the rows
    it had; a trivia table that did not exist is absent or empty.  When it
    returns, both trivia tables and both indexes exist. *)
Theorem trivia_schema_only_creates (c : connection) :
  keeps_rows (view c) (view (snd (_create_trivia_schema c))) /\
  (fst (_create_trivia_schema c) = inr tt ->
   trivia_questions (view (snd (_create_trivia_schema c))) <> None /\
   trivia_choices (view (snd (_create_trivia_schema c))) <> None /\
   idx_trivia_choices_question_id (view (snd (_create_trivia_schema c)))
   = true /\
   idx_trivia_questions_category (view (snd (_create_trivia_schema c)))
   = true).
Proof.
  split.
  - apply always_run; [apply trivia_schema_keeps_rows | apply keeps_rows_refl].
  - intros H.
    destruct (_create_trivia_schema c) as [r c'] eqn:Hc. cbn in H. subst r.
    pose proof (fun K HK => sees_run _ _ _ c c' tt
                              (trivia_schema_upward K HK)) as Hs.
    specialize (Hs (fun _ => True)). cbn in Hs.
    apply Hs; auto. intros d d' _ _. exact I.
Qed.

(** *** A whole run *)

Lemma triple_both {A : Type} (P : assertion) (m : M A)
    (Q1 Q2 : A -> assertion) (E1 E2 : assertion) :
  triple P m Q1 E1 -> triple P m Q2 E2 ->
  triple P m (fun a dk tx => Q1 a dk tx /\ Q2 a dk tx)
    (fun dk tx => E1 dk tx /\ E2 dk tx).
Proof.
  intros H1 H2 c Hc. specialize (H1 c Hc). specialize (H2 c Hc).
  destruct (m c) as [[e | a] c']; now split.
Qed.

(** The statistics after a commit are the row counts of the file. *)
Lemma statistics_of_file :
  triple (fun dk tx => initialized dk /\ tx = None) statistics
    (fun r dk tx =>
       initialized dk /\
       r = (4, Z.of_nat (row_count (trivia_questions dk)),
            Z.of_nat (row_count (trivia_choices dk))))
    (fun dk tx => initialized dk).
Proof.
  unfold statistics.
  eapply triple_bind with
    (Q := fun a dk tx => (initialized dk /\ tx = None) /\ a = 4).
  { apply triple_query; [tauto |].
    intros dk tx a [Hi ->] H. split; [split; [exact Hi | reflexivity] |].
    cbn in H. unfold count_tables in H.
    destruct Hi as ((Hm & _) & Hu & Hq & Hc & _).
    apply holds_once_app_info in Hm.
    destruct (app_info dk); [| contradiction].
    destruct (users dk); [| contradiction].
    destruct (trivia_questions dk); [| contradiction].
    destruct (trivia_choices dk); [| contradiction].
    cbn in H. now injection H as <-. }
  intros a.
  eapply triple_bind with
    (Q := fun q dk tx => ((initialized dk /\ tx = None) /\ a = 4) /\
                         q = Z.of_nat (row_count (trivia_questions dk))).
  { apply triple_query; [tauto |].
    intros dk tx q [[Hi ->] Ha] H.
    split; [split; [split; [exact Hi | reflexivity] | exact Ha] |].
    cbn in H. unfold count_questions in H.
    destruct (trivia_questions dk); [| discriminate].
    now injection H as <-. }
  intros q.
  eapply triple_bind with
    (Q := fun n dk tx =>
            (((initialized dk /\ tx = None) /\ a = 4) /\
             q = Z.of_nat (row_count (trivia_questions dk))) /\
            n = Z.of_nat (row_count (trivia_choices dk))).
  { apply triple_query; [tauto |].
    intros dk tx n [[[Hi ->] Ha] Hq] H.
    split; [split; [split; [split; [exact Hi | reflexivity] | exact Ha]
                   | exact Hq] |].
    cbn in H. unfold count_choices in H.
    destruct (trivia_choices dk); [| discriminate].
    now injection H as <-. }
  intros n. apply triple_ret.
  intros dk tx [[[[Hi _] ->] ->] ->]. split; [exact Hi | reflexivity].
Qed.

Lemma run_outcomes (d : database) :
  triple (fun dk tx => dk = d /\ tx = None) (initialize ;; statistics)
    (fun r dk tx =>
       initialized dk /\
       r = (4, Z.of_nat (row_count (trivia_questions dk)),
            Z.of_nat (row_count (trivia_choices dk))))
    (fun dk tx => Atomicity.before_commit d dk \/ initialized dk).
Proof.
  eapply triple_bind with
    (Q := fun _ dk tx => initialized dk /\ tx = None).
  - assert (He : triple (fun dk tx => dk = d /\ tx = None) initialize
                   (fun _ dk tx => initialized dk /\ tx = None)
                   (fun _ _ => True)).
    { eapply triple_weaken with (1 := initialize_establishes); auto. }
    pose proof (triple_both _ _ _ _ _ _
                  (Atomicity.initialize_before_commit d) He) as Hb.
    eapply triple_weaken with (1 := Hb).
    + auto.
    + cbn. tauto.
    + cbn. unfold Atomicity.on_disk. tauto.
  - intros _. eapply triple_weaken with (1 := statistics_of_file); auto.
Qed.

(** X6.  The numbers a run reports.  When the database part of [main]
    returns, the file holds an initialized database (the three metadata
    rows, the four tables, the two indexes, every code of the catalog), and
    the question and choice counts it returns, which [main] prints, are the
    row counts of the two trivia tables in the file. *)
Theorem reported_counts_are_committed (d : database) (now : string)
    (faults : option nat) (table_count q_count c_count : Z) (d' : database) :
  run_database d now faults = (inr (table_count, q_count, c_count), d') ->
  initialized d' /\
  q_count = Z.of_nat (row_count (trivia_questions d')) /\
  c_count = Z.of_nat (row_count (trivia_choices d')).
Proof.
  unfold run_database, with_connection.
  destruct (_connect d now faults) as [e | c] eqn:Hc; [discriminate |].
  apply Atomicity.connect_fresh in Hc.
  pose proof (run_outcomes d c Hc) as H.
  destruct ((initialize ;; statistics) c) as [[e | r] c'];
    intros H'; inversion H'; subst.
  destruct H as [Hi Hr]. injection Hr as _ -> ->.
  split; [exact Hi |]. split; reflexivity.
Qed.

Lemma reported_counts_are_committed_witness :
  run_database empty_database "2026-01-01 00:00:00" None
  = (inr (4, 6, 24),
     snd (run_database empty_database "2026-01-01 00:00:00" None)) /\
  6 = Z.of_nat (row_count (trivia_questions
        (snd (run_database empty_database "2026-01-01 00:00:00" None)))).
Proof.
  assert (H : run_database empty_database "2026-01-01 00:00:00" None
              = (inr (4, 6, 24),
                 snd (run_database empty_database "2026-01-01 00:00:00"
                        None))) by (vm_compute; reflexivity).
  split; [exact H |].
  exact (proj1 (proj2 (reported_counts_are_committed _ _ _ _ _ _ _ H))).
Defined.

(** *** The whole transaction *)

(** The entry is in the database whole: a question row with its code and
    text, and for each position of its choice list a choice row of that
    question with the text, the order and the flag of the position. *)
Definition seeded_whole (e : seed_entry) (d : database) : Prop :=
  let '(code, question_text, choices, correct_index, _, _, _) := e in
  exists q,
    In q (question_rows d) /\
    q_code q = code /\
    q_question_text q = question_text /\
    forall i choice_text,
      nth_error choices i = Some choice_text ->
      exists r,
        In r (choice_rows d) /\
        c_question_id r = q_id q /\
        c_choice_order r = Z.of_nat i /\
        c_choice_text r = choice_text /\
        c_is_correct r = (if Z.of_nat i =? correct_index then 1 else 0).

(** The trivia rows of [d] are in [d'], in the same order, before any other
    row. *)
Definition grows (d d' : database) : Prop :=
  (exists qs, question_rows d' = (question_rows d ++ qs)%list) /\
  (exists cs, choice_rows d' = (choice_rows d ++ cs)%list).

(** What the whole transaction makes of [d0]. *)
Definition whole_run (d0 d : database) : Prop :=
  grows d0 d /\
  forall e, In e starter_questions ->
    code_exists (code_of e) d0 = true \/ seeded_whole e d.

Definition same_rows (d0 d : database) : Prop :=
  question_rows d = question_rows d0 /\ choice_rows d = choice_rows d0.

Lemma grows_refl (d : database) : grows d d.
Proof. split; exists []; now rewrite app_nil_r. Qed.

Lemma grows_trans (d1 d2 d3 : database) :
  grows d1 d2 -> grows d2 d3 -> grows d1 d3.
Proof.
  intros [[q1 H1] [c1 G1]] [[q2 H2] [c2 G2]]. split.
  - exists (q1 ++ q2)%list. now rewrite H2, H1, app_assoc.
  - exists (c1 ++ c2)%list. now rewrite G2, G1, app_assoc.
Qed.

Lemma seeded_whole_grows (e : seed_entry) (d d' : database) :
  seeded_whole e d -> grows d d' -> seeded_whole e d'.
Proof.
  destruct e as [[[[[[code qt] choices] ci] cat] dif] ex].
  intros (q & Hq & Hc & Ht & Hch) [[qs Hqs] [cs Hcs]].
  exists q. rewrite Hqs. repeat split; auto.
  - apply in_or_app. now left.
  - intros i text Hi. destruct (Hch i text Hi) as (r & Hr & Hrest).
    exists r. rewrite Hcs. split; [apply in_or_app; now left | exact Hrest].
Qed.

(** A triple for every state the statements can start from. *)
Lemma sees_from {A : Type} (P : database -> Prop) (m : M A)
    (Q : A -> database -> Prop) :
  (forall d1, P d1 -> sees (fun d => d = d1) m Q) -> sees P m Q.
Proof. intros H c Hc. apply (H _ Hc c). reflexivity. Qed.

(** The seeder on one entry, from the database [d1]. *)
Definition seeded_from (e : seed_entry) (d1 d2 : database) : Prop :=
  grows d1 d2 /\
  (code_exists (code_of e) d1 = true \/ seeded_whole e d2) /\
  forall code, code <> code_of e ->
    code_exists code d2 = code_exists code d1.

Lemma existing_code_returns (c c' : connection)
    (code question_text : string) (choices : list string) (correct_index : Z)
    (category difficulty explanation : option string) :
  code_exists code (view c) = true ->
  _insert_question_with_choices code question_text choices correct_index
    category difficulty explanation c = (inr tt, c') ->
  view c' = view c.
Proof.
  intros Hex H.
  unfold _insert_question_with_choices, _question_exists, bind in H.
  destruct (execute_query (select_1_by_code code) c) as [[e | row] c1]
    eqn:Hq; [discriminate |].
  apply execute_query_inr in Hq. destruct Hq as (Hsel & Hd1 & Ht1 & _).
  cbn [ret] in H.
  rewrite (Idempotence.select_1_found _ _ _ Hsel), Hex in H.
  injection H as <-. now apply view_of.
Qed.

Lemma seed_one_from (e : seed_entry) (d1 : database) :
  sees (fun d => d = d1) (seed_one e) (fun _ d2 => seeded_from e d1 d2).
Proof.
  intros c Hc. unfold holds in Hc. rewrite <- view_seen in Hc.
  destruct (seed_one e c) as [[err | []] c'] eqn:H; [exact I |].
  unfold holds. rewrite <- view_seen. subst d1.
  destruct e as [[[[[[code qt] choices] ci] cat] dif] ex].
  cbn [seed_one] in H. unfold seeded_from. cbn [code_of].
  destruct (code_exists code (view c)) eqn:Hex.
  - rewrite (existing_code_returns _ _ _ _ _ _ _ _ _ Hex H).
    split; [apply grows_refl |]. split; [now left | reflexivity].
  - destruct (insert_question_with_choices_inr _ _ _ _ _ _ _ _ _ Hex H)
      as (q & new & Hq & Hcode & Htext & _ & _ & _ & _ & Hch & Hqid & Hord
          & Htxt & Hflag & _).
    split; [split; [now exists [q] | now exists new] |]. split.
    + right. exists q. rewrite Hq, Hch. repeat split; auto.
      * apply in_or_app. right. now left.
      * intros i text Hi.
        assert (Hlt : (i < List.length choices)%nat)
          by (apply nth_error_Some; congruence).
        rewrite <- Htxt, nth_error_map in Hi.
        destruct (nth_error new i) as [r |] eqn:Hr; [| discriminate].
        cbn in Hi. injection Hi as Hi.
        exists r. split; [apply in_or_app; right;
                          now apply (nth_error_In _ _ Hr) |].
        split.
        { rewrite Forall_forall in Hqid. apply Hqid.
          now apply (nth_error_In _ _ Hr). }
        apply (f_equal (fun l => nth_error l i)) in Hord, Hflag.
        unfold expected_orders in Hord. unfold expected_flags in Hflag.
        rewrite !nth_error_map, Hr, nth_error_seq in Hord, Hflag.
        apply Nat.ltb_lt in Hlt. rewrite Hlt in Hord, Hflag. cbn in Hord, Hflag.
        injection Hord as Hord. injection Hflag as Hflag.
        now repeat split.
    + intros code' Hne. unfold code_exists. rewrite Hq, existsb_app. cbn.
      unfold has_code at 2. rewrite Hcode.
      assert (E : String.eqb code code' = false)
        by (apply String.eqb_neq; congruence).
      rewrite E. now rewrite !orb_false_r.
Qed.

Lemma seed_all_from (catalog : list seed_entry) :
  NoDup (map code_of catalog) ->
  forall d1,
    sees (fun d => d = d1) (seed_all catalog)
      (fun _ d =>
         grows d1 d /\
         forall e, In e catalog ->
           code_exists (code_of e) d1 = true \/ seeded_whole e d).
Proof.
  induction catalog as [| e rest IH]; intros Hnd d1; cbn [seed_all].
  - apply sees_ret. intros d ->. split; [apply grows_refl | contradiction].
  - cbn [map] in Hnd. inversion Hnd as [| x l Hnot Hrest]; subst.
    apply sees_bind with (Q := fun _ d2 => seeded_from e d1 d2);
      [apply seed_one_from |].
    intros _. apply sees_from. intros d2 (Hg & He & Hother).
    eapply sees_weaken; [apply (IH Hrest d2) | auto |].
    cbn. intros _ d3 [Hg3 Hall]. split; [now apply grows_trans with d2 |].
    intros e' [<- | Hin].
    + destruct He as [He | He]; [now left | right].
      now apply seeded_whole_grows with d2.
    + destruct (Hall e' Hin) as [H | H]; [left | now right].
      rewrite <- Hother; [exact H |].
      intros Heq. apply Hnot. rewrite <- Heq. now apply in_map.
Qed.

Lemma starter_codes_differ : NoDup (map code_of starter_questions).
Proof.
  cbn. repeat (apply NoDup_cons;
               [cbn; intros H; repeat destruct H as [H | H];
                discriminate || exact H |]).
  apply NoDup_nil.
Qed.

Lemma same_rows_code_exists (d0 d : database) (code : string) :
  same_rows d0 d -> code_exists code d = code_exists code d0.
Proof. intros [Hq _]. unfold code_exists. now rewrite Hq. Qed.

Lemma keeps_rows_same_rows (d d' : database) :
  keeps_rows d d' -> same_rows d d'.
Proof.
  intros (_ & _ & Hq & Hc). unfold same_rows, question_rows, choice_rows.
  unfold kept_or_new in Hq, Hc.
  destruct (trivia_questions d); destruct (trivia_choices d);
    repeat match goal with
           | H : _ \/ _ |- _ => destruct H
           end;
    repeat match goal with
           | H : _ = _ |- _ => rewrite H
           end; now split.
Qed.

(** Every statement before the seeding leaves the trivia rows as they
    are. *)
Lemma schema_same_rows (d0 : database) :
  sees (fun d => d = d0)
    (execute_query (fun _ => inr 1) ;;
     _create_base_schema ;; _create_trivia_schema)
    (fun _ d => same_rows d0 d).
Proof.
  apply sees_bind with (Q := fun _ d => d = d0).
  { apply sees_query. auto. }
  intros _.
  apply sees_bind with (Q := fun _ d => same_rows d0 d).
  { eapply sees_weaken.
    - apply (base_schema_beside_metadata "other" d0); discriminate.
    - intros d ->. now repeat split.
    - cbn. intros _ d (_ & Hq & Hc).
      unfold same_rows, question_rows, choice_rows. now rewrite Hq, Hc. }
  intros _. apply sees_from. intros d1 [Hq Hc].
  eapply triple_weaken; [apply (trivia_schema_keeps_rows d1) | | | ]; cbn.
  - intros dk tx ->. apply keeps_rows_refl.
  - intros _ dk tx H. apply keeps_rows_same_rows in H.
    destruct H as [Hq' Hc']. split; congruence.
  - auto.
Qed.

Lemma initialize_whole (d0 : database) :
  sees (fun d => d = d0) initialize (fun _ d => whole_run d0 d).
Proof.
  pose proof (schema_same_rows d0) as Hs.
  intros c Hc. specialize (Hs c Hc). unfold initialize, bind in *.
  destruct (execute_query (fun _ => inr 1) c) as [[e | a] c1]; [exact I |].
  destruct (_create_base_schema c1) as [[e | u] c2]; [exact I |].
  destruct (_create_trivia_schema c2) as [[e | u'] c3]; [exact I |].
  pose proof (seed_all_from starter_questions starter_codes_differ
                (seen (disk c3) (txn c3)) c3 eq_refl) as Hseed.
  unfold _seed_starter_questions.
  destruct (seed_all starter_questions c3) as [[e | u''] c4]; [exact I |].
  apply (sees_commit (whole_run d0) c4).
  unfold holds in *. destruct Hs as [Hq Hc3]. destruct Hseed as [Hg Hall].
  split.
  - destruct Hg as [[qs Hqs] [cs Hcs]].
    split; [exists qs | exists cs]; congruence.
  - intros e He. destruct (Hall e He) as [H | H]; [left | now right].
    unfold code_exists in *. now rewrite <- Hq.
Qed.


Lemma run_outcomes_whole (d : database) :
  triple (fun dk tx => dk = d /\ tx = None) (initialize ;; statistics)
    (fun _ dk tx => initialized dk /\ whole_run d dk)
    (fun dk tx =>
       Atomicity.before_commit d dk \/ (initialized dk /\ whole_run d dk)).
Proof.
  eapply triple_bind with
    (Q := fun _ dk tx => (initialized dk /\ whole_run d dk) /\ tx = None).
  - assert (He : triple (fun dk tx => dk = d /\ tx = None) initialize
                   (fun _ dk tx => initialized dk /\ tx = None)
                   (fun _ _ => True)).
    { eapply triple_weaken with (1 := initialize_establishes); auto. }
    assert (Hw : triple (fun dk tx => dk = d /\ tx = None) initialize
                   (fun _ dk tx => whole_run d (seen dk tx))
                   (fun _ _ => True)).
    { eapply triple_weaken with (1 := initialize_whole d); auto.
      cbn. now intros dk tx [-> ->]. }
    pose proof (triple_both _ _ _ _ _ _
                  (triple_both _ _ _ _ _ _
                     (Atomicity.initialize_before_commit d) He) Hw) as Hb.
    eapply triple_weaken with (1 := Hb).
    + auto.
    + cbn. intros _ dk tx [[_ [Hi ->]] Hwhole].
      split; [split; [exact Hi | exact Hwhole] | reflexivity].
    + cbn. unfold Atomicity.on_disk. tauto.
  - intros _. eapply triple_weaken.
    + apply (statistics_read_only
               (fun dk tx => (initialized dk /\ whole_run d dk) /\ tx = None)
               (fun dk tx => initialized dk /\ whole_run d dk)).
      tauto.
    + auto.
    + cbn. tauto.
    + cbn. tauto.
Qed.

(** X7.  All or nothing.  Whatever the database, the clock and the
    behaviour of the engine, and whether the database part of [main]
    returns or raises, the file it leaves is either the initial one up to
    the two leading CREATE TABLE statements (no row written, no trivia
    table or index created), or what the whole transaction makes of it: an
    initialized database in which the trivia rows that were there come
    first, unchanged and in their order, and every entry of the catalog
    whose code had no question row before the run has its question row
    and, for each of its choice texts, a choice row of that question with
    the text, the order and the flag of its position.  A question without
    its choices, or with some of them, never reaches the file through a
    run. *)
Theorem run_is_all_or_nothing (d : database) (now : string)
    (faults : option nat) :
  let d' := snd (run_database d now faults) in
  Atomicity.before_commit d d' \/
  (initialized d' /\
   grows d d' /\
   forall e, In e starter_questions ->
     code_exists (code_of e) d = true \/ seeded_whole e d').
Proof.
  unfold run_database, with_connection.
  destruct (_connect d now faults) as [e | c] eqn:Hc.
  - left. now left.
  - apply Atomicity.connect_fresh in Hc.
    pose proof (run_outcomes_whole d c Hc) as H.
    destruct ((initialize ;; statistics) c) as [[e | r] c']; cbn.
    + exact H.
    + right. exact H.
Qed.

(** On a database that holds the trivia tables and one question of the
    catalog without any choice, a run leaves that question as it is and
    adds the five others whole. *)
Example run_on_partly_seeded_database :
  let q := mk_question 1 "GEN_001" "What is the capital city of France?"
             (Some "Geography") (Some "Easy") None
             "2025-01-01 00:00:00" "2025-01-01 00:00:00" in
  let d := mk_database None None (Some (mk_table [q] 1)) (Some empty_table)
             false false in
  let d' := snd (run_database d "2026-01-01 00:00:00" None) in
  fst (run_database d "2026-01-01 00:00:00" None) = inr (4, 6, 20) /\
  code_exists "GEN_001" d = true /\
  children 1 d' = [] /\
  map c_choice_text (children 2 d') = ["Venus"; "Mars"; "Jupiter"; "Mercury"].
Proof. vm_compute. repeat split. Qed.

End RunFacts.

(** ** More on the path resolver *)

Module ResolverFacts.
Import Paths Script Resolver.

(** X8.  The search over the whole text and the reading line by line.
    On a file that can be read and in which no blank path line ([# File
    path:] followed by white space only) comes before the first line that
    matches, nor is that line, the resolver does what reading the lines one
    by one does: it returns the absolute form of the stripped value of the
    first matching line, and raises the same [RuntimeError] when no line
    matches. *)
Theorem whole_text_search_is_line_by_line (cwd connection_file : string)
    (content : string) :
  guarded (lines content) = true ->
  get_db_path_from_connection_file cwd connection_file (Some content)
  = resolve_by_line cwd connection_file (Some content).
Proof. intros H. now apply resolver_by_line. Qed.

Lemma whole_text_search_is_line_by_line_witness :
  let content := "# SQLite connection methods:" ++ nl
                 ++ "# File path: data/quiz.db" ++ nl
                 ++ "# File path:" ++ nl ++ "trailing note" ++ nl in
  guarded (lines content) = true /\
  get_db_path_from_connection_file "/srv/app" "db_connection.txt"
    (Some content) = inr "/srv/app/data/quiz.db".
Proof.
  intros content.
  assert (H : guarded (lines content) = true) by reflexivity.
  split; [exact H |].
  rewrite (whole_text_search_is_line_by_line "/srv/app" "db_connection.txt"
             content H).
  reflexivity.
Defined.

(** *** Absolute paths *)

Lemma initial_slashes_positive (path : string) :
  isabs path = true ->
  exists m,
    match strip_prefix "/" path with
    | None => 0%nat
    | Some _ =>
        match strip_prefix "//" path, strip_prefix "///" path with
        | Some _, None => 2%nat
        | _, _ => 1%nat
        end
    end = S m.
Proof.
  destruct path as [| c rest]; [discriminate |]. cbn [isabs]. intros Hc.
  apply Ascii.eqb_eq in Hc. subst c.
  change (strip_prefix "/" (String slash rest)) with (Some rest).
  destruct (strip_prefix "//" (String slash rest));
    destruct (strip_prefix "///" (String slash rest)); eexists; reflexivity.
Qed.

Lemma normpath_absolute (path : string) :
  isabs path = true -> isabs (normpath path) = true.
Proof.
  intros Hp. destruct (initial_slashes_positive path Hp) as [m Hm].
  unfold normpath. rewrite Hm.
  destruct path as [| c rest]; [discriminate |].
  cbn [String.eqb]. cbv zeta. cbn [repeat_slash append String.eqb isabs].
  apply Ascii.eqb_refl.
Qed.

Lemma abspath_absolute (cwd path : string) :
  isabs cwd = true -> isabs (abspath cwd path) = true.
Proof.
  intros Hc. unfold abspath. apply normpath_absolute.
  destruct (isabs path) eqn:Hp; [exact Hp |].
  unfold join. rewrite Hp.
  destruct cwd as [| c rest]; [discriminate |].
  destruct (_ || _); exact Hc.
Qed.

(** X9.  The path the run works with is absolute.  In a working directory
    whose name is absolute, the path the resolver returns, whatever the
    reference file holds, starts with a slash, and so does the fallback
    path: [main] never connects to a relative path. *)
Theorem resolved_path_is_absolute (w : world) :
  isabs (cwd w) = true ->
  isabs (fst (fst (resolve w))) = true.
Proof.
  intros Hc. unfold resolve, get_db_path_from_connection_file.
  destruct (read_text w "db_connection.txt") as [content |]; cbn.
  - destruct (re_search content); cbn; now apply abspath_absolute.
  - now apply abspath_absolute.
Qed.

Lemma resolved_path_is_absolute_witness :
  isabs (cwd Orchestrator.custom_reference) = true /\
  isabs (fst (fst (resolve Orchestrator.custom_reference))) = true.
Proof.
  split; [reflexivity |].
  exact (resolved_path_is_absolute Orchestrator.custom_reference eq_refl).
Defined.

(** *** The reference file that [main] writes, read back *)

Lemma lines_cons (s rest : string) :
  take_line s = s -> lines (s ++ nl ++ rest) = s :: lines rest.
Proof.
  intros H. rewrite lines_unfold.
  rewrite (Orchestrator.take_line_app s) by exact H.
  rewrite (Orchestrator.after_line_app s) by exact H.
  cbn. now rewrite Orchestrator.append_empty.
Qed.

Lemma take_line_append (a b : string) :
  take_line a = a -> take_line b = b -> take_line (a ++ b) = a ++ b.
Proof.
  intros Ha Hb. rewrite (Orchestrator.take_line_app a) by exact Ha.
  now rewrite Hb.
Qed.

Lemma lstrip_length (s : string) :
  (String.length (lstrip s) <= String.length s)%nat.
Proof.
  induction s as [s IH] using space_ind. rewrite lstrip_unfold.
  destruct (skip_space s) as [s' |] eqn:Hs; [| lia].
  specialize (IH s' eq_refl). apply skip_space_length in Hs. lia.
Qed.

Lemma rstrip_length (s : string) :
  (String.length (rstrip s) <= String.length s)%nat.
Proof.
  induction s as [| c s IH]; [cbn; lia |].
  cbn [rstrip]. destruct (all_space (String c s)); cbn; lia.
Qed.

(** A text that [strip] leaves alone does not start with a white space
    character. *)
Lemma stripped_starts (s : string) :
  strip s = s -> skip_space s = None.
Proof.
  intros H. destruct (skip_space s) as [s' |] eqn:Hs; [| reflexivity].
  unfold strip in H. rewrite lstrip_unfold, Hs in H.
  pose proof (rstrip_length (lstrip s')) as H1.
  pose proof (lstrip_length s') as H2.
  apply skip_space_length in Hs. rewrite H in H1. lia.
Qed.

Lemma occurs_app (c : ascii) (a b : string) :
  occurs c (a ++ b) = occurs c a || occurs c b.
Proof.
  induction a as [| x a IH]; cbn; [reflexivity |].
  now rewrite IH, orb_assoc.
Qed.

(** A text without a carriage return is read as it was written. *)
Lemma universal_newlines_plain (s : string) :
  occurs "013"%char s = false -> universal_newlines s = s.
Proof.
  induction s as [| c s IH]; [reflexivity |].
  cbn [occurs universal_newlines]. intros H.
  apply orb_false_iff in H. destruct H as [-> H]. now rewrite (IH H).
Qed.

(** One line of a text, when it starts with [# File path:], one space and
    a value that is a line, is not empty and starts with no white space
    character: the pattern captures the value. *)
Lemma path_line_matches (value : string) :
  take_line value = value -> value <> EmptyString ->
  skip_space value = None ->
  blank_path_line ("# File path: " ++ value) = false /\
  match_here ("# File path: " ++ value) = Some value.
Proof.
  intros Hl Hne Hs.
  assert (Hg : match_group value = Some value).
  { unfold match_group. rewrite Hl. now destruct value. }
  unfold blank_path_line, match_here.
  change (strip_prefix file_path_prefix ("# File path: " ++ value))
    with (Some (String " "%char value)).
  cbv beta iota. split.
  - change (all_space (String " "%char value)) with (all_space value).
    rewrite all_space_unfold, Hs. now destruct value.
  - rewrite match_spaces_group_unfold.
    change (skip_space (String " "%char value)) with (Some value).
    cbv beta iota. now rewrite match_spaces_group_unfold, Hs, Hg.
Qed.

(** X10.  Round trip of the reference file.  The text that [main] writes
    for a path, read again in text mode, is resolved to that path,
    provided the path has no line feed and no carriage return (which
    reading would turn into a line feed), is not empty, has no white space
    character at either end, and is its own absolute form (as a path
    produced by [abspath] in a directory with an ordinary name is). *)
Theorem written_reference_file_resolves (cwd db_path : string) :
  take_line db_path = db_path ->
  occurs "013"%char db_path = false ->
  strip db_path = db_path ->
  db_path <> EmptyString ->
  abspath cwd db_path = db_path ->
  get_db_path_from_connection_file cwd "db_connection.txt"
    (Some (universal_newlines (connection_info db_path))) = inr db_path.
Proof.
  intros Hnl Hcr Hstrip Hne Habs.
  rewrite universal_newlines_plain
    by (unfold connection_info; rewrite !occurs_app, Hcr; reflexivity).
  pose proof (stripped_starts db_path Hstrip) as Hs.
  destruct (path_line_matches db_path Hnl Hne Hs) as [Hblank Hmatch].
  pose (l2 := "# Python: sqlite3.connect('" ++ db_path ++ "')").
  pose (l3 := "# Connection string: " ++ "sqlite:///" ++ db_path).
  pose (l4 := "# File path: " ++ db_path).
  assert (Hlines :
    lines (connection_info db_path)
    = (["# SQLite connection methods:"; l2; l3]
       ++ l4 :: [EmptyString])%list).
  { unfold connection_info, l2, l3, l4.
    rewrite (lines_cons "# SQLite connection methods:") by reflexivity.
    replace ("# Python: sqlite3.connect('" ++ db_path ++ "')" ++ nl
             ++ "# Connection string: " ++ ("sqlite:///" ++ db_path) ++ nl
             ++ "# File path: " ++ db_path ++ nl)
      with (("# Python: sqlite3.connect('" ++ db_path ++ "')") ++ nl
            ++ ("# Connection string: " ++ "sqlite:///" ++ db_path) ++ nl
            ++ ("# File path: " ++ db_path) ++ nl ++ EmptyString)
      by (rewrite !Orchestrator.append_assoc, Orchestrator.append_empty;
          reflexivity).
    rewrite !lines_cons; [reflexivity | | |];
      repeat (apply take_line_append; try reflexivity; try exact Hnl). }
  rewrite (first_matching_line_wins cwd "db_connection.txt"
             (connection_info db_path) _ _ _ db_path Hlines).
  - now rewrite Hstrip, Habs.
  - intros x [<- | [<- | [<- | []]]]; reflexivity.
  - exact Hblank.
  - exact Hmatch.
Qed.

Lemma written_reference_file_resolves_witness :
  take_line "/home/dev/database/myapp.db" = "/home/dev/database/myapp.db" /\
  occurs "013"%char "/home/dev/database/myapp.db" = false /\
  strip "/home/dev/database/myapp.db" = "/home/dev/database/myapp.db" /\
  abspath "/home/dev/database" "/home/dev/database/myapp.db"
  = "/home/dev/database/myapp.db" /\
  get_db_path_from_connection_file "/home/dev/database" "db_connection.txt"
    (Some (universal_newlines
             (connection_info "/home/dev/database/myapp.db")))
  = inr "/home/dev/database/myapp.db".
Proof.
  split; [reflexivity |]. split; [reflexivity |]. split; [reflexivity |].
  split; [reflexivity |].
  apply written_reference_file_resolves; try reflexivity. discriminate.
Defined.

(** A path with a carriage return does not come back: the text is read
    with a line feed in its place, and the path line ends there. *)
Example carriage_return_is_not_kept :
  let db_path := "/home/de" ++ String "013"%char "v/myapp.db" in
  get_db_path_from_connection_file "/home/de" "db_connection.txt"
    (Some (universal_newlines (connection_info db_path)))
  = inr "/home/de".
Proof. vm_compute. reflexivity. Qed.

(** *** The white space after the colon *)

Lemma match_spaces_group_skips (ws s g : string) :
  all_space ws = true ->
  skip_space s = None ->
  match_group s = Some g ->
  match_spaces_group (ws ++ s) = Some g.
Proof.
  intros Hws Hs Hg. induction ws as [ws IH] using space_ind.
  rewrite match_spaces_group_unfold.
  rewrite all_space_unfold in Hws.
  destruct ws as [| c ws1].
  - cbn [append]. now rewrite Hs.
  - destruct (skip_space (String c ws1)) as [ws' |] eqn:Hk; [| discriminate].
    rewrite (skip_space_app _ _ s Hk).
    now rewrite (IH ws' eq_refl Hws).
Qed.

(** X16.  The colon may be followed by any white space of the line, or by
    none.  When the text starts with [# File path:], then white space
    characters (of one byte or more) without a line feed, then a value that
    is not empty, does not start with a white space character and runs to
    the end of the line, the resolver returns the absolute form of that
    value with its trailing white space stripped, whatever follows the
    line. *)
Theorem space_after_colon_is_free (cwd connection_file : string)
    (ws value rest : string) :
  all_space ws = true ->
  take_line ws = ws ->
  value <> EmptyString ->
  skip_space value = None ->
  take_line value = value ->
  get_db_path_from_connection_file cwd connection_file
    (Some ("# File path:" ++ ws ++ value ++ nl ++ rest))
  = inr (abspath cwd (strip value)).
Proof.
  intros Hws Hwl Hne Hv Hvl.
  unfold get_db_path_from_connection_file, re_search.
  rewrite search_true.
  assert (Hline : take_line (value ++ nl ++ rest) = value).
  { rewrite (Orchestrator.take_line_app value) by exact Hvl.
    cbn. apply Orchestrator.append_empty. }
  assert (Hm : match_here ("# File path:" ++ ws ++ value ++ nl ++ rest)
               = Some value).
  { unfold match_here.
    change (strip_prefix file_path_prefix
              ("# File path:" ++ ws ++ value ++ nl ++ rest))
      with (Some (ws ++ value ++ nl ++ rest)).
    cbv beta iota.
    apply match_spaces_group_skips; [exact Hws | |].
    - pose proof (skip_space_line (value ++ nl ++ rest)) as Hk.
      rewrite Hline, Hv in Hk.
      destruct value as [| c value']; [congruence |].
      cbn [append] in Hk |- *. cbn [take_line] in Hvl.
      destruct (Ascii.eqb c newline); [discriminate |].
      destruct (skip_space (String c (value' ++ nl ++ rest)));
        [discriminate | reflexivity].
    - unfold match_group. rewrite Hline. now destruct value. }
  now rewrite Hm.
Qed.

(** U+00A0, the no-break space, and U+0085, the next line control. *)
Definition nbsp : string := String "194"%char (String "160"%char EmptyString).

Definition nel : string := String "194"%char (String "133"%char EmptyString).

Lemma space_after_colon_is_free_witness :
  all_space (" " ++ nbsp) = true /\
  skip_space "data/quiz.db  " = None /\
  get_db_path_from_connection_file "/srv/app" "db_connection.txt"
    (Some ("# File path:" ++ (" " ++ nbsp) ++ "data/quiz.db  " ++ nl
           ++ "# File path: /tmp/other.db"))
  = inr "/srv/app/data/quiz.db".
Proof.
  split; [reflexivity |]. split; [reflexivity |].
  rewrite (space_after_colon_is_free "/srv/app" "db_connection.txt"
             (" " ++ nbsp) "data/quiz.db  " "# File path: /tmp/other.db");
    try reflexivity.
  discriminate.
Defined.

(** White space of more than one byte is white space for the pattern and
    for [strip]: a no-break space before and after the value is dropped,
    and a path line that holds only U+0085 is blank, so that the value is
    taken from the next line. *)
Example no_break_space_is_stripped :
  get_db_path_from_connection_file "/srv/app" "db_connection.txt"
    (Some ("# File path:" ++ nbsp ++ "/tmp/x.db" ++ nbsp ++ nl))
  = inr "/tmp/x.db".
Proof. vm_compute. reflexivity. Qed.

Example next_line_control_is_blank :
  let content := "# File path:" ++ nel ++ nl ++ "next" ++ nl in
  guarded (lines content) = false /\
  get_db_path_from_connection_file "/srv/app" "db_connection.txt"
    (Some content)
  = inr "/srv/app/next".
Proof. vm_compute. split; reflexivity. Qed.

End ResolverFacts.

(** ** More on the orchestrator *)

Module MainFacts.
Import Sql InitDb Paths Script Orchestrator.

Definition db_dir (w : world) : string :=
  if String.eqb (dirname (resolved_path w)) EmptyString then "."
  else dirname (resolved_path w).

(** [main] in terms of its blocks. *)
Lemma main_unfold (w : world) :
  main w
  = let out := ([Print "Starting SQLite setup (trivia schema + seed)..."]
                ++ snd (resolve w)
                ++ [Print (if path_exists w (resolved_path w)
                           then "SQLite database already exists at "
                                ++ resolved_path w
                           else "Creating new SQLite database at "
                                ++ resolved_path w ++ "...")])%list in
    match makedirs_error w (db_dir w) with
    | Some msg => (inl (OSError msg), w, out)
    | None =>
        let '(r, w1, out3) := initialize_database (resolved_path w) w in
        match r with
        | inl e => (inl e, w1, (out ++ [MakeDirs (db_dir w)] ++ out3)%list)
        | inr _ =>
            let '(r', w3, out4) :=
              publish (used_fallback w) (resolved_path w) w1 in
            (r', w3, (out ++ [MakeDirs (db_dir w)] ++ out3 ++ out4)%list)
        end
    end.
Proof.
  unfold main, db_dir, resolved_path, used_fallback.
  destruct (resolve w) as [[db_path fb] out1]. cbn [fst snd].
  destruct (makedirs_error w _); [reflexivity |].
  destruct (initialize_database db_path w) as [[[e | u] w1] out3].
  - now rewrite <- !app_assoc.
  - destruct (publish fb db_path w1) as [[r' w3] out4].
    now rewrite <- !app_assoc.
Qed.

Lemma no_write_in_head (w : world) (p c : string) :
  ~ In (WriteFile p c)
      ([Print "Starting SQLite setup (trivia schema + seed)..."]
       ++ snd (resolve w)
       ++ [Print (if path_exists w (resolved_path w)
                  then "SQLite database already exists at "
                       ++ resolved_path w
                  else "Creating new SQLite database at "
                       ++ resolved_path w ++ "...")])%list.
Proof.
  rewrite !in_app_iff. unfold resolve.
  destruct (get_db_path_from_connection_file _ _ _); cbn;
    intros H; repeat destruct H as [H | H]; try discriminate; auto.
Qed.

(** X11.  A run whose database part raises publishes nothing.  When the
    connection or the [try] block raises, [main] ends with an exception
    (that one, or the [OSError] of the directory of the database), no text
    file reads differently after the run, and the run has written no file:
    the environment file and the reference file are never written for a
    database that was not initialized. *)
Theorem failed_database_publishes_nothing (w : world) (e : exn) :
  fst (fst (initialize_database (resolved_path w) w)) = inl e ->
  (fst (fst (main w)) = inl e \/
   exists msg, fst (fst (main w)) = inl (OSError msg)) /\
  read_text (snd (fst (main w))) = read_text w /\
  forall p c, ~ In (WriteFile p c) (snd (main w)).
Proof.
  intros H. rewrite main_unfold. cbv zeta.
  destruct (makedirs_error w (db_dir w)) as [msg |].
  - cbn [fst snd]. split; [right; now exists msg |].
    split; [reflexivity |]. intros p c. apply no_write_in_head.
  - pose proof (initialize_database_frame (resolved_path w) w) as Hf.
    destruct (initialize_database (resolved_path w) w)
      as [[[e1 | u] w1] out3]; [| discriminate].
    cbn in H. injection H as ->. destruct Hf as (Hr & _ & _ & Hout).
    cbn [fst snd]. split; [now left |]. split; [exact Hr |].
    intros p c Hin. apply in_app_or in Hin. destruct Hin as [Hin | Hin].
    + now apply (no_write_in_head w p c).
    + destruct Hin as [Hin | Hin]; [discriminate |].
      now apply (Hout p c).
Qed.

(** A world whose database file is not a database. *)
Definition broken_database : world :=
  mk_world "/home/dev/database" "2026-01-01 00:00:00"
    (fun _ => None) (fun _ => None) (fun _ => None)
    (fun _ => NotADatabase) None.

Lemma failed_database_publishes_nothing_witness :
  fst (fst (initialize_database (resolved_path broken_database)
              broken_database))
  = inl (OperationalError "unable to open database file") /\
  read_text (snd (fst (main broken_database))) = read_text broken_database.
Proof.
  assert (H : fst (fst (initialize_database (resolved_path broken_database)
                          broken_database))
              = inl (OperationalError "unable to open database file"))
    by reflexivity.
  split; [exact H |].
  exact (proj1 (proj2 (failed_database_publishes_nothing _ _ H))).
Defined.

Lemma initialize_database_other (db_path : string) (w : world)
    (p : string) :
  p <> db_path ->
  databases (snd (fst (initialize_database db_path w))) p = databases w p.
Proof.
  intros Hp. unfold initialize_database.
  assert (Hne : String.eqb p db_path = false) by now apply String.eqb_neq.
  destruct (databases w db_path) as [| d |]; [| | reflexivity];
    destruct (run_database _ _ _) as [[e | [[tc qc] cc]] d'];
    cbn; now rewrite Hne.
Qed.

Lemma save_connection_info_databases (fb : bool) (db_path : string)
    (w : world) :
  databases (fst (save_connection_info fb db_path w)) = databases w.
Proof.
  unfold save_connection_info. destruct fb; [| reflexivity].
  destruct (write_text _ _ w) as [e | w'] eqn:Hw; [reflexivity |].
  destruct (write_text_ok _ _ _ _ Hw) as (_ & _ & Hd & _). exact Hd.
Qed.

Lemma publish_databases (fb : bool) (db_path : string) (w : world) :
  databases (snd (fst (publish fb db_path w))) = databases w.
Proof.
  unfold publish.
  pose proof (write_visualizer_env_frame db_path w) as Hf.
  destruct (_write_visualizer_env db_path w) as [[[e | u] w2] out5];
    destruct Hf as (_ & Hd & _); [exact Hd |].
  pose proof (save_connection_info_databases fb db_path w2) as Hs.
  destruct (save_connection_info fb db_path w2) as [w3 out6].
  cbn in *. congruence.
Qed.

(** X12.  One database per run.  However the run ends, every database
    file other than the one at the resolved path is after the run what it
    was before it. *)
Theorem other_databases_untouched (w : world) (p : string) :
  p <> resolved_path w ->
  databases (snd (fst (main w))) p = databases w p.
Proof.
  intros Hp. rewrite main_unfold. cbv zeta.
  destruct (makedirs_error w (db_dir w)); [reflexivity |].
  pose proof (initialize_database_other (resolved_path w) w p Hp) as Hi.
  destruct (initialize_database (resolved_path w) w) as [[[e | u] w1] out3];
    cbn [fst snd] in *; [exact Hi |].
  pose proof (publish_databases (used_fallback w) (resolved_path w) w1) as Hq.
  destruct (publish (used_fallback w) (resolved_path w) w1)
    as [[r' w3] out4].
  cbn [fst snd] in *. now rewrite Hq.
Qed.

(** A world with a second database beside the one the run works on. *)
Definition two_databases : world :=
  mk_world "/home/dev/database" "2026-01-01 00:00:00"
    (fun _ => None) (fun _ => None) (fun _ => None)
    (fun p => if String.eqb p "/srv/other.db"
              then DbFile (set_users empty_table empty_database)
              else NoFile)
    None.

Lemma other_databases_untouched_witness :
  "/srv/other.db" <> resolved_path two_databases /\
  databases (snd (fst (main two_databases))) "/srv/other.db"
  = DbFile (set_users empty_table empty_database).
Proof.
  assert (H : "/srv/other.db" <> resolved_path two_databases)
    by (vm_compute; discriminate).
  split; [exact H |].
  rewrite (other_databases_untouched two_databases "/srv/other.db" H).
  reflexivity.
Defined.

Lemma resolve_without_path_line (w : world) (content : string) :
  read_text w reference_file = Some content ->
  re_search content = None ->
  resolve w
  = (abspath (cwd w) DB_NAME_FALLBACK, true,
     [Print ("Warning: db_connection.txt does not contain an "
             ++ "authoritative '# File path: ...' line.");
      Print "Falling back to local DB file: myapp.db"]).
Proof.
  unfold resolve, reference_file, get_db_path_from_connection_file.
  now intros -> ->.
Qed.

(** X13.  A reference file without a path line is replaced.  When the
    reference file can be read but the pattern finds nothing in it, the
    run does what it does for a missing file: it warns, works with the
    fallback path, and, if it completes and can write the file, leaves in
    it the four lines of [connection_info] for the fallback path.  What
    the file held before is gone. *)
Theorem lineless_reference_file_is_replaced (w w' : world)
    (tr : list event) (content : string) :
  read_text w reference_file = Some content ->
  re_search content = None ->
  open_w_error w reference_file = None ->
  main w = (inr tt, w', tr) ->
  resolved_path w = abspath (cwd w) DB_NAME_FALLBACK /\
  read_text w' reference_file
  = Some (connection_info (abspath (cwd w) DB_NAME_FALLBACK)) /\
  In (WriteFile reference_file
        (connection_info (abspath (cwd w) DB_NAME_FALLBACK))) tr.
Proof.
  intros Hread Hnone Hwr H.
  pose proof (resolve_without_path_line w content Hread Hnone) as Hres.
  apply main_completed in H.
  destruct H as (stats & d' & w2 & out5 & out6 & Hrun & Henv & Hsave & Htr).
  unfold resolved_path, used_fallback in *. rewrite Hres in *.
  cbn [fst snd] in *.
  apply write_visualizer_env_ok in Henv.
  destruct Henv as (_ & _ & _ & Hopen & _).
  unfold save_connection_info, write_text in Hsave.
  change "db_connection.txt" with reference_file in Hsave.
  rewrite Hopen in Hsave. cbn [set_database open_w_error] in Hsave.
  rewrite Hwr in Hsave. injection Hsave as <- <-.
  cbn [read_text]. rewrite String.eqb_refl.
  repeat split. apply Htr. right. now left.
Qed.

(** A checkout whose reference file has lost its path line. *)
Definition lineless_reference : world :=
  mk_world "/home/dev/database" "2026-01-01 00:00:00"
    (fun p => if String.eqb p reference_file
              then Some ("# SQLite connection methods:" ++ nl
                         ++ "# notes: ask the quiz team" ++ nl)
              else None)
    (fun _ => None) (fun _ => None) (fun _ => NoFile) None.

Lemma lineless_reference_file_is_replaced_witness :
  re_search ("# SQLite connection methods:" ++ nl
             ++ "# notes: ask the quiz team" ++ nl) = None /\
  fst (fst (main lineless_reference)) = inr tt /\
  read_text (snd (fst (main lineless_reference))) reference_file
  = Some (connection_info "/home/dev/database/myapp.db").
Proof.
  assert (H : main lineless_reference
              = (inr tt, snd (fst (main lineless_reference)),
                 snd (main lineless_reference)))
    by (vm_compute; reflexivity).
  split; [reflexivity |]. split; [vm_compute; reflexivity |].
  exact (proj1 (proj2
           (lineless_reference_file_is_replaced lineless_reference _ _ _
              eq_refl eq_refl eq_refl H))).
Defined.

(** X14.  A reference file that cannot be written is a warning.  When the
    fallback was used, the database part returned and the environment file
    was written, a failure to open the reference file for writing does not
    stop the run: [main] returns, the warning with the message of the
    error is printed, then the closing lines, and the reference file reads
    as before. *)
Theorem unwritable_reference_file_is_a_warning (w : world) (msg : string) :
  makedirs_error w (db_dir w) = None ->
  fst (fst (initialize_database (resolved_path w) w)) = inr tt ->
  makedirs_error w "db_visualizer" = None ->
  open_w_error w env_file_name = None ->
  used_fallback w = true ->
  open_w_error w reference_file = Some msg ->
  fst (fst (main w)) = inr tt /\
  In (Print ("Warning: Could not save connection info: " ++ msg))
     (snd (main w)) /\
  In (Print (nl ++ "Script completed successfully.")) (snd (main w)) /\
  read_text (snd (fst (main w))) reference_file
  = read_text w reference_file.
Proof.
  intros Hdir Hinit Hviz Henvw Hfb Hrefw.
  rewrite main_unfold. cbv zeta. rewrite Hdir, Hfb.
  pose proof (initialize_database_frame (resolved_path w) w) as Hf.
  destruct (initialize_database (resolved_path w) w) as [[[e | []] w1] out3];
    [discriminate |].
  destruct Hf as (Hr1 & Ho1 & Hm1 & _).
  assert (Henv : _write_visualizer_env (resolved_path w) w1
                 = (inr tt,
                    snd (fst (_write_visualizer_env (resolved_path w) w1)),
                    snd (_write_visualizer_env (resolved_path w) w1))).
  { unfold _write_visualizer_env, write_text.
    rewrite Hm1, Hviz, Ho1, Henvw. reflexivity. }
  rewrite (reference_write_failure_is_a_warning _ msg _ _ _ Henv)
    by (now rewrite Ho1).
  cbn [fst snd].
  destruct (write_visualizer_env_ok _ _ _ _ Henv) as (_ & Hother & _).
  repeat split.
  - rewrite !in_app_iff. right. right. right. right. left. now left.
  - rewrite !in_app_iff. right. right. right. right. right.
    right. right. right. now left.
  - rewrite Hother by discriminate. now rewrite Hr1.
Qed.

Lemma unwritable_reference_file_is_a_warning_witness :
  let w := mk_world "/home/dev/database" "2026-01-01 00:00:00"
             (fun _ => None)
             (fun p => if String.eqb p reference_file
                       then Some "[Errno 13] Permission denied"
                       else None)
             (fun _ => None) (fun _ => NoFile) None in
  used_fallback w = true /\
  open_w_error w reference_file = Some "[Errno 13] Permission denied" /\
  fst (fst (main w)) = inr tt.
Proof.
  intros w. split; [reflexivity |]. split; [reflexivity |].
  refine (proj1 (unwritable_reference_file_is_a_warning w
                   "[Errno 13] Permission denied" _ _ _ _ _ _));
    reflexivity.
Defined.

(** *** The fallback and the reference file *)

(** What [resolve] prints is part of what [main] prints, however the run
    ends. *)
Lemma resolve_trace_in_main (w : world) (e : event) :
  In e (snd (resolve w)) -> In e (snd (main w)).
Proof.
  intros H. rewrite main_unfold. cbv zeta.
  destruct (makedirs_error w (db_dir w)).
  - cbn [snd]. rewrite !in_app_iff. auto.
  - destruct (initialize_database (resolved_path w) w)
      as [[[e1 | u] w1] out3].
    + cbn [snd]. rewrite !in_app_iff. auto.
    + destruct (publish (used_fallback w) (resolved_path w) w1)
        as [[r' w3] out4].
      cbn [snd]. rewrite !in_app_iff. auto.
Qed.

(** When the directory of the database can be created, the database part
    returns, and the environment file can be written, [main] returns. *)
Lemma main_returns (w : world) :
  makedirs_error w (db_dir w) = None ->
  fst (fst (initialize_database (resolved_path w) w)) = inr tt ->
  makedirs_error w "db_visualizer" = None ->
  open_w_error w env_file_name = None ->
  fst (fst (main w)) = inr tt.
Proof.
  intros Hdir Hinit Hviz Henvw.
  rewrite main_unfold. cbv zeta. rewrite Hdir.
  pose proof (initialize_database_frame (resolved_path w) w) as Hf.
  destruct (initialize_database (resolved_path w) w) as [[[e | []] w1] out3];
    [discriminate |].
  destruct Hf as (_ & Ho1 & Hm1 & _).
  destruct (env_failure_is_raised (used_fallback w) (resolved_path w) w1)
    as [(msg & H & _) | [(msg & _ & H & _) | (_ & _ & H)]];
    [congruence | congruence |].
  destruct (publish (used_fallback w) (resolved_path w) w1) as [[r' w3] out4].
  exact H.
Qed.

(** C6, as the code has it.  When the reference file cannot be read, the
    resolver's error is caught and printed as a warning, and the run works
    with the default name made absolute in the working directory.  The run
    completes whenever the directory of the database can be created, the
    database part returns and the environment file can be written.  When
    it completes, the database at the fallback path holds what the run
    committed, and the reference file has been rewritten if it could be
    opened for writing: it then reads back as the four lines the script
    writes, the last of which is [# File path: <that path>].  If it could
    not be opened, the error is printed as a warning and the reference
    file is absent as before. *)
Theorem fallback_rewrites_reference_file (w : world) :
  read_text w reference_file = None ->
  let db_path := abspath (cwd w) DB_NAME_FALLBACK in
  (resolved_path w = db_path /\
   used_fallback w = true /\
   In (Print ("Warning: Could not read db_connection.txt. "
              ++ "It must exist and contain '# File path: ...'."))
      (snd (main w))) /\
  (makedirs_error w (db_dir w) = None ->
   fst (fst (initialize_database db_path w)) = inr tt ->
   makedirs_error w "db_visualizer" = None ->
   open_w_error w env_file_name = None ->
   fst (fst (main w)) = inr tt) /\
  (fst (fst (main w)) = inr tt ->
   (exists stats d',
      run_database (database_at w db_path) (now w) (engine_faults w)
      = (inr stats, d') /\
      databases (snd (fst (main w))) db_path = DbFile d') /\
   match open_w_error w reference_file with
   | None =>
       read_text (snd (fst (main w))) reference_file
       = Some (connection_info db_path) /\
       has_line ("# File path: " ++ db_path) (connection_info db_path) /\
       In (WriteFile reference_file (connection_info db_path)) (snd (main w))
   | Some msg =>
       read_text (snd (fst (main w))) reference_file = None /\
       In (Print ("Warning: Could not save connection info: " ++ msg))
          (snd (main w))
   end).
Proof.
  intros Hread db_path.
  pose proof (resolve_fallback w Hread) as Hres.
  assert (Hpath : resolved_path w = db_path)
    by (unfold resolved_path; now rewrite Hres).
  assert (Hfb : used_fallback w = true)
    by (unfold used_fallback; now rewrite Hres).
  split; [| split].
  - split; [exact Hpath |]. split; [exact Hfb |].
    apply resolve_trace_in_main. rewrite Hres. now left.
  - intros Hdir Hinit Hviz Henvw. rewrite <- Hpath in Hinit.
    now apply main_returns.
  - intros Hret.
    assert (H : main w = (inr tt, snd (fst (main w)), snd (main w))).
    { destruct (main w) as [[r w'] tr]. cbn in *. now subst r. }
    apply main_completed in H.
    destruct H as (stats & d' & w2 & out5 & out6 & Hrun & Henv & Hsave & Htr).
    rewrite Hpath in Hrun, Henv, Hsave. rewrite Hfb in Hsave.
    apply write_visualizer_env_ok in Henv.
    destruct Henv as (_ & Hother & Hdb & Hopen & _).
    unfold save_connection_info, write_text in Hsave.
    change "db_connection.txt" with reference_file in Hsave.
    rewrite Hopen in Hsave. cbn [set_database open_w_error] in Hsave.
    assert (Hd : databases w2 db_path = DbFile d').
    { rewrite Hdb. cbn. now rewrite String.eqb_refl. }
    destruct (open_w_error w reference_file) as [msg |].
    + injection Hsave as Hw Hout. rewrite <- Hw. split.
      * now exists stats, d'.
      * split.
        -- rewrite Hother by discriminate. exact Hread.
        -- apply Htr. right. rewrite <- Hout. now left.
    + injection Hsave as Hw Hout. rewrite <- Hw. cbn [read_text databases].
      rewrite String.eqb_refl. split.
      * now exists stats, d'.
      * split; [reflexivity |].
        split; [apply connection_info_has_path_line |].
        apply Htr. right. rewrite <- Hout. now left.
Qed.

Lemma fallback_rewrites_reference_file_witness :
  read_text fresh_clone reference_file = None /\
  fst (fst (main fresh_clone)) = inr tt /\
  read_text (snd (fst (main fresh_clone))) reference_file
  = Some (connection_info "/home/dev/database/myapp.db").
Proof.
  destruct (fallback_rewrites_reference_file fresh_clone eq_refl)
    as (_ & Hret & Hdone).
  assert (Hm : fst (fst (main fresh_clone)) = inr tt).
  { apply Hret; vm_compute; reflexivity. }
  split; [reflexivity |]. split; [exact Hm |].
  destruct (Hdone Hm) as [_ H].
  change (open_w_error fresh_clone reference_file) with (@None string) in H.
  exact (proj1 H).
Defined.


End MainFacts.

(** ** Running again on an initialized database *)

Module Rerun.
Import Sql Conn InitDb Seeding Idempotence.

(** [m] returns, when the engine refuses no statement and the connection
    sees a database with [P]; the database it then sees has [Q]. *)
Definition returns {A : Type} (P : database -> Prop) (m : M A)
    (Q : A -> database -> Prop) : Prop :=
  forall c, fault_after c = None -> P (view c) ->
    exists a c', m c = (inr a, c') /\ fault_after c' = None /\ Q a (view c').

Lemma returns_ret {A : Type} (a : A) (P : database -> Prop)
    (Q : A -> database -> Prop) :
  (forall d, P d -> Q a d) -> returns P (ret a) Q.
Proof. intros H c Hf HP. exists a, c. repeat split; auto. Qed.

Lemma returns_bind {A B : Type} (m : M A) (k : A -> M B)
    (P : database -> Prop) (Q : A -> database -> Prop)
    (Q' : B -> database -> Prop) :
  returns P m Q -> (forall a, returns (Q a) (k a) Q') ->
  returns P (bind m k) Q'.
Proof.
  intros Hm Hk c Hf HP.
  destruct (Hm c Hf HP) as (a & c1 & Hc1 & Hf1 & HQ).
  destruct (Hk a c1 Hf1 HQ) as (b & c2 & Hc2 & Hf2 & HQ').
  exists b, c2. unfold bind. rewrite Hc1. auto.
Qed.

Lemma step_engine_returns (c : connection) :
  fault_after c = None -> step_engine c = (inr tt, c).
Proof. unfold step_engine. now intros ->. Qed.

Lemma returns_query {A : Type} (q : database -> exn + A)
    (P : database -> Prop) (Q : A -> database -> Prop) :
  (forall d, P d -> exists a, q d = inr a /\ Q a d) ->
  returns P (execute_query q) Q.
Proof.
  intros H c Hf HP. destruct (H _ HP) as (a & Hq & HQ).
  exists a, c. unfold execute_query, bind.
  rewrite (step_engine_returns c Hf), Hq. auto.
Qed.

Lemma returns_ddl (s : database -> exn + database)
    (P Q : database -> Prop) :
  (forall d, P d -> exists d', s d = inr d' /\ Q d') ->
  returns P (execute_ddl s) (fun _ => Q).
Proof.
  intros H c Hf HP. destruct (H _ HP) as (d' & Hs & HQ).
  unfold execute_ddl, bind. rewrite (step_engine_returns c Hf), Hs.
  eexists. eexists. split; [reflexivity |].
  unfold view. destruct (txn c); cbn; auto.
Qed.

Lemma returns_dml (s : string -> database -> exn + database)
    (P Q : database -> Prop) :
  (forall now d, P d -> exists d', s now d = inr d' /\ Q d') ->
  returns P (execute_dml s) (fun _ => Q).
Proof.
  intros H c Hf HP. destruct (H (clock c) _ HP) as (d' & Hs & HQ).
  unfold execute_dml, bind. rewrite (step_engine_returns c Hf), Hs.
  eexists. eexists. split; [reflexivity |]. cbn. auto.
Qed.

Lemma returns_commit (P : database -> Prop) :
  returns P commit (fun _ => P).
Proof.
  intros c Hf HP. eexists. eexists. split; [reflexivity |]. cbn. auto.
Qed.

(** *** Room for the upserts *)

(** [app_info] can take [n] more rows: its rowids and its sequence are at
    least [n] below the largest rowid. *)
Definition rowids_left (n : nat) (d : database) : Prop :=
  exists t,
    app_info d = Some t /\
    0 <= seq t /\
    seq t + Z.of_nat n < max_rowid /\
    Forall (fun r => ai_id r + Z.of_nat n < max_rowid) (rows t).

Lemma list_max_in (l : list Z) (v : Z) : list_max l = Some v -> In v l.
Proof.
  destruct l as [| x l]; [discriminate |]. cbn. intros H. injection H as <-.
  revert x. induction l as [| y l IH]; intros x; [now left |].
  cbn [fold_left]. destruct (IH (Z.max x y)) as [H | H].
  - rewrite <- H.
    destruct (Z.max_spec x y) as [[_ E] | [_ E]]; rewrite E; cbn; auto.
  - right. now right.
Qed.

Lemma upsert_returns (n : nat) (key now : string) (value : option string)
    (d : database) :
  rowids_left (S n) d ->
  exists d',
    insert_or_replace_app_info key value now d = inr d' /\
    rowids_left n d' /\
    users d' = users d /\
    trivia_questions d' = trivia_questions d /\
    trivia_choices d' = trivia_choices d /\
    idx_trivia_choices_question_id d' = idx_trivia_choices_question_id d /\
    idx_trivia_questions_category d' = idx_trivia_questions_category d.
Proof.
  intros (t & Ht & H0 & Hs & Hr).
  unfold insert_or_replace_app_info. rewrite Ht.
  assert (Hid : exists id, new_rowid ai_id t = inr id /\
                           1 <= id /\ id + Z.of_nat n < max_rowid).
  { unfold new_rowid.
    destruct (list_max (map ai_id (rows t))) as [v |] eqn:Hm.
    - apply list_max_in in Hm. apply in_map_iff in Hm.
      destruct Hm as (r & <- & Hin).
      rewrite Forall_forall in Hr. specialize (Hr r Hin).
      replace (ai_id r >=? max_rowid) with false by lia.
      replace (seq t >=? max_rowid) with false by lia.
      cbn. eexists. split; [reflexivity | lia].
    - replace (seq t >=? max_rowid) with false by lia.
      eexists. split; [reflexivity | lia]. }
  destruct Hid as (id & -> & H1 & H2).
  eexists. split; [reflexivity |]. split; [| repeat split].
  exists (mk_table
            (filter (fun r => negb (String.eqb (ai_key r) key)) (rows t)
             ++ [mk_app_info id key value now]) id).
  cbn. repeat split; try lia.
  apply Forall_app. split.
  - rewrite Forall_forall in *. intros r Hin.
    apply filter_In in Hin. specialize (Hr r (proj1 Hin)). lia.
  - constructor; [cbn; lia | constructor].
Qed.

(** *** The run *)

(** Everything the run needs to find, with room for [n] upserts. *)
Definition ready (n : nat) (d : database) : Prop :=
  rowids_left n d /\
  users d <> None /\
  trivia_questions d <> None /\
  trivia_choices d <> None /\
  idx_trivia_choices_question_id d = true /\
  idx_trivia_questions_category d = true /\
  forall e, In e starter_questions -> code_exists (code_of e) d = true.

Lemma upsert_ready (n : nat) (key : string) (value : option string) :
  returns (ready (S n))
    (execute_dml (insert_or_replace_app_info key value))
    (fun _ => ready n).
Proof.
  apply returns_dml. intros now d (Hr & Hu & Hq & Hc & Hi & Hj & Hcat).
  destruct (upsert_returns n key now value d Hr)
    as (d' & Hs & Hr' & Eu & Eq & Ec & Ei & Ej).
  exists d'. split; [exact Hs |].
  unfold ready, code_exists, question_rows in *.
  rewrite Eu, Eq, Ec, Ei, Ej. repeat split; auto.
Qed.

(** A CREATE ... IF NOT EXISTS of something that exists returns and
    changes nothing. *)
Lemma create_ready (n : nat) (s : database -> exn + database) :
  (forall d, ready n d -> s d = inr d) ->
  returns (ready n) (execute_ddl s) (fun _ => ready n).
Proof.
  intros H. apply returns_ddl. intros d Hd. exists d. split; auto.
Qed.

Lemma base_schema_ready :
  returns (ready 3) _create_base_schema (fun _ => ready 0).
Proof.
  unfold _create_base_schema.
  eapply returns_bind.
  { apply create_ready. intros d ((t & Ht & _) & _).
    unfold create_app_info. now rewrite Ht. }
  intros ?. eapply returns_bind.
  { apply create_ready. intros d (_ & Hu & _).
    unfold create_users. now destruct (users d). }
  intros ?. eapply returns_bind; [apply upsert_ready |].
  intros ?. eapply returns_bind; [apply upsert_ready |].
  intros ?. apply upsert_ready.
Qed.

Lemma trivia_schema_ready :
  returns (ready 0) _create_trivia_schema (fun _ => ready 0).
Proof.
  unfold _create_trivia_schema.
  eapply returns_bind.
  { apply create_ready. intros d (_ & _ & Hq & _).
    unfold create_trivia_questions. now destruct (trivia_questions d). }
  intros ?. eapply returns_bind.
  { apply create_ready. intros d (_ & _ & _ & Hc & _).
    unfold create_trivia_choices. now destruct (trivia_choices d). }
  intros ?. eapply returns_bind.
  { apply create_ready. intros d (_ & _ & _ & _ & Hi & _).
    unfold create_idx_choices. now rewrite Hi. }
  intros ?.
  apply create_ready. intros d (_ & _ & _ & _ & _ & Hj & _).
  unfold create_idx_category. now rewrite Hj.
Qed.

Lemma seed_all_ready (catalog : list seed_entry) :
  incl catalog starter_questions ->
  returns (ready 0) (seed_all catalog) (fun _ => ready 0).
Proof.
  induction catalog as [| e rest IH]; intros Hincl; cbn.
  - apply returns_ret. auto.
  - eapply returns_bind; [| intros ?; apply IH;
                            intros x Hx; apply Hincl; now right].
    assert (Hin : In e starter_questions) by (apply Hincl; now left).
    destruct e as [[[[[[code qt] choices] ci] cat] dif] ex]. cbn.
    unfold _insert_question_with_choices, _question_exists.
    eapply returns_bind with (Q := fun found d => ready 0 d /\ found = true).
    + eapply returns_bind with
        (Q := fun row d => ready 0 d /\ is_some row = true).
      * apply returns_query. intros d Hd.
        pose proof Hd as (_ & _ & Hq & _ & _ & _ & Hcat).
        specialize (Hcat _ Hin). cbn in Hcat.
        unfold select_1_by_code, code_exists, question_rows in *.
        destruct (trivia_questions d) as [t |]; [| contradiction].
        rewrite Hcat. eexists. split; [reflexivity |]. now split.
      * intros row. apply returns_ret. auto.
    + intros found c Hf [Hd ->]. exists tt, c.
      split; [reflexivity |]. split; [exact Hf | exact Hd].
Qed.

Lemma statistics_ready :
  returns (ready 0) statistics (fun _ _ => True).
Proof.
  unfold statistics.
  eapply returns_bind with (Q := fun _ => ready 0).
  { apply returns_query. intros d Hd. eexists. split; [reflexivity |].
    exact Hd. }
  intros table_count.
  eapply returns_bind with (Q := fun _ => ready 0).
  { apply returns_query. intros d Hd.
    pose proof Hd as (_ & _ & Hq & _). unfold count_questions.
    destruct (trivia_questions d); [| contradiction].
    eexists. split; [reflexivity | exact Hd]. }
  intros q_count.
  eapply returns_bind with (Q := fun _ => ready 0).
  { apply returns_query. intros d Hd.
    pose proof Hd as (_ & _ & _ & Hc & _). unfold count_choices.
    destruct (trivia_choices d); [| contradiction].
    eexists. split; [reflexivity | exact Hd]. }
  intros c_count. apply returns_ret. auto.
Qed.

(** X15.  Running again returns.  On the database a successful run has
    left, a later run in which the engine refuses no statement returns,
    provided [app_info] has room for three more rowids (its rowids and its
    sequence are at least three below the largest rowid, which the three
    upserts use up): no statement of the second run raises. *)
Theorem rerun_returns (d0 : database) (now0 : string) (faults0 : option nat)
    (stats0 : Z * Z * Z) (d1 : database) (now1 : string) :
  run_database d0 now0 faults0 = (inr stats0, d1) ->
  rowids_left 3 d1 ->
  exists stats1, fst (run_database d1 now1 None) = inr stats1.
Proof.
  intros H Hroom. apply successful_run_initializes in H.
  destruct H as (_ & Hu & Hq & Hc & Hi & Hj & Hcat).
  assert (Hready : ready 3 d1) by (unfold ready; auto 10).
  assert (R : returns (ready 3) (initialize ;; statistics)
                (fun _ _ => True)).
  { unfold initialize.
    eapply returns_bind; [| intros ?; apply statistics_ready].
    eapply returns_bind with (Q := fun _ => ready 3).
    { apply returns_query. intros d Hd. eexists. split; [reflexivity |].
      exact Hd. }
    intros ?. eapply returns_bind; [apply base_schema_ready |].
    intros ?. eapply returns_bind; [apply trivia_schema_ready |].
    intros ?. eapply returns_bind;
      [apply seed_all_ready, incl_refl |].
    intros ?. apply returns_commit. }
  destruct (R (mk_connection d1 None now1 None) eq_refl Hready)
    as (stats1 & c' & Hrun & _).
  exists stats1. unfold run_database, with_connection.
  change (_connect d1 now1 None)
    with (@inr exn connection (mk_connection d1 None now1 None)).
  cbv beta iota. now rewrite Hrun.
Qed.

Lemma rerun_returns_witness :
  let d1 := snd (run_database empty_database "2026-01-01 00:00:00" None) in
  run_database empty_database "2026-01-01 00:00:00" None
  = (inr (4, 6, 24), d1) /\
  rowids_left 3 d1 /\
  exists stats1,
    fst (run_database d1 "2026-01-02 00:00:00" None) = inr stats1.
Proof.
  intros d1.
  assert (H : run_database empty_database "2026-01-01 00:00:00" None
              = (inr (4, 6, 24), d1)) by (vm_compute; reflexivity).
  assert (Hroom : rowids_left 3 d1).
  { exists (mk_table
              [mk_app_info 1 "project_name"
                 (Some "interactive-trivia-challenge") "2026-01-01 00:00:00";
               mk_app_info 2 "version" (Some "0.2.0") "2026-01-01 00:00:00";
               mk_app_info 3 "description"
                 (Some "SQLite DB for interactive trivia questions and sessions.")
                 "2026-01-01 00:00:00"] 3).
    split; [vm_compute; reflexivity |].
    cbn [seq rows]. unfold max_rowid.
    split; [lia |]. split; [cbn; lia |].
    repeat (apply Forall_cons; [cbn; lia |]). apply Forall_nil. }
  split; [exact H |]. split; [exact Hroom |].
  exact (rerun_returns _ _ _ _ _ "2026-01-02 00:00:00" H Hroom).
Defined.

End Rerun.
